(** * Secure chat (server.py, client.py): shallow embedding and verified
    properties

    The server keeps three global containers ([clients], [client_names],
    [rate_bucket]) and talks to websockets.  The embedding below threads
    them explicitly through every operation, together with the log of all
    send attempts, and treats one handler step (the code between two
    receptions on one connection) as one atomic transition, which is what
    the single-threaded asyncio loop gives when no other handler runs in
    between.  A step reads the clock once: every [datetime.now()] in it
    sees the same [now].

    The handlers are also given with what the other handlers do while a
    send is awaited ([handle_first_live], [handle_message_live]): there
    [broadcast_message] iterates over the client set as the others change
    it.  The two agree as long as the others do nothing.

    Of the client, the embedding has the pure parts of its command line
    (the URL and the username it builds from what is typed) and the two
    loops of [SecureChatClient], the listener and the input loop, as
    transitions of the fields they share. *)

From stdpp Require Import base option list gmap strings.
From Stdlib Require Import ZArith NArith Lia String Ascii Sorted.

Set Warnings "-register-all".
Local Open Scope N_scope.

(** ** Python strings

    A Python [str] is a sequence of Unicode code points; [len] is the number
    of code points. *)

Definition pystr : Type := list N.

(** An ASCII literal read as a [str]. *)
Definition lit (s : string) : pystr :=
  map N_of_ascii (list_ascii_of_string s).

(** ["Anónimo"]: the [ó] is code point U+00F3. *)
Definition Anonimo : pystr := [65; 110; 243; 110; 105; 109; 111].

Definition in_range (lo hi ch : N) : bool := (lo <=? ch) && (ch <=? hi).

(** [ch.isspace()], which is also what [str.strip()] removes: CPython's
    whitespace code points. *)
Definition isspace (ch : N) : bool :=
  in_range 9 13 ch || in_range 28 32 ch || (ch =? 133) || (ch =? 160)
  || (ch =? 5760) || in_range 8192 8202 ch || (ch =? 8232) || (ch =? 8233)
  || (ch =? 8239) || (ch =? 8287) || (ch =? 12288).

(** [ch.isalnum()] on the Latin-1 block: decimal digits, the ASCII and
    Latin-1 letters, and the Latin-1 characters Unicode gives a numeric
    value (superscripts and vulgar fractions). *)
Definition isalnum_latin1 (ch : N) : bool :=
  in_range 48 57 ch || in_range 65 90 ch || in_range 97 122 ch
  || (ch =? 170) || in_range 178 179 ch || (ch =? 181) || in_range 185 186 ch
  || in_range 188 190 ch || in_range 192 214 ch || in_range 216 246 ch
  || in_range 248 255 ch.

Fixpoint lstrip (s : pystr) : pystr :=
  match s with
  | [] => []
  | ch :: s' => if isspace ch then lstrip s' else s
  end.

Definition rstrip (s : pystr) : pystr := rev (lstrip (rev s)).

(** [s.strip()] *)
Definition strip (s : pystr) : pystr := rstrip (lstrip s).

(** [ch in " _-.'"] *)
Definition in_extra (ch : N) : bool :=
  bool_decide (ch ∈ lit " _-.'").

Local Close Scope N_scope.

Section Sanitizer.

(** [str.isalnum] beyond Latin-1 is decided by the interpreter's Unicode
    database, which is no part of the repository: it is a parameter. *)
Variable isalnum_wide : N → bool.

Definition isalnum (ch : N) : bool :=
  if (ch <? 256)%N then isalnum_latin1 ch else isalnum_wide ch.

Definition allowed (ch : N) : bool := isalnum ch || in_extra ch.

(** [sanitize_username(name: str | None) -> str] *)
Definition sanitize_username (name : option pystr) : pystr :=
  match name with
  | None | Some [] => Anonimo
  | Some name =>
      let name := strip name in
      let filtrado := List.filter allowed name in
      take 32 (match filtrado with [] => Anonimo | _ => filtrado end)
  end.

End Sanitizer.

(** ** Wire values

    What [json.loads] returns.  An object is the list of its members, one
    per key, and [dict.get] finds a key's member.  Numbers are integers: of
    a number the server only asks whether it is falsy and whether it is a
    string, and a float answers as the integer of its truthiness does. *)

Inductive json : Type :=
| JNull
| JBool (b : bool)
| JInt (z : Z)
| JStr (s : pystr)
| JArr (items : list json)
| JObj (members : list (pystr * json)).

(** One reception on a connection: the transport closed ([recv] raised or
    the [async for] ended); [json.loads] raised [JSONDecodeError] on what
    was received; [json.loads] raised any other exception on it (for
    instance [RecursionError] on a text nested too deep,
    [UnicodeDecodeError] on a binary frame that is no UTF-8, [ValueError]
    on an integer literal with too many digits); or the value [json.loads]
    returned. *)
Inductive Frame : Type :=
| Dropped
| BadJson
| Unloadable
| Json (data : json).

(** [bool(v)] for a JSON value. *)
Definition truthy (v : json) : bool :=
  match v with
  | JNull => false
  | JBool b => b
  | JInt z => negb (z =? 0)%Z
  | JStr s => match s with [] => false | _ => true end
  | JArr l => match l with [] => false | _ => true end
  | JObj l => match l with [] => false | _ => true end
  end.

(** What [sanitize_username] gets to work on out of the JSON value under
    ["username"]: a falsy value is taken by the [not name] test as [None]
    is, a string gives its text, and no other value has [strip]. *)
Definition username_argument (raw : json) : option (option pystr) :=
  if negb (truthy raw) then Some None
  else match raw with JStr name => Some (Some name) | _ => None end.

(** Insertion-ordered dictionaries ([dict]) as association lists with
    unique keys. *)
Section Dict.
Context {K V : Type} `{EqDecision K}.

Fixpoint dict_get (k : K) (d : list (K * V)) : option V :=
  match d with
  | [] => None
  | (k', v) :: d' => if decide (k = k') then Some v else dict_get k d'
  end.

(** [d[k] = v]: an existing key keeps its place, a new one goes last. *)
Fixpoint dict_set (k : K) (v : V) (d : list (K * V)) : list (K * V) :=
  match d with
  | [] => [(k, v)]
  | (k', v') :: d' =>
      if decide (k = k') then (k, v) :: d' else (k', v') :: dict_set k v d'
  end.

(** [d.pop(k, None)] *)
Fixpoint dict_pop (k : K) (d : list (K * V)) : list (K * V) :=
  match d with
  | [] => []
  | (k', v') :: d' =>
      if decide (k = k') then d' else (k', v') :: dict_pop k d'
  end.

(** [list(d.values())] *)
Definition dict_values (d : list (K * V)) : list V := map snd d.
Definition dict_keys (d : list (K * V)) : list K := map fst d.
End Dict.

(** ** Events, send log and server state *)

(** A websocket handle. *)
Definition conn : Type := nat.

(** Times are [datetime] values counted in microseconds, the resolution of
    [datetime.now()]; [RATE_WINDOW] is 2.0 seconds. *)
Definition MAX_PLAINTEXT_LEN : Z := 4096.
Definition MAX_ENCRYPTED_LEN : Z := 8 * MAX_PLAINTEXT_LEN.
Definition RATE_WINDOW : Z := 2000000.
Definition RATE_MAX_MSGS : Z := 10.

(** The outbound JSON objects, by their ["type"]. *)
Inductive Event : Type :=
| EncryptionKey
| UserList (users : list pystr)
| UserJoined (username : pystr) (timestamp : Z) (message : pystr)
| UserLeft (username : pystr) (timestamp : Z) (message : pystr)
| ChatMessage (username : pystr) (content : pystr) (timestamp : Z)
| Error (message : pystr).

#[global] Instance Event_eq_dec : EqDecision Event.
Proof. solve_decision. Defined.

(** One [await client.send(...)]: to whom, what, and whether it went through
    ([delivered = false]: the call raised). *)
Record Attempt : Type := mkAttempt {
  target : conn;
  event : Event;
  delivered : bool
}.

#[global] Instance Attempt_eq_dec : EqDecision Attempt.
Proof. solve_decision. Defined.

(** [{"count": ..., "window_start": ...}] *)
Record Bucket : Type := mkBucket {
  count : Z;
  window_start : Z
}.

Record Server : Type := mkServer {
  clients : gset conn;
  client_names : list (conn * pystr);
  rate_bucket : gmap conn Bucket;
  sent : list Attempt
}.

Definition initial : Server := mkServer ∅ [] ∅ [].

Definition len (s : pystr) : Z := Z.of_nat (List.length s).

(** ** Handler monad: state, exceptions, and fuel for the broadcast/cleanup
    recursion *)

(** The exceptions of the handler: a send or receive on a closed
    connection; [get] on a JSON value that is no object; what [json.loads]
    raises beside [JSONDecodeError] ([RecursionError],
    [UnicodeDecodeError]); and "Set changed size during iteration". *)
Inductive Exn : Type :=
| ConnectionClosed
| AttributeError
| LoadsError
| RuntimeError.

Inductive Result (A : Type) : Type :=
| Ok (a : A) (st : Server)
| Raise (e : Exn) (st : Server)
| OutOfFuel.
Arguments Ok {A} a st.
Arguments Raise {A} e st.
Arguments OutOfFuel {A}.

Definition M (A : Type) : Type := Server → Result A.

#[global] Instance M_ret : MRet M := λ A a st, Ok a st.
#[global] Instance M_bind : MBind M := λ A B f m st,
  match m st with
  | Ok a st' => f a st'
  | Raise e st' => Raise e st'
  | OutOfFuel => OutOfFuel
  end.

Definition raise {A} (e : Exn) : M A := λ st, Raise e st.
Definition gets {A} (f : Server → A) : M A := λ st, Ok (f st) st.
Definition modify (f : Server → Server) : M unit := λ st, Ok tt (f st).

(** [for x in xs: body(x)] *)
Fixpoint for_each {A} (body : A → M unit) (xs : list A) : M unit :=
  match xs with
  | [] => mret tt
  | x :: xs' => _ ← body x; for_each body xs'
  end.

(** [data.get(key)]: [AttributeError] on anything but an object. *)
Definition py_get (data : json) (key : pystr) : M json :=
  match data with
  | JObj members => mret (default JNull (dict_get key members))
  | _ => raise AttributeError
  end.

(** [v == s] for a string literal [s]. *)
Definition is_str (v : json) (s : pystr) : bool :=
  match v with
  | JStr s' => bool_decide (s' = s)
  | _ => false
  end.

Definition log (c : conn) (ev : Event) (ok : bool) (st : Server) : Server :=
  mkServer (clients st) (client_names st) (rate_bucket st)
           (sent st ++ [mkAttempt c ev ok]).

(** The error texts of [handle_client]. *)
Definition msg_bad_registration : pystr := lit "JSON inv" ++ [225%N] ++ lit "lido en registro".
Definition msg_register_first : pystr := lit "Debe registrarse primero".
Definition msg_rate_limit : pystr := lit "Rate limit excedido. Intenta m" ++ [225%N] ++ lit "s tarde.".
Definition msg_bad_json : pystr := lit "JSON inv" ++ [225%N] ++ lit "lido".
Definition msg_bad_content : pystr := lit "Contenido inv" ++ [225%N] ++ lit "lido o demasiado grande".
Definition msg_bad_message : pystr := lit "Mensaje inv" ++ [225%N] ++ lit "lido".
Definition msg_unsupported : pystr := lit "Tipo de mensaje no soportado".

(** ** A small cipher and Unicode table to run the model on

    The cipher puts its nonce in front of the plaintext; decryption takes it
    off again and fails on the empty text. *)

Definition toy_encrypt (nonce : N) (plaintext : pystr) : pystr :=
  nonce :: plaintext.

Definition toy_decrypt (ciphertext : pystr) : option pystr :=
  match ciphertext with
  | [] => None
  | _ :: plaintext => Some plaintext
  end.

(** A table with no alphanumeric character beyond Latin-1. *)
Definition latin1_only : N → bool := λ _, false.

(** Every send goes through. *)
Definition all_delivered : nat → conn → bool := λ _ _, true.

(** Every send to connection [dead] fails once the log holds [k] entries;
    all other sends go through. *)
Definition fails_from (k : nat) (dead : conn) : nat → conn → bool :=
  λ n c, negb (bool_decide (c = dead) && bool_decide (k ≤ n)).

(** Connection 0 registered as Ana at time 0, nothing sent yet. *)
Definition ana_online : Server :=
  mkServer {[0]} [(0, lit "Ana")] {[0 := mkBucket 0 0]} [].

(** Connections 0 and 1 registered as Ana and Bob. *)
Definition ana_bob_online : Server :=
  mkServer {[0; 1]} [(0, lit "Ana"); (1, lit "Bob")]
           {[0 := mkBucket 0 0; 1 := mkBucket 0 0]} [].

(** Connections 0, 1 and 2 registered as Ana, Bob and Eva. *)
Definition three_online : Server :=
  mkServer {[0; 1; 2]} [(0, lit "Ana"); (1, lit "Bob"); (2, lit "Eva")]
           {[0 := mkBucket 0 0; 1 := mkBucket 0 0; 2 := mkBucket 0 0]} [].

(** [{"type": "register", "username": name}] *)
Definition register_frame (name : pystr) : Frame :=
  Json (JObj [(lit "type", JStr (lit "register")); (lit "username", JStr name)]).

(** [{"type": "chat_message", "content": content}] *)
Definition chat_frame (content : json) : Frame :=
  Json (JObj [(lit "type", JStr (lit "chat_message")); (lit "content", content)]).

(** ** The client's command line ([main] of client.py)

    [s.startswith(prefix)] *)
Fixpoint startswith (s prefix : pystr) : bool :=
  match prefix, s with
  | [], _ => true
  | p :: prefix', ch :: s' => (ch =? p)%N && startswith s' prefix'
  | _ :: _, [] => false
  end.

(** [old in s] *)
Fixpoint contains (s old : pystr) : bool :=
  startswith s old
  || match s with
     | [] => false
     | _ :: s' => contains s' old
     end.

(** The scan of [s.replace(old, new)] for a non-empty [old]: its
    occurrences are taken from the left, none overlapping another; [skip]
    counts the characters of the occurrence just replaced that are still to
    be passed over. *)
Fixpoint replace_from (old new : pystr) (skip : nat) (s : pystr) : pystr :=
  match s with
  | [] => []
  | ch :: s' =>
      match skip with
      | S skip' => replace_from old new skip' s'
      | O =>
          if startswith s old
          then new ++ replace_from old new (List.length old - 1) s'
          else ch :: replace_from old new 0 s'
      end
  end.

(** [s.replace(old, new)]; the empty [old] occurs before every character
    and at the end. *)
Definition replace (s old new : pystr) : pystr :=
  match old with
  | [] => new ++ flat_map (λ ch, ch :: new) s
  | _ => replace_from old new 0 s
  end.

(** The server URL [main] builds from the answer to the ngrok prompt. *)
Definition ngrok_url (typed : pystr) : pystr :=
  let ngrok_host := strip typed in
  if negb (startswith ngrok_host (lit "https://"))
     && negb (startswith ngrok_host (lit "wss://"))
  then lit "wss://" ++ ngrok_host
  else replace (replace ngrok_host (lit "https://") (lit "wss://"))
               (lit "http://") (lit "wss://").

(** [input(...).strip() or fallback] *)
Definition strip_or (fallback : pystr) (typed : pystr) : pystr :=
  match strip typed with
  | [] => fallback
  | answer => answer
  end.

(** The username [main] passes to [connect], which sends it in the
    registration message. *)
Definition typed_username (typed : pystr) : pystr := strip_or Anonimo typed.

(** The server URL [main] builds from the answers to the host and port
    prompts of the local mode. *)
Definition local_url (typed_host typed_port : pystr) : pystr :=
  let server_host := strip_or (lit "localhost") typed_host in
  let server_port := strip_or (lit "8765") typed_port in
  lit "ws://" ++ server_host ++ lit ":" ++ server_port.

(** ** The client ([SecureChatClient] of client.py)

    The client is an object with a websocket, a cipher, and two loops: the
    listener, which takes what the server sends, and the input loop, which
    takes what the user types.  The embedding keeps the fields the two
    loops read and write, what was printed, and what was handed to
    [websocket.send]. *)

Module Client.

(** A [Fernet] instance by its two methods with the UTF-8 coding the code
    puts around them: [encrypt] draws a fresh IV (the nonce), [decrypt]
    fails on what it cannot authenticate or decode. *)
Record Cipher : Type := mkCipher {
  seal : N → pystr → pystr;
  unseal : pystr → option pystr
}.

(** What the client prints, one constructor for each [print] of the
    listener and the input loop; a JSON value in a line is the value the
    f-string interpolates.  In the order below: the key was invalid; a
    chat message, as ["[{time_str}] {username}: {content}"]; a user joined;
    a user left; the connected users, joined with commas; an error of the
    server; a message of unknown type; the key is not there yet; a message
    could not be sent; the server closed the connection; listening
    failed. *)
Inductive Line : Type :=
| BadKeyLine
| ChatLine (time_str : pystr) (username content : json)
| JoinedLine (username : json)
| LeftLine (username : json)
| UsersLine (users : pystr)
| ErrorLine (message : json)
| UnknownLine (data : json)
| WaitLine
| SendErrorLine
| ClosedLine
| ListenErrorLine.

(** The fields of the object that the loops use ([key_received] is the
    state of the [asyncio.Event]), the lines printed so far, and the
    messages handed to [websocket.send] so far, each with whether the
    wait for its result came back without an exception. *)
Record State : Type := mkState {
  cipher : option Cipher;
  key_received : bool;
  running : bool;
  console : list Line;
  outbox : list (json * bool)
}.

(** What the listener's [async for] yields next: the connection closed in
    order (the loop ends), it broke ([ConnectionClosed] is raised), or a
    text arrived, which [json.loads] parses or not. *)
Inductive Reception : Type :=
| Finished
| Lost
| Garbled
| Message (data : json).

(** What [input()] gives: a line, or [EOFError] or [KeyboardInterrupt]. *)
Inductive Keyboard : Type :=
| Typed (message : pystr)
| EndOfInput.

Definition emit_line (line : Line) (c : State) : State :=
  mkState (cipher c) (key_received c) (running c) (console c ++ [line])
          (outbox c).

Definition stop (c : State) : State :=
  mkState (cipher c) (key_received c) false (console c) (outbox c).

(** [self.cipher = ...; self.key_received.set()] *)
Definition install (k : Cipher) (c : State) : State :=
  mkState (Some k) true (running c) (console c) (outbox c).

Definition post (message : json) (ok : bool) (c : State) : State :=
  mkState (cipher c) (key_received c) (running c) (console c)
          (outbox c ++ [(message, ok)]).

(** [encrypt_message]: without a cipher the text is returned as it is. *)
Definition encrypt_message (c : State) (nonce : N) (message : pystr) : pystr :=
  match cipher c with
  | Some k => seal k nonce message
  | None => message
  end.

Definition undecipherable : pystr :=
  lit "[Mensaje cifrado - error al descifrar]".

(** [decrypt_message], for whatever value sits under ["content"]: with a
    cipher, anything that fails (a value without [encode] too) gives the
    marker; without one the value is returned as it is. *)
Definition decrypt_message (c : State) (encrypted_message : json) : json :=
  match cipher c with
  | Some k =>
      match encrypted_message with
      | JStr text => JStr (default undecipherable (unseal k text))
      | _ => JStr undecipherable
      end
  | None => encrypted_message
  end.

(** [data.get(key, default)] on a dict. *)
Definition get (members : list (pystr * json)) (key : string) (dflt : json)
    : json :=
  default dflt (dict_get (lit key) members).

(** [sep.join(parts)] *)
Fixpoint join (sep : pystr) (parts : list pystr) : pystr :=
  match parts with
  | [] => []
  | [part] => part
  | part :: parts' => part ++ sep ++ join sep parts'
  end.

(** The strings [str.join] gets out of a JSON value by iterating it: the
    items of a list if all are strings, the characters of a string, the
    keys of an object; [TypeError] otherwise. *)
Definition as_strings (v : json) : option (list pystr) :=
  match v with
  | JArr items =>
      mapM (λ item, match item with JStr s => Some s | _ => None end) items
  | JStr s => Some (map (λ ch, [ch]) s)
  | JObj members => Some (dict_keys members)
  | _ => None
  end.

(** The TLS settings of [connect]: [ssl.create_default_context()] checks
    the host name and requires a valid certificate. *)
Inductive VerifyMode : Type := CERT_NONE | CERT_REQUIRED.

Record SslContext : Type := mkSslContext {
  check_hostname : bool;
  verify_mode : VerifyMode
}.

Definition create_default_context : SslContext :=
  mkSslContext true CERT_REQUIRED.

(** The [ssl_context] that [connect] passes to [websockets.connect]. *)
Definition connect_ssl_context (server_url : pystr) : option SslContext :=
  if startswith server_url (lit "wss://") then
    let ssl_context := create_default_context in
    let ssl_context := mkSslContext false (verify_mode ssl_context) in
    let ssl_context := mkSslContext (check_hostname ssl_context) CERT_NONE in
    Some ssl_context
  else None.

(** The messages the client sends. *)
Definition register_message (username : pystr) : json :=
  JObj [(lit "type", JStr (lit "register")); (lit "username", JStr username)].

Definition chat_message (encrypted_content : pystr) : json :=
  JObj [(lit "type", JStr (lit "chat_message"));
        (lit "content", JStr encrypted_content)].

Section Loops.

(** [Fernet(base64.b64decode(key_b64))] for the value under ["key"]: the
    cipher, or failure for what is no base64 text of a Fernet key. *)
Variable fernet : json → option Cipher.

(** [datetime.fromisoformat(text).strftime("%H:%M:%S")], failing on a text
    that is no ISO date. *)
Variable clock : pystr → option pystr.

(** [str.lower] *)
Variable lower : pystr → pystr.

(** Whether the [n]-th [websocket.send] of the input loop goes through. *)
Variable send_ok : nat → bool.

(** [handle_server_message(data)]; [None] when it raises, which it does
    before it has changed or printed anything. *)
Definition handle_server_message (data : json) (c : State) : option State :=
  match data with
  | JObj members =>
      let mtype := get members "type" JNull in
      if is_str mtype (lit "encryption_key") then
        match fernet (get members "key" (JStr [])) with
        | Some k => Some (install k c)
        | None => Some (emit_line BadKeyLine c)
        end
      else if is_str mtype (lit "chat_message") then
        let username := get members "username" (JStr (lit "?")) in
        let encrypted_content := get members "content" (JStr []) in
        let timestamp := get members "timestamp" (JStr []) in
        let content := decrypt_message c encrypted_content in
        let time_str :=
          match timestamp with
          | JStr text =>
              default [] (clock (replace text (lit "Z") (lit "+00:00")))
          | _ => []
          end in
        Some (emit_line (ChatLine time_str username content) c)
      else if is_str mtype (lit "user_joined") then
        Some (emit_line (JoinedLine (get members "username" (JStr (lit "?")))) c)
      else if is_str mtype (lit "user_left") then
        Some (emit_line (LeftLine (get members "username" (JStr (lit "?")))) c)
      else if is_str mtype (lit "user_list") then
        match as_strings (get members "users" (JArr [])) with
        | Some users => Some (emit_line (UsersLine (join (lit ", ") users)) c)
        | None => None
        end
      else if is_str mtype (lit "error") then
        Some (emit_line
                (ErrorLine (get members "message" (JStr (lit "Error desconocido"))))
                c)
      else Some (emit_line (UnknownLine data) c)
  | _ => None
  end.

(** One turn of [listen_messages], and its end: whatever ends the loop,
    [running] is cleared. *)
Definition listen (r : Reception) (c : State) : State :=
  match r with
  | Finished => stop c
  | Lost => stop (emit_line ClosedLine c)
  | Garbled => stop (emit_line ListenErrorLine c)
  | Message data =>
      match handle_server_message data c with
      | Some c' => c'
      | None => stop (emit_line ListenErrorLine c)
      end
  end.

(** One turn of the loop of [input_handler], from the line read on; the
    websocket and the event loop are set by then. *)
Definition input_turn (nonce : N) (key : Keyboard) (c : State) : State :=
  match key with
  | EndOfInput => stop c
  | Typed message =>
      if bool_decide (lower (strip message) = lit "exit") then stop c
      else
        match cipher c with
        | None => emit_line WaitLine c
        | Some _ =>
            match strip message with
            | [] => c
            | _ =>
                let encrypted_content := encrypt_message c nonce message in
                let ok := send_ok (List.length (outbox c)) in
                let c' := post (chat_message encrypted_content) ok c in
                if ok then c' else emit_line SendErrorLine c'
            end
        end
  end.

(** The JSON object the server sends for an event, as [json.loads] gives
    it back to the client: [key_b64] is the base64 text of the process
    key, [isoformat] the text of a time. *)
Variable key_b64 : pystr.
Variable isoformat : Z → pystr.

Definition on_wire (ev : Event) : json :=
  match ev with
  | EncryptionKey =>
      JObj [(lit "type", JStr (lit "encryption_key")); (lit "key", JStr key_b64)]
  | UserList users =>
      JObj [(lit "type", JStr (lit "user_list"));
            (lit "users", JArr (map JStr users))]
  | UserJoined username timestamp message =>
      JObj [(lit "type", JStr (lit "user_joined"));
            (lit "username", JStr username);
            (lit "timestamp", JStr (isoformat timestamp));
            (lit "message", JStr message)]
  | UserLeft username timestamp message =>
      JObj [(lit "type", JStr (lit "user_left"));
            (lit "username", JStr username);
            (lit "timestamp", JStr (isoformat timestamp));
            (lit "message", JStr message)]
  | ChatMessage username content timestamp =>
      JObj [(lit "type", JStr (lit "chat_message"));
            (lit "username", JStr username);
            (lit "content", JStr content);
            (lit "timestamp", JStr (isoformat timestamp))]
  | Error message =>
      JObj [(lit "type", JStr (lit "error")); (lit "message", JStr message)]
  end.

End Loops.

End Client.

(** A client that holds the small cipher and has printed and posted
    nothing; a clock that reads no text as a time; a key reader that makes
    the small cipher of any key; and a [lower] for lines that are in lower
    case already. *)
Definition ready_client : Client.State :=
  Client.mkState (Some (Client.mkCipher toy_encrypt toy_decrypt)) true true [] [].

Definition no_clock : pystr → option pystr := λ _, None.

Definition toy_fernet : json → option Client.Cipher :=
  λ _, Some (Client.mkCipher toy_encrypt toy_decrypt).

Definition lower_as_typed : pystr → pystr := λ s, s.

(** Every message the input loop posts goes through. *)
Definition all_posted : nat → bool := λ _, true.

(** ** The server *)

Section Server.

(** The Unicode database beyond Latin-1 (see [isalnum]). *)
Variable isalnum_wide : N → bool.

(** The Fernet cipher under the process key: [cipher.encrypt] draws a
    fresh IV (the [nonce]), [cipher.decrypt] fails on what it cannot
    authenticate or decode.  [encrypt_message] and [decrypt_message] are
    these with the UTF-8 coding around them. *)
Variable encrypt : N → pystr → pystr.
Variable decrypt : pystr → option pystr.

(** Whether the [n]-th send attempt of the process, made on connection
    [c], goes through. *)
Variable send_ok : nat → conn → bool.

Definition encrypt_message (nonce : N) (message : pystr) : pystr :=
  encrypt nonce message.

(** The [try]/[except Exception] turns every failure into [None]. *)
Definition decrypt_message (encrypted_message : pystr) : option pystr :=
  decrypt encrypted_message.

(** [await c.send(json.dumps(ev))], with the outcome reported. *)
Definition transmit (c : conn) (ev : Event) : M bool := λ st,
  let ok := send_ok (List.length (sent st)) c in
  Ok ok (log c ev ok st).

(** The same where the caller does not catch: a failure raises. *)
Definition send (c : conn) (ev : Event) : M unit :=
  ok ← transmit c ev;
  if ok : bool then mret tt else raise ConnectionClosed.

(** The sending loop of [broadcast_message] when the client set is not
    changed while it runs, that is, when no other handler registers or
    unregisters a connection during the awaited sends: every client not
    skipped is sent the message inside [try]; the ones that raise are
    appended to [disconnected].  [send_each_live] below is the loop with
    the other handlers in between. *)
Fixpoint send_each (message : Event) (skip : conn → bool)
    (cs : list conn) (disconnected : list conn) : M (list conn) :=
  match cs with
  | [] => mret disconnected
  | client :: cs' =>
      if skip client then send_each message skip cs' disconnected
      else
        ok ← transmit client message;
        if ok : bool then send_each message skip cs' disconnected
        else send_each message skip cs' (disconnected ++ [client])
  end.

(** [broadcast_message] run without another handler in between, with the
    cleanup routine it calls left open ([broadcast_with_live] below has
    the other handlers). *)
Definition broadcast_with (cleanup : conn → M unit) (message : Event)
    (exclude : option conn) (echo_to_sender : bool) : M unit := λ st,
  if decide (clients st = ∅) then Ok tt st
  else
    (disconnected ←
       send_each message
         (λ client, negb echo_to_sender && bool_decide (Some client = exclude))
         (elements (clients st)) [];
     for_each cleanup disconnected) st.

Definition msg_left (name : pystr) : pystr := name ++ lit " ha salido del chat".
Definition msg_joined (name : pystr) : pystr := name ++ lit " se ha unido al chat".

Definition forget (websocket : conn) (st : Server) : Server :=
  mkServer (clients st ∖ {[websocket]})
           (dict_pop websocket (client_names st))
           (delete websocket (rate_bucket st))
           (sent st).

(** [unregister_client]; it and [broadcast_message] call each other, and
    [fuel] bounds the depth of that recursion. *)
Fixpoint unregister_client_fuel (fuel : nat) (now : Z) (websocket : conn)
    : M unit := λ st,
  match fuel with
  | O => OutOfFuel
  | S fuel' =>
      if decide (websocket ∈ clients st) then
        let name :=
          default (lit "Usuario desconocido")
                  (dict_get websocket (client_names st)) in
        broadcast_with (unregister_client_fuel fuel' now)
          (UserLeft name now (msg_left name)) None true
          (forget websocket st)
      else Ok tt st
  end.

(** One more than the number of registered clients is always enough
    ([unregister_total]). *)
Definition fuel_for (st : Server) : nat := S (size (clients st)).

Definition unregister_client (now : Z) (websocket : conn) : M unit := λ st,
  unregister_client_fuel (fuel_for st) now websocket st.

Definition broadcast_message (now : Z) (message : Event)
    (exclude : option conn) (echo_to_sender : bool) : M unit := λ st,
  broadcast_with (unregister_client_fuel (fuel_for st) now)
    message exclude echo_to_sender st.

Definition set_bucket (ws : conn) (b : Bucket) (st : Server) : Server :=
  mkServer (clients st) (client_names st) (<[ws := b]> (rate_bucket st))
           (sent st).

(** [rate_limit_ok(ws)], at time [now]. *)
Definition rate_limit_ok (now : Z) (ws : conn) : M bool := λ st,
  match rate_bucket st !! ws with
  | None => Ok true (set_bucket ws (mkBucket 1 now) st)
  | Some bucket =>
      if (now - window_start bucket >? RATE_WINDOW)%Z then
        Ok true (set_bucket ws (mkBucket 1 now) st)
      else if (count bucket >=? RATE_MAX_MSGS)%Z then Ok false st
      else Ok true (set_bucket ws (mkBucket (count bucket + 1) (window_start bucket)) st)
  end.

Definition enroll (now : Z) (websocket : conn) (name : pystr)
    (st : Server) : Server :=
  mkServer ({[websocket]} ∪ clients st)
           (dict_set websocket name (client_names st))
           (<[websocket := mkBucket 0 now]> (rate_bucket st))
           (sent st).

(** [register_client(websocket, name)] *)
Definition register_client (now : Z) (websocket : conn) (name : pystr)
    : M unit :=
  _ ← modify (enroll now websocket name);
  _ ← send websocket EncryptionKey;
  broadcast_message now (UserJoined name now (msg_joined name)) None false.

(** [sanitize_username(data.get("username"))] for whatever JSON value the
    client put there: a falsy one gives the default, a string is
    sanitized, anything else has no [strip]. *)
Definition call_sanitize_username (v : json) : M pystr :=
  if negb (truthy v) then mret (sanitize_username isalnum_wide None)
  else match v with
       | JStr name => mret (sanitize_username isalnum_wide (Some name))
       | _ => raise AttributeError
       end.

Inductive Flow : Type := Continue | Closed.

(** Part 1 and 2 of [handle_client]: the code up to the message loop. *)
Definition registration (now : Z) (websocket : conn) (first : Frame)
    : M Flow :=
  match first with
  | Dropped => raise ConnectionClosed
  | BadJson =>
      _ ← send websocket (Error msg_bad_registration);
      mret Closed
  | Unloadable => raise LoadsError
  | Json data =>
      ty ← py_get data (lit "type");
      if negb (is_str ty (lit "register")) then
        _ ← send websocket (Error msg_register_first);
        mret Closed
      else
        raw ← py_get data (lit "username");
        username ← call_sanitize_username raw;
        _ ← register_client now websocket username;
        users ← gets (λ st, dict_values (client_names st));
        _ ← send websocket (UserList users);
        mret Continue
  end.

(** One turn of the message loop. *)
Definition on_message (now : Z) (nonce : N) (websocket : conn)
    (message : Frame) : M Flow :=
  match message with
  | Dropped => mret Closed
  | _ =>
    ok ← rate_limit_ok now websocket;
    if negb ok then
      _ ← send websocket (Error msg_rate_limit);
      mret Continue
    else
      match message with
      | Dropped => mret Closed
      | BadJson =>
          _ ← send websocket (Error msg_bad_json);
          mret Continue
      | Unloadable => raise LoadsError
      | Json data =>
          mtype ← py_get data (lit "type");
          if is_str mtype (lit "chat_message") then
            enc ← py_get data (lit "content");
            match enc with
            | JStr enc =>
                if ((len enc =? 0) || (len enc >? MAX_ENCRYPTED_LEN))%Z then
                  _ ← send websocket (Error msg_bad_content);
                  mret Continue
                else
                  match decrypt_message enc with
                  | None =>
                      _ ← send websocket (Error msg_bad_message);
                      mret Continue
                  | Some dec =>
                      if ((len dec =? 0) || (len dec >? MAX_PLAINTEXT_LEN))%Z then
                        _ ← send websocket (Error msg_bad_message);
                        mret Continue
                      else
                        let out := encrypt_message nonce dec in
                        username ← gets (λ st,
                          default (lit "?") (dict_get websocket (client_names st)));
                        _ ← broadcast_message now
                              (ChatMessage username out now)
                              (Some websocket) true;
                        mret Continue
                  end
            | _ =>
                _ ← send websocket (Error msg_bad_content);
                mret Continue
            end
          else
            _ ← send websocket (Error msg_unsupported);
            mret Continue
      end
  end.

(** The [try ... except ... finally] around the body of [handle_client]:
    unless the handler stays in its loop, [unregister_client] runs. *)
Definition guarded (now : Z) (websocket : conn) (body : M Flow) : M Flow :=
  λ st,
  match body st with
  | Ok Continue st' => Ok Continue st'
  | Ok Closed st' | Raise _ st' =>
      (_ ← unregister_client now websocket; mret Closed) st'
  | OutOfFuel => OutOfFuel
  end.

(** [handle_client] from the connection's start to its first wait in the
    message loop, and one turn of that loop. *)
Definition handle_first (now : Z) (websocket : conn) (first : Frame) : M Flow :=
  guarded now websocket (registration now websocket first).

Definition handle_message (now : Z) (nonce : N) (websocket : conn)
    (message : Frame) : M Flow :=
  guarded now websocket (on_message now nonce websocket message).

(** ** Reading the send log *)

(** The attempts the sending loop makes over [cs] when the log already
    holds [n] entries. *)
Fixpoint attempts (message : Event) (skip : conn → bool) (cs : list conn)
    (n : nat) : list Attempt :=
  match cs with
  | [] => []
  | client :: cs' =>
      if skip client then attempts message skip cs' n
      else mkAttempt client message (send_ok n client)
             :: attempts message skip cs' (S n)
  end.

(** The connections whose attempt failed, in order. *)
Definition failures (l : list Attempt) : list conn :=
  map target (List.filter (λ a, negb (delivered a)) l).

Definition emit (l : list Attempt) (st : Server) : Server :=
  mkServer (clients st) (client_names st) (rate_bucket st) (sent st ++ l).

Definition is_user_left (ev : Event) : bool :=
  match ev with UserLeft _ _ _ => true | _ => false end.

Definition is_user_joined (ev : Event) : bool :=
  match ev with UserJoined _ _ _ => true | _ => false end.

(** What refusing a message looks like from state [st]: the turn ends
    normally; it has tried one error event on the sender and, beyond the
    [user_left] notices of a cleanup, nothing else; and if the error event
    went through, the handler stays in its loop with no other change. *)
Definition rejection (ws : conn) (text : pystr) (st : Server)
    (r : Result Flow) : Prop :=
  ∃ flow st' later,
    r = Ok flow st' ∧
    sent st'
    = sent st ++ [mkAttempt ws (Error text) (send_ok (List.length (sent st)) ws)]
        ++ later ∧
    Forall (λ a, is_user_left (event a) = true) later ∧
    (send_ok (List.length (sent st)) ws = true →
       r = Ok Continue (log ws (Error text) true st)).

(** The two things cleanup does to the state, one at a time: drop a
    registered connection that [may_go], or send a registered connection a
    [user_left] notice. *)
Inductive cleanup_step (may_go : conn → Prop) : Server → Server → Prop :=
| step_forget st c :
    c ∈ clients st → may_go c →
    cleanup_step may_go st (forget c st)
| step_notice st c ev :
    c ∈ clients st → is_user_left ev = true →
    cleanup_step may_go st
      (log c ev (send_ok (List.length (sent st)) c) st).

(** The name map and the client set describe the same connections. *)
Definition consistent (st : Server) : Prop :=
  NoDup (dict_keys (client_names st)) ∧
  list_to_set (dict_keys (client_names st)) = clients st.

(** ** The process as a whole

    One handler per accepted connection; [looping] are the connections whose
    handler waits in its message loop. *)

Inductive Input : Type :=
| Arrives (ws : conn) (now : Z) (first : Frame)
| Speaks (ws : conn) (now : Z) (nonce : N) (message : Frame).

Record World : Type := mkWorld {
  server : Server;
  looping : gset conn;
  accepted : gset conn
}.

Definition genesis : World := mkWorld initial ∅ ∅.

Definition settle (ws : conn) (w : World) (r : Result Flow) : option World :=
  match r with
  | Ok Continue st => Some (mkWorld st ({[ws]} ∪ looping w) ({[ws]} ∪ accepted w))
  | Ok Closed st => Some (mkWorld st (looping w ∖ {[ws]}) ({[ws]} ∪ accepted w))
  | _ => None
  end.

(** An input is taken only where the transport can produce it: a first
    frame on a connection not seen before, a later frame on a connection
    whose handler is in its loop. *)
Definition deliver (i : Input) (w : World) : option World :=
  match i with
  | Arrives ws now first =>
      if decide (ws ∈ accepted w) then None
      else settle ws w (handle_first now ws first (server w))
  | Speaks ws now nonce message =>
      if decide (ws ∈ looping w) then
        settle ws w (handle_message now nonce ws message (server w))
      else None
  end.

Fixpoint run (inputs : list Input) (w : World) : option World :=
  match inputs with
  | [] => Some w
  | i :: inputs' =>
      match deliver i w with
      | Some w' => run inputs' w'
      | None => None
      end
  end.

(** The limiter asked once per message, at the given times. *)
Fixpoint verdicts (ws : conn) (times : list Z) (st : Server)
    : list bool * Server :=
  match times with
  | [] => ([], st)
  | now :: times' =>
      match rate_limit_ok now ws st with
      | Ok ok st' =>
          let '(oks, st'') := verdicts ws times' st' in (ok :: oks, st'')
      | _ => ([], st)
      end
  end.

(** ** Definitions that follow the specification's wording *)

(** Name sanitization as the specification words it: trim, keep the allowed
    characters, cut to 32, and put the default where nothing is left. *)
Definition sanitize_spec (name : pystr) : pystr :=
  let kept := take 32 (List.filter (allowed isalnum_wide) (strip name)) in
  match kept with
  | [] => Anonimo
  | _ => kept
  end.

(** The order of events on registration as the specification words it: the
    key, then the user list, then [user_joined] to the others only. *)
Definition specified_order (ws : conn) (l : list Attempt) : Prop :=
  ∃ users joined,
    l = mkAttempt ws EncryptionKey true
        :: mkAttempt ws (UserList users) true :: joined ∧
    Forall (λ a, is_user_joined (event a) = true ∧ target a ≠ ws) joined.

(** ** Invariants of the whole process *)

(** What a sanitized name looks like. *)
Definition well_formed (name : pystr) : Prop :=
  List.length name ≤ 32 ∧ Forall (λ ch, allowed isalnum_wide ch = true) name.

(** The names an event carries are sanitized names; a relayed chat message
    may carry the placeholder for a sender without a name instead. *)
Definition event_ok (ev : Event) : Prop :=
  match ev with
  | UserJoined username _ _ | UserLeft username _ _ => well_formed username
  | ChatMessage username _ _ => well_formed username ∨ username = lit "?"
  | UserList users => Forall well_formed users
  | EncryptionKey | Error _ => True
  end.

(** The registry is coherent, holds sanitized names only, belongs to
    connections of [live], and the log carries sanitized names only. *)
Definition sound (live : gset conn) (st : Server) : Prop :=
  consistent st ∧
  Forall well_formed (dict_values (client_names st)) ∧
  Forall (λ a, event_ok (event a)) (sent st) ∧
  clients st ⊆ live.

(** Hoare triples over the handler monad: from [P], the computation ends,
    with [Q] if it returns and with [E] if it raises. *)
Definition hoare {A} (P : Server → Prop) (m : M A)
    (Q : A → Server → Prop) (E : Server → Prop) : Prop :=
  ∀ st, P st →
    match m st with
    | Ok a st' => Q a st'
    | Raise _ st' => E st'
    | OutOfFuel => False
    end.

(** A state of the process in which the registry is sound and every
    registered connection has its handler waiting in the loop. *)
Definition world_ok (w : World) : Prop :=
  sound (looping w) (server w) ∧ looping w ⊆ accepted w.

(** How many of the calls at [times], with the limiter's answers [oks],
    were admitted at a time between [lo] and [hi]. *)
Fixpoint admitted_between (lo hi : Z) (times : list Z) (oks : list bool)
    : nat :=
  match times, oks with
  | now :: times', ok :: oks' =>
      (if ok && (lo <=? now)%Z && (now <=? hi)%Z then 1 else 0)
      + admitted_between lo hi times' oks'
  | _, _ => 0
  end.
(** ** What one handler step does

    The events by who gets them: an error goes to the handler's own
    connection, the key and the user list to a connection that registers,
    and the rest is broadcast. *)
Definition is_error (ev : Event) : bool :=
  match ev with Error _ => true | _ => false end.

Definition is_greeting (ev : Event) : bool :=
  match ev with EncryptionKey | UserList _ => true | _ => false end.

Definition is_broadcast (ev : Event) : bool :=
  match ev with
  | UserJoined _ _ _ | UserLeft _ _ _ | ChatMessage _ _ _ => true
  | _ => false
  end.

(** A first frame that gets its connection registered: a JSON object whose
    ["type"] is ["register"]. *)
Definition is_registration (first : Frame) : bool :=
  match first with
  | Json (JObj members) =>
      is_str (default JNull (dict_get (lit "type") members)) (lit "register")
  | _ => false
  end.

(** The single things the handler of connection [ws] does to the state:
    ask the limiter about [ws] (in the message loop), enroll [ws] and greet
    it (while registering), send [ws] an error event, send a registered
    connection a broadcast event, and drop a registered connection. *)
Inductive handler_step (ws : conn) (registering : bool)
    : Server → Server → Prop :=
| hs_limit st now ok st' :
    registering = false →
    rate_limit_ok now ws st = Ok ok st' →
    handler_step ws registering st st'
| hs_enroll st now name :
    registering = true →
    handler_step ws registering st (enroll now ws name st)
| hs_greet st ev :
    registering = true → is_greeting ev = true →
    handler_step ws registering st
      (log ws ev (send_ok (List.length (sent st)) ws) st)
| hs_error st text :
    handler_step ws registering st
      (log ws (Error text) (send_ok (List.length (sent st)) ws) st)
| hs_cast st c ev :
    c ∈ clients st → is_broadcast ev = true →
    handler_step ws registering st
      (log c ev (send_ok (List.length (sent st)) c) st)
| hs_forget st c :
    c ∈ clients st →
    handler_step ws registering st (forget c st).

(** The states the handler of [ws] gets to from [st0]. *)
Definition reached (ws : conn) (registering : bool) (st0 st : Server) : Prop :=
  rtc (handler_step ws registering) st0 st.

(** What the limiter's buckets look like: every registered connection has
    one, and no count is below zero or above [RATE_MAX_MSGS]. *)
Definition metered (st : Server) : Prop :=
  (∀ c, c ∈ clients st → is_Some (rate_bucket st !! c)) ∧
  (∀ c b, rate_bucket st !! c = Some b → 0 ≤ count b ≤ RATE_MAX_MSGS)%Z.

(** The connections whose first frame was a registration. *)
Definition registrant (i : Input) : option conn :=
  match i with
  | Arrives ws _ first => if is_registration first then Some ws else None
  | Speaks _ _ _ _ => None
  end.

Definition registrants (inputs : list Input) : gset conn :=
  list_to_set (omap registrant inputs).

(** Connection and kind of the handler step an input sets off. *)
Definition stepper (i : Input) : conn * bool :=
  match i with
  | Arrives ws _ first => (ws, is_registration first)
  | Speaks ws _ _ _ => (ws, false)
  end.

(** Registered connections are among [known], and so is the target of
    everything sent that is no error event. *)
Definition discreet (known : gset conn) (st : Server) : Prop :=
  clients st ⊆ known ∧
  Forall (λ a, is_error (event a) = true ∨ target a ∈ known) (sent st).

(** ** The handlers among each other

    The definitions above run a handler from one reception to its next
    wait with no other handler in between.  In the process the handlers
    are tasks of one event loop, and at every [await client.send(...)]
    the others may run.  The definitions below are the same code with
    what the others do in the meantime; they agree with the ones above
    when the others do nothing ([handle_first_live_quiet],
    [handle_message_live_quiet]). *)

Section Live.

(** What the other handlers do to the state while the send logged at
    position [n] is awaited. *)
Variable meanwhile : nat → Server → Server.

(** What a set iterator has left to yield once the set was changed without
    a change of its size (a connection added and another removed during one
    await): that is up to the hash table, which the model leaves open.  The
    number is the length of the send log at that moment. *)
Variable resumed : nat → gset conn → list conn → list conn.

(** [await c.send(json.dumps(ev))], with the outcome reported and the other
    handlers running before the call comes back. *)
Definition transmit_live (c : conn) (ev : Event) : M bool := λ st,
  let n := List.length (sent st) in
  let ok := send_ok n c in
  Ok ok (meanwhile n (log c ev ok st)).

Definition send_live (c : conn) (ev : Event) : M unit :=
  ok ← transmit_live c ev;
  if ok : bool then mret tt else raise ConnectionClosed.

(** The loop [for client in clients] of [broadcast_message], over the set
    itself.  [used] is the size the set had when the iterator was made,
    [seen] the set as the iterator last found it and [todo] what it had
    left to yield then.  Asked for the next client, the iterator raises
    [RuntimeError] ("Set changed size during iteration") when the size of
    the set is no longer [used]; that happens outside the loop's [try], so
    the exception leaves [broadcast_message].  [steps] bounds the number of
    turns: one more than the size of the set is enough unless [resumed]
    comes in. *)
Fixpoint send_each_live (steps : nat) (message : Event) (skip : conn → bool)
    (used : nat) (seen : gset conn) (todo : list conn)
    (disconnected : list conn) : M (list conn) := λ st,
  match steps with
  | O => OutOfFuel
  | S steps' =>
      if decide (size (clients st) = used) then
        let todo :=
          if decide (clients st = seen) then todo
          else resumed (List.length (sent st)) (clients st) todo in
        match todo with
        | [] => Ok disconnected st
        | client :: todo' =>
            let next :=
              send_each_live steps' message skip used (clients st) todo' in
            if skip client then next disconnected st
            else
              (ok ← transmit_live client message;
               if ok : bool then next disconnected
               else next (disconnected ++ [client])) st
        end
      else Raise RuntimeError st
  end.

(** [broadcast_message], with the cleanup routine it calls left open. *)
Definition broadcast_with_live (cleanup : conn → M unit) (message : Event)
    (exclude : option conn) (echo_to_sender : bool) : M unit := λ st,
  if decide (clients st = ∅) then Ok tt st
  else
    (disconnected ←
       send_each_live (S (size (clients st))) message
         (λ client, negb echo_to_sender && bool_decide (Some client = exclude))
         (size (clients st)) (clients st) (elements (clients st)) [];
     for_each cleanup disconnected) st.

Fixpoint unregister_client_live_fuel (fuel : nat) (now : Z) (websocket : conn)
    : M unit := λ st,
  match fuel with
  | O => OutOfFuel
  | S fuel' =>
      if decide (websocket ∈ clients st) then
        let name :=
          default (lit "Usuario desconocido")
                  (dict_get websocket (client_names st)) in
        broadcast_with_live (unregister_client_live_fuel fuel' now)
          (UserLeft name now (msg_left name)) None true
          (forget websocket st)
      else Ok tt st
  end.

Definition unregister_client_live (now : Z) (websocket : conn) : M unit :=
  λ st, unregister_client_live_fuel (fuel_for st) now websocket st.

Definition broadcast_message_live (now : Z) (message : Event)
    (exclude : option conn) (echo_to_sender : bool) : M unit := λ st,
  broadcast_with_live (unregister_client_live_fuel (fuel_for st) now)
    message exclude echo_to_sender st.

Definition register_client_live (now : Z) (websocket : conn) (name : pystr)
    : M unit :=
  _ ← modify (enroll now websocket name);
  _ ← send_live websocket EncryptionKey;
  broadcast_message_live now (UserJoined name now (msg_joined name)) None false.

Definition registration_live (now : Z) (websocket : conn) (first : Frame)
    : M Flow :=
  match first with
  | Dropped => raise ConnectionClosed
  | BadJson =>
      _ ← send_live websocket (Error msg_bad_registration);
      mret Closed
  | Unloadable => raise LoadsError
  | Json data =>
      ty ← py_get data (lit "type");
      if negb (is_str ty (lit "register")) then
        _ ← send_live websocket (Error msg_register_first);
        mret Closed
      else
        raw ← py_get data (lit "username");
        username ← call_sanitize_username raw;
        _ ← register_client_live now websocket username;
        users ← gets (λ st, dict_values (client_names st));
        _ ← send_live websocket (UserList users);
        mret Continue
  end.

Definition on_message_live (now : Z) (nonce : N) (websocket : conn)
    (message : Frame) : M Flow :=
  match message with
  | Dropped => mret Closed
  | _ =>
    ok ← rate_limit_ok now websocket;
    if negb ok then
      _ ← send_live websocket (Error msg_rate_limit);
      mret Continue
    else
      match message with
      | Dropped => mret Closed
      | BadJson =>
          _ ← send_live websocket (Error msg_bad_json);
          mret Continue
      | Unloadable => raise LoadsError
      | Json data =>
          mtype ← py_get data (lit "type");
          if is_str mtype (lit "chat_message") then
            enc ← py_get data (lit "content");
            match enc with
            | JStr enc =>
                if ((len enc =? 0) || (len enc >? MAX_ENCRYPTED_LEN))%Z then
                  _ ← send_live websocket (Error msg_bad_content);
                  mret Continue
                else
                  match decrypt_message enc with
                  | None =>
                      _ ← send_live websocket (Error msg_bad_message);
                      mret Continue
                  | Some dec =>
                      if ((len dec =? 0) || (len dec >? MAX_PLAINTEXT_LEN))%Z then
                        _ ← send_live websocket (Error msg_bad_message);
                        mret Continue
                      else
                        let out := encrypt_message nonce dec in
                        username ← gets (λ st,
                          default (lit "?") (dict_get websocket (client_names st)));
                        _ ← broadcast_message_live now
                              (ChatMessage username out now)
                              (Some websocket) true;
                        mret Continue
                  end
            | _ =>
                _ ← send_live websocket (Error msg_bad_content);
                mret Continue
            end
          else
            _ ← send_live websocket (Error msg_unsupported);
            mret Continue
      end
  end.

(** The [try ... except ... finally] of [handle_client]: what the body
    raises is caught, what [unregister_client] raises in the [finally]
    block leaves the handler. *)
Definition guarded_live (now : Z) (websocket : conn) (body : M Flow)
    : M Flow := λ st,
  match body st with
  | Ok Continue st' => Ok Continue st'
  | Ok Closed st' | Raise _ st' =>
      (_ ← unregister_client_live now websocket; mret Closed) st'
  | OutOfFuel => OutOfFuel
  end.

Definition handle_first_live (now : Z) (websocket : conn) (first : Frame)
    : M Flow :=
  guarded_live now websocket (registration_live now websocket first).

Definition handle_message_live (now : Z) (nonce : N) (websocket : conn)
    (message : Frame) : M Flow :=
  guarded_live now websocket (on_message_live now nonce websocket message).

End Live.

(** Nobody else runs. *)
Definition undisturbed : nat → Server → Server := λ _ st, st.

(** While the send logged at position [k] is awaited, the first frame of
    connection [ws] arrives and its handler gets as far as the first
    [await] of [register_client]. *)
Definition arrives_during (k : nat) (now : Z) (ws : conn) (name : pystr)
    : nat → Server → Server :=
  λ n st, if decide (n = k) then enroll now ws name st else st.

(** While the send logged at position [k] is awaited, the handler of
    connection [ws] finds its connection closed and gets as far as the
    first [await] of [unregister_client]. *)
Definition leaves_during (k : nat) (ws : conn) : nat → Server → Server :=
  λ n st, if decide (n = k) then forget ws st else st.

(** An iterator that goes on with what it had left, as far as that is
    still in the set. *)
Definition rest_in_set : nat → gset conn → list conn → list conn :=
  λ _ cs todo, List.filter (λ c, bool_decide (c ∈ cs)) todo.

(** The others do nothing while this handler awaits. *)
Definition quiet (meanwhile : nat → Server → Server) : Prop :=
  ∀ n st, meanwhile n st = st.

(** The body of a handler is over, by a [return], by the end of the
    message loop or by an exception, and has left the state [st1]. *)
Definition ends (body : M Flow) (st st1 : Server) : Prop :=
  body st = Ok Closed st1 ∨ ∃ e, body st = Raise e st1.

(** What the end of the handler of [ws] looks like from the state [st1]
    its body left, [ws] being registered there: the handler is over; the
    [user_left] notice was tried once on each connection of the client set
    without [ws], in the set's order, before anything else; the outcome of
    an attempt is the transport's, so a connection whose sends go through
    has the notice; nothing went to [ws]; and [ws] is out of the set. *)
Definition departure (now : Z) (ws : conn) (st1 : Server)
    (r : Result Flow) : Prop :=
  let name :=
    default (lit "Usuario desconocido") (dict_get ws (client_names st1)) in
  let notice := UserLeft name now (msg_left name) in
  let remaining := clients st1 ∖ {[ws]} in
  let tried :=
    attempts notice (λ _, false) (elements remaining) (List.length (sent st1)) in
  ∃ st' later,
    r = Ok Closed st' ∧
    sent st' = sent st1 ++ tried ++ later ∧
    map target tried = elements remaining ∧
    Forall (λ a, event a = notice) tried ∧
    (∀ i a, tried !! i = Some a →
       delivered a = send_ok (List.length (sent st1) + i) (target a)) ∧
    (∀ c, c ∈ remaining → (∀ n, send_ok n c = true) →
       mkAttempt c notice true ∈ tried) ∧
    (∀ a, a ∈ tried ++ later → target a ≠ ws) ∧
    (∀ c, (∃ a, a ∈ tried ++ later ∧ target a = c ∧ event a = notice)
          ↔ c ∈ remaining) ∧
    ws ∉ clients st'.

(** One thing that happens to the state while the handler of [ws] is at
    work: a step of that handler, or what the others do during an await. *)
Inductive live_step (meanwhile : nat → Server → Server) (ws : conn)
    (registering : bool) : Server → Server → Prop :=
| ls_own st st' :
    handler_step ws registering st st' →
    live_step meanwhile ws registering st st'
| ls_others st n :
    live_step meanwhile ws registering st (meanwhile n st).

Definition reached_live (meanwhile : nat → Server → Server) (ws : conn)
    (registering : bool) (st0 st : Server) : Prop :=
  rtc (live_step meanwhile ws registering) st0 st.

(** Triples for computations that may run out of fuel: from [P], [Q] holds
    if the computation returns and [E] if it raises. *)
Definition hoare_partial {A} (P : Server → Prop) (m : M A)
    (Q : A → Server → Prop) (E : Server → Prop) : Prop :=
  ∀ st, P st →
    match m st with
    | Ok a st' => Q a st'
    | Raise _ st' => E st'
    | OutOfFuel => True
    end.

(** * Properties *)

Set Default Proof Using "Type".

(** Put the section's parameters out of the way where the goal does not
    speak of them, so that no decision procedure picks them up. *)
Ltac set_aside :=
  try clear isalnum_wide; try clear encrypt; try clear decrypt;
  try clear send_ok.

(** ** The send log *)

Lemma bind_ok {A B} (m : M A) (f : A → M B) st a st' :
  m st = Ok a st' → (m ≫= f) st = f a st'.
Proof. intros H. unfold mbind, M_bind. by rewrite H. Qed.

Lemma emit_nil st : emit [] st = st.
Proof. destruct st; unfold emit; simpl. by rewrite app_nil_r. Qed.

Lemma emit_emit l1 l2 st : emit l2 (emit l1 st) = emit (l1 ++ l2) st.
Proof. unfold emit; simpl. by rewrite app_assoc. Qed.

Lemma log_emit c ev ok st : log c ev ok st = emit [mkAttempt c ev ok] st.
Proof. reflexivity. Qed.

Lemma send_each_spec message skip cs disconnected st :
  send_each message skip cs disconnected st =
  Ok (disconnected ++ failures (attempts message skip cs (List.length (sent st))))
     (emit (attempts message skip cs (List.length (sent st))) st).
Proof.
  revert disconnected st.
  induction cs as [|c cs IH]; intros disconnected st; simpl.
  - unfold failures; simpl. by rewrite app_nil_r, emit_nil.
  - destruct (skip c); [apply IH|].
    unfold mbind, M_bind, transmit.
    assert (Hlen : List.length (sent (log c message (send_ok (List.length (sent st)) c) st))
                   = S (List.length (sent st))).
    { simpl. rewrite length_app. simpl. lia. }
    destruct (send_ok (List.length (sent st)) c) eqn:Hok;
      rewrite IH, Hlen, log_emit, emit_emit; unfold failures; simpl; rewrite ?Hok; simpl.
    + reflexivity.
    + by rewrite <- app_assoc.
Qed.

Lemma attempts_targets message skip cs n :
  map target (attempts message skip cs n) = List.filter (λ c, negb (skip c)) cs.
Proof.
  revert n. induction cs as [|c cs IH]; intros n; simpl; [done|].
  destruct (skip c); simpl; by rewrite IH.
Qed.

Lemma attempts_events message skip cs n :
  Forall (λ a, event a = message) (attempts message skip cs n).
Proof.
  revert n. induction cs as [|c cs IH]; intros n; simpl; [constructor|].
  destruct (skip c); [apply IH|]. constructor; [done|apply IH].
Qed.

Lemma attempts_outcome message skip cs n i a :
  attempts message skip cs n !! i = Some a →
  delivered a = send_ok (n + i) (target a).
Proof.
  revert n i. induction cs as [|c cs IH]; intros n i; simpl; [done|].
  destruct (skip c); [apply IH|].
  destruct i as [|i]; simpl.
  - intros [= <-]. simpl. by rewrite Nat.add_0_r.
  - intros H. apply IH in H. by rewrite <- Nat.add_succ_comm.
Qed.

Lemma failures_failed l c :
  c ∈ failures l → ∃ a, a ∈ l ∧ target a = c ∧ delivered a = false.
Proof.
  unfold failures. intros H. apply list_elem_of_fmap in H as (a & -> & Ha).
  apply list_elem_of_In, filter_In in Ha as [Ha Hd].
  exists a. split; [by apply list_elem_of_In|]. split; [done|].
  by destruct (delivered a).
Qed.

(** ** Cleanup, one step at a time *)

Lemma for_each_rtc {A} (R : relation Server) (body : A → M unit) l :
  (∀ x st st', x ∈ l → body x st = Ok tt st' → rtc R st st') →
  ∀ st st', for_each body l st = Ok tt st' → rtc R st st'.
Proof.
  induction l as [|x l IH]; intros Hbody st st'; simpl.
  - intros [= <-]. apply rtc_refl.
  - unfold mbind, M_bind. destruct (body x st) as [[] st1| |] eqn:Hx; try done.
    intros Hrest. eapply rtc_trans.
    + eapply Hbody; [apply list_elem_of_here|done].
    + apply IH; [|done]. intros y s s' Hy. apply Hbody. by apply list_elem_of_further.
Qed.

Lemma attempts_steps may_go message skip cs st :
  is_user_left message = true →
  (∀ c, c ∈ cs → c ∈ clients st) →
  rtc (cleanup_step may_go) st
      (emit (attempts message skip cs (List.length (sent st))) st).
Proof.
  intros Hleft. revert st.
  induction cs as [|c cs IH]; intros st Hin; simpl.
  - rewrite emit_nil. apply rtc_refl.
  - destruct (skip c).
    + apply IH. intros c' Hc'. apply Hin. by apply list_elem_of_further.
    + eapply rtc_l.
      * apply (step_notice may_go st c message); [|done].
        apply Hin, list_elem_of_here.
      * rewrite log_emit.
        specialize (IH (emit [mkAttempt c message (send_ok (List.length (sent st)) c)] st)).
        rewrite emit_emit in IH.
        replace (List.length (sent (emit [mkAttempt c message (send_ok (List.length (sent st)) c)] st)))
          with (S (List.length (sent st))) in IH
          by (simpl; rewrite length_app; simpl; lia).
        apply IH. intros c' Hc'. simpl. apply Hin. by apply list_elem_of_further.
Qed.

Lemma broadcast_with_unfold cleanup message exclude echo st :
  broadcast_with cleanup message exclude echo st =
  let skip := λ client, negb echo && bool_decide (Some client = exclude) in
  let tried := attempts message skip (elements (clients st)) (List.length (sent st)) in
  for_each cleanup (failures tried) (emit tried st).
Proof.
  unfold broadcast_with. case_decide as Hempty.
  - rewrite Hempty, elements_empty. simpl. by rewrite emit_nil.
  - unfold mbind, M_bind. by rewrite send_each_spec.
Qed.

Lemma unregister_steps (may_go : conn → Prop) fuel now :
  (∀ c n, send_ok n c = false → may_go c) →
  ∀ ws st st', may_go ws →
    unregister_client_fuel fuel now ws st = Ok tt st' →
    rtc (cleanup_step may_go) st st'.
Proof.
  intros Hfail. induction fuel as [|fuel IH]; intros ws st st' Hws; simpl; [done|].
  case_decide as Hin; [|intros [= <-]; apply rtc_refl].
  rewrite broadcast_with_unfold. simpl. intros Hrun.
  eapply rtc_l; [by apply step_forget|].
  match type of Hrun with
  | for_each _ _ (emit (attempts ?m ?sk ?cs _) ?s) = _ =>
      pose proof (attempts_steps may_go m sk cs s eq_refl) as Hsend
  end.
  eapply rtc_trans.
  - apply Hsend. intros c Hc. by apply elem_of_elements in Hc.
  - eapply for_each_rtc; [|exact Hrun].
    intros c s s' Hc. apply IH.
    apply failures_failed in Hc as (a & Ha & <- & Hd).
    apply list_elem_of_lookup in Ha as [i Hi].
    apply attempts_outcome in Hi. rewrite Hd in Hi. eauto.
Qed.

Lemma steps_clients may_go st st' :
  rtc (cleanup_step may_go) st st' → clients st' ⊆ clients st.
Proof.
  induction 1 as [|st st1 st' Hstep Hrest IH]; [done|].
  etrans; [exact IH|]. destruct Hstep; simpl; set_solver.
Qed.

Lemma steps_kept may_go st st' c :
  rtc (cleanup_step may_go) st st' → c ∈ clients st → ¬ may_go c → c ∈ clients st'.
Proof.
  induction 1 as [|st st1 st' Hstep Hrest IH]; [done|].
  intros Hc Hno. apply IH; [|done]. destruct Hstep; simpl; [|done].
  apply elem_of_difference. split; [done|]. intros ->%elem_of_singleton. done.
Qed.

Lemma steps_sent may_go st st' :
  rtc (cleanup_step may_go) st st' →
  ∃ extra, sent st' = sent st ++ extra ∧
    Forall (λ a, target a ∈ clients st ∧ is_user_left (event a) = true) extra.
Proof.
  induction 1 as [st|st st1 st' Hstep Hrest IH].
  - exists []. by rewrite app_nil_r.
  - destruct IH as (extra & Hsent & Hall).
    assert (Hsub : clients st1 ⊆ clients st).
    { apply (steps_clients may_go). by apply rtc_once. }
    assert (Hall' : Forall (λ a, target a ∈ clients st ∧ is_user_left (event a) = true) extra).
    { eapply Forall_impl; [exact Hall|]. intros a [??]. split; [set_solver|done]. }
    destruct Hstep as [st c|st c ev Hc Hev]; simpl in *.
    + by exists extra.
    + exists (mkAttempt c ev (send_ok (List.length (sent st)) c) :: extra).
      split; [by rewrite Hsent, <- app_assoc|]. by constructor.
Qed.

Lemma unregister_gone fuel now ws st st' :
  unregister_client_fuel fuel now ws st = Ok tt st' → ws ∉ clients st'.
Proof.
  destruct fuel as [|fuel]; simpl; [done|].
  case_decide as Hin; [|by intros [= <-]].
  intros Hrun.
  assert (Hsteps : rtc (cleanup_step (λ _, True)) (forget ws st) st').
  { rewrite broadcast_with_unfold in Hrun. simpl in Hrun.
    match type of Hrun with
    | for_each _ _ (emit (attempts ?m ?sk ?cs _) ?s) = _ =>
        pose proof (attempts_steps (λ _, True) m sk cs s eq_refl) as Hsend
    end.
    eapply rtc_trans.
    - apply Hsend. intros c Hc. by apply elem_of_elements in Hc.
    - eapply for_each_rtc; [|exact Hrun].
      intros c s s' _. by apply unregister_steps. }
  apply steps_clients in Hsteps. simpl in Hsteps. set_solver.
Qed.

Lemma for_each_unregister_total fuel now l :
  (∀ ws st, size (clients st) < fuel →
     ∃ st', unregister_client_fuel fuel now ws st = Ok tt st') →
  ∀ st, size (clients st) < fuel →
    ∃ st', for_each (unregister_client_fuel fuel now) l st = Ok tt st'.
Proof.
  intros Htotal. induction l as [|c l IH]; intros st Hsize; simpl.
  - by exists st.
  - unfold mbind, M_bind.
    destruct (Htotal c st Hsize) as [st1 Hc]. rewrite Hc.
    apply IH. eapply Nat.le_lt_trans; [|exact Hsize].
    apply subseteq_size, (steps_clients (λ _, True)).
    by eapply unregister_steps.
Qed.

(** The cleanup recursion ends: [unregister_client] needs one unit of fuel
    per registered client, and one more. *)
Lemma unregister_total fuel now ws st :
  size (clients st) < fuel →
  ∃ st', unregister_client_fuel fuel now ws st = Ok tt st'.
Proof.
  revert ws st. induction fuel as [|fuel IH]; intros ws st Hsize; [lia|].
  simpl. case_decide as Hin; [|by exists st].
  rewrite broadcast_with_unfold. simpl.
  apply for_each_unregister_total; [exact IH|]. simpl.
  rewrite size_difference by set_solver. rewrite size_singleton.
  assert (size (clients st) ≠ 0); [|lia].
  intros Hz. apply size_empty_inv in Hz. set_solver.
Qed.

Lemma for_each_unregister_gone fuel now l st st' :
  for_each (unregister_client_fuel fuel now) l st = Ok tt st' →
  ∀ c, c ∈ l → c ∉ clients st'.
Proof.
  revert st. induction l as [|x l IH]; intros st; simpl.
  - intros _ c Hc. by apply not_elem_of_nil in Hc.
  - unfold mbind, M_bind.
    destruct (unregister_client_fuel fuel now x st) as [[] st1| |] eqn:Hx; try done.
    intros Hrest c Hc. apply elem_of_cons in Hc as [->|Hc]; [|by eapply IH].
    apply unregister_gone in Hx.
    assert (clients st' ⊆ clients st1); [|set_solver].
    apply (steps_clients (λ _, True)).
    eapply for_each_rtc; [|exact Hrest].
    intros y s s' _. by apply unregister_steps.
Qed.

(** What one broadcast does, whatever the message: it tries every client it
    does not skip, in the set's order, and only then unregisters the ones
    that failed. *)
Lemma broadcast_message_spec now message exclude echo st :
  let skip := λ client, negb echo && bool_decide (Some client = exclude) in
  let tried := attempts message skip (elements (clients st)) (List.length (sent st)) in
  ∃ st',
    broadcast_message now message exclude echo st = Ok tt st' ∧
    for_each (unregister_client_fuel (fuel_for st) now) (failures tried) (emit tried st)
      = Ok tt st'.
Proof.
  intros skip tried. unfold broadcast_message.
  rewrite broadcast_with_unfold. fold skip tried.
  destruct (for_each_unregister_total (fuel_for st) now (failures tried)
              (λ ws s, unregister_total (fuel_for st) now ws s) (emit tried st))
    as [st' Hst']; [unfold fuel_for; simpl; lia|].
  by exists st'.
Qed.

Lemma broadcast_message_all_delivered now message exclude echo st :
  let skip := λ client, negb echo && bool_decide (Some client = exclude) in
  let tried := attempts message skip (elements (clients st)) (List.length (sent st)) in
  failures tried = [] →
  broadcast_message now message exclude echo st = Ok tt (emit tried st).
Proof.
  intros skip tried Hnone. unfold broadcast_message.
  rewrite broadcast_with_unfold. subst skip tried. cbv zeta in *. by rewrite Hnone.
Qed.

Lemma unregister_client_absent now ws st :
  ws ∉ clients st → unregister_client now ws st = Ok tt st.
Proof. intros Hout. unfold unregister_client, fuel_for. simpl. by case_decide. Qed.

Lemma for_each_unregister_steps (may_go : conn → Prop) fuel now l st st' :
  (∀ c n, send_ok n c = false → may_go c) →
  (∀ c, c ∈ l → may_go c) →
  for_each (unregister_client_fuel fuel now) l st = Ok tt st' →
  rtc (cleanup_step may_go) st st'.
Proof.
  intros Hfail Hl. apply for_each_rtc.
  intros c s s' Hc. apply unregister_steps; auto.
Qed.

Lemma failures_may_go message skip cs n c :
  c ∈ failures (attempts message skip cs n) → ∃ k, send_ok k c = false.
Proof.
  intros (a & Ha & <- & Hd)%failures_failed.
  apply list_elem_of_lookup in Ha as [i Hi].
  apply attempts_outcome in Hi. rewrite Hd in Hi. eauto.
Qed.

Lemma filter_all {A} (l : list A) : List.filter (λ _, negb false) l = l.
Proof. induction l as [|x l IH]; simpl; [done|]. f_equal. exact IH. Qed.

(** One broadcast with no other handler running in between.  It tries
    every client it does not skip, once and in the set's order, whatever
    happens to the others: an attempt's outcome is the transport's alone,
    and the log holds all attempts before any cleanup traffic.  The clients
    whose attempt failed are collected and, after the loop, each goes
    through [unregister_client], starting from the registry the loop
    iterated over; none of them is registered afterwards, and a client
    whose sends never fail stays registered and, unless skipped, has the
    message delivered. *)
Lemma broadcast_message_outcome now message exclude echo st :
  let skip := λ client, negb echo && bool_decide (Some client = exclude) in
  let tried := attempts message skip (elements (clients st)) (List.length (sent st)) in
  ∃ st' cleanup_log,
    broadcast_message now message exclude echo st = Ok tt st' ∧
    map target tried = List.filter (λ c, negb (skip c)) (elements (clients st)) ∧
    Forall (λ a, event a = message) tried ∧
    (∀ i a, tried !! i = Some a →
       delivered a = send_ok (List.length (sent st) + i) (target a)) ∧
    sent st' = sent st ++ tried ++ cleanup_log ∧
    Forall (λ a, is_user_left (event a) = true) cleanup_log ∧
    for_each (unregister_client_fuel (fuel_for st) now) (failures tried) (emit tried st)
      = Ok tt st' ∧
    (∀ c, c ∈ failures tried → c ∉ clients st') ∧
    (∀ c, c ∈ clients st → (∀ n, send_ok n c = true) →
       c ∈ clients st' ∧ (skip c = false → mkAttempt c message true ∈ tried)).
Proof.
  intros skip tried.
  destruct (broadcast_message_spec now message exclude echo st) as (st' & Hrun & Hclean).
  fold skip tried in Hclean.
  assert (Hsteps : rtc (cleanup_step (λ c, ∃ n, send_ok n c = false)) (emit tried st) st').
  { eapply for_each_unregister_steps; [eauto| |exact Hclean].
    intros c Hc. by eapply failures_may_go. }
  destruct (steps_sent _ _ _ Hsteps) as (cleanup_log & Hsent & Hlog).
  exists st', cleanup_log.
  split; [exact Hrun|]. split; [apply attempts_targets|].
  split; [apply attempts_events|]. split; [apply attempts_outcome|].
  split; [rewrite Hsent; simpl; by rewrite app_assoc|].
  split; [eapply Forall_impl; [exact Hlog|]; by intros a [_ ?]|].
  split; [exact Hclean|].
  split; [by eapply for_each_unregister_gone|].
  intros c Hc Hgood. split.
  - eapply steps_kept; [exact Hsteps|done|].
    intros [n Hn]. by rewrite Hgood in Hn.
  - intros Hskip.
    assert (Hin : c ∈ map target tried).
    { unfold tried. rewrite attempts_targets. apply list_elem_of_In, filter_In.
      split; [by apply list_elem_of_In, elem_of_elements|by rewrite Hskip]. }
    apply list_elem_of_fmap in Hin as (a & -> & Ha).
    pose proof (attempts_events message skip (elements (clients st))
                  (List.length (sent st))) as Hev.
    rewrite Forall_forall in Hev. specialize (Hev a Ha).
    pose proof Ha as Ha'. apply list_elem_of_lookup in Ha' as [i Hi].
    apply attempts_outcome in Hi. rewrite Hgood in Hi.
    destruct a as [c ev ok]. simpl in *. by subst.
Qed.

(** [unregister_client] for a registered connection, with no other handler
    running in between: the connection is taken out of the client set
    first and [user_left] is broadcast after; the notice is tried on
    exactly the connections that remain, one attempt each, and nothing the
    whole cleanup sends goes to the departing connection. *)
Lemma unregister_client_outcome now ws st :
  ws ∈ clients st →
  let name := default (lit "Usuario desconocido") (dict_get ws (client_names st)) in
  let notice := UserLeft name now (msg_left name) in
  let remaining := clients st ∖ {[ws]} in
  let tried := attempts notice (λ _, false) (elements remaining) (List.length (sent st)) in
  ∃ st' later,
    unregister_client now ws st = Ok tt st' ∧
    sent st' = sent st ++ tried ++ later ∧
    map target tried = elements remaining ∧
    Forall (λ a, event a = notice) tried ∧
    (∀ i a, tried !! i = Some a →
       delivered a = send_ok (List.length (sent st) + i) (target a)) ∧
    (∀ a, a ∈ tried ++ later → target a ≠ ws) ∧
    (∀ c, (∃ a, a ∈ tried ++ later ∧ target a = c ∧ event a = notice) ↔ c ∈ remaining) ∧
    ws ∉ clients st'.
Proof.
  intros Hin name notice remaining tried.
  destruct (unregister_total (fuel_for st) now ws st) as [st' Hrun];
    [unfold fuel_for; lia|].
  pose proof (unregister_gone _ _ _ _ _ Hrun) as Hgone.
  assert (Hclean : for_each (unregister_client_fuel (size (clients st)) now)
                     (failures tried) (emit tried (forget ws st)) = Ok tt st').
  { revert Hrun. unfold fuel_for. simpl. case_decide; [|done].
    by rewrite broadcast_with_unfold. }
  assert (Hsteps : rtc (cleanup_step (λ _, True)) (emit tried (forget ws st)) st').
  { eapply for_each_unregister_steps; [done|done|exact Hclean]. }
  destruct (steps_sent _ _ _ Hsteps) as (later & Hsent & Hlater).
  simpl in Hsent, Hlater. fold remaining in Hlater.
  assert (Htargets : map target tried = elements remaining).
  { unfold tried. rewrite attempts_targets. apply filter_all. }
  assert (Hwithin : ∀ a, a ∈ tried ++ later → target a ∈ remaining).
  { intros a [Ha|Ha]%elem_of_app.
    - apply elem_of_elements. rewrite <- Htargets.
      apply list_elem_of_fmap. eauto.
    - rewrite Forall_forall in Hlater. by apply Hlater. }
  exists st', later. repeat split.
  - exact Hrun.
  - rewrite Hsent. by rewrite app_assoc.
  - exact Htargets.
  - apply attempts_events.
  - apply attempts_outcome.
  - intros a Ha Heq. apply Hwithin in Ha. rewrite Heq in Ha.
    apply elem_of_difference in Ha as [_ Hne]. apply Hne. by apply elem_of_singleton.
  - intros (a & Ha & <- & _). by apply Hwithin.
  - intros Hc. apply elem_of_elements in Hc. rewrite <- Htargets in Hc.
    apply list_elem_of_fmap in Hc as (a & -> & Ha).
    exists a. split; [apply elem_of_app; by left|]. split; [done|].
    pose proof (attempts_events notice (λ _, false) (elements remaining)
                  (List.length (sent st))) as Hev.
    rewrite Forall_forall in Hev. by apply Hev.
  - exact Hgone.
Qed.

(** ** The rate limiter *)

Lemma rate_limit_inside now ws st b :
  rate_bucket st !! ws = Some b →
  (now - window_start b ≤ RATE_WINDOW)%Z →
  rate_limit_ok now ws st =
  if bool_decide (count b < RATE_MAX_MSGS)%Z
  then Ok true (set_bucket ws (mkBucket (count b + 1) (window_start b)) st)
  else Ok false st.
Proof.
  intros Hb Hin. unfold rate_limit_ok. rewrite Hb.
  destruct (Z.gtb_spec (now - window_start b) RATE_WINDOW); [lia|].
  destruct (Z.geb_spec (count b) RATE_MAX_MSGS); case_bool_decide; (done || lia).
Qed.

Lemma rate_limit_elapsed now ws st b :
  rate_bucket st !! ws = Some b →
  (now - window_start b > RATE_WINDOW)%Z →
  rate_limit_ok now ws st = Ok true (set_bucket ws (mkBucket 1 now) st).
Proof.
  intros Hb Hout. unfold rate_limit_ok. rewrite Hb.
  destruct (Z.gtb_spec (now - window_start b) RATE_WINDOW); [done|lia].
Qed.

(** Inside one window the limiter lets through what room the bucket has
    left and nothing after. *)
Lemma verdicts_inside ws times : ∀ st k w,
  rate_bucket st !! ws = Some (mkBucket k w) →
  Forall (λ now, now - w ≤ RATE_WINDOW)%Z times →
  (verdicts ws times st).1 =
    repeat true (Z.to_nat (RATE_MAX_MSGS - k) `min` List.length times)
    ++ repeat false (List.length times - Z.to_nat (RATE_MAX_MSGS - k)).
Proof.
  induction times as [|now times IH]; intros st k w Hb Hin; simpl.
  - by rewrite Nat.min_0_r.
  - apply Forall_cons in Hin as [Hnow Hin].
    rewrite (rate_limit_inside now ws st _ Hb) by done. simpl.
    case_bool_decide as Hk.
    + specialize (IH (set_bucket ws (mkBucket (k + 1) w) st) (k + 1)%Z w).
      destruct (verdicts ws times _) as [oks st'']. simpl in *.
      rewrite IH; [|by rewrite lookup_insert_eq|done].
      replace (Z.to_nat (RATE_MAX_MSGS - k))
        with (S (Z.to_nat (RATE_MAX_MSGS - (k + 1)))) by lia.
      reflexivity.
    + specialize (IH st k w Hb Hin).
      destruct (verdicts ws times st) as [oks st'']. simpl in *.
      rewrite IH. replace (Z.to_nat (RATE_MAX_MSGS - k)) with 0 by lia.
      simpl. by rewrite Nat.sub_0_r.
Qed.

Lemma send_delivered c ev st :
  send_ok (List.length (sent st)) c = true →
  send c ev st = Ok tt (log c ev true st).
Proof. intros Hok. unfold send, mbind, M_bind, transmit. by rewrite Hok. Qed.

Lemma guarded_reply now ws (body : M Flow) st st1 text :
  body st = (_ ← send ws (Error text); mret Continue) st1 →
  rejection ws text st1 (guarded now ws body st).
Proof.
  intros Hbody. unfold guarded. rewrite Hbody.
  unfold send, transmit, mbind, M_bind, rejection.
  destruct (send_ok (List.length (sent st1)) ws) eqn:Hok; simpl.
  - exists Continue, (log ws (Error text) true st1), [].
    split; [done|]. split; [done|]. split; [constructor|done].
  - set (st2 := log ws (Error text) false st1).
    destruct (unregister_total (fuel_for st2) now ws st2) as [st' Hrun];
      [unfold fuel_for; lia|].
    unfold unregister_client. rewrite Hrun.
    assert (Hsteps : rtc (cleanup_step (λ _, True)) st2 st').
    { eapply unregister_steps; [done|done|exact Hrun]. }
    destruct (steps_sent _ _ _ Hsteps) as (later & Hsent & Hlater).
    exists Closed, st', later. split; [done|].
    split; [rewrite Hsent; simpl; by rewrite <- app_assoc|].
    split; [|done]. eapply Forall_impl; [exact Hlater|]. by intros a [_ ?].
Qed.

Lemma on_message_over_limit now nonce ws message st b :
  message ≠ Dropped →
  rate_bucket st !! ws = Some b →
  (now - window_start b ≤ RATE_WINDOW)%Z →
  (RATE_MAX_MSGS ≤ count b)%Z →
  on_message now nonce ws message st
  = (_ ← send ws (Error msg_rate_limit); mret Continue) st.
Proof.
  intros Hm Hb Hin Hfull.
  assert (Hrate : rate_limit_ok now ws st = Ok false st).
  { rewrite (rate_limit_inside now ws st b Hb Hin).
    by rewrite bool_decide_eq_false_2 by lia. }
  unfold on_message.
  destruct message; [done|..]; by rewrite (bind_ok _ _ _ _ _ Hrate).
Qed.


(** ** The relay *)

Lemma rate_limit_ok_frame now ws st ok st1 :
  rate_limit_ok now ws st = Ok ok st1 →
  clients st1 = clients st ∧ client_names st1 = client_names st ∧ sent st1 = sent st.
Proof.
  unfold rate_limit_ok. intros H.
  repeat (case_match; simplify_eq); done.
Qed.

Lemma is_str_refl s : is_str (JStr s) s = true.
Proof. by apply bool_decide_eq_true_2. Qed.

(** What the loop does with a [chat_message] the limiter has admitted. *)
Lemma on_message_chat now nonce ws members st st1 :
  dict_get (lit "type") members = Some (JStr (lit "chat_message")) →
  rate_limit_ok now ws st = Ok true st1 →
  on_message now nonce ws (Json (JObj members)) st =
  (enc ← py_get (JObj members) (lit "content");
   match enc with
   | JStr enc =>
       if ((len enc =? 0) || (len enc >? MAX_ENCRYPTED_LEN))%Z then
         _ ← send ws (Error msg_bad_content); mret Continue
       else
         match decrypt_message enc with
         | None => _ ← send ws (Error msg_bad_message); mret Continue
         | Some dec =>
             if ((len dec =? 0) || (len dec >? MAX_PLAINTEXT_LEN))%Z then
               _ ← send ws (Error msg_bad_message); mret Continue
             else
               username ← gets (λ st,
                 default (lit "?") (dict_get ws (client_names st)));
               _ ← broadcast_message now
                     (ChatMessage username (encrypt_message nonce dec) now)
                     (Some ws) true;
               mret Continue
         end
   | _ => _ ← send ws (Error msg_bad_content); mret Continue
   end) st1.
Proof.
  intros Htype Hrate. unfold on_message. cbv beta iota.
  rewrite (bind_ok _ _ _ _ _ Hrate). cbv beta iota delta [negb].
  rewrite (bind_ok (py_get (JObj members) (lit "type")) _ st1
             (default JNull (dict_get (lit "type") members)) st1 eq_refl).
  rewrite Htype. cbn [from_option id]. by rewrite is_str_refl.
Qed.

Lemma bad_content_reply now nonce ws members st st1 :
  dict_get (lit "type") members = Some (JStr (lit "chat_message")) →
  rate_limit_ok now ws st = Ok true st1 →
  (∀ enc, default JNull (dict_get (lit "content") members) = JStr enc →
     len enc = 0 ∨ MAX_ENCRYPTED_LEN < len enc)%Z →
  on_message now nonce ws (Json (JObj members)) st
  = (_ ← send ws (Error msg_bad_content); mret Continue) st1.
Proof.
  intros Htype Hrate Hbad.
  rewrite (on_message_chat now nonce ws members st st1 Htype Hrate).
  rewrite (bind_ok (py_get (JObj members) (lit "content")) _ st1
             (default JNull (dict_get (lit "content") members)) st1 eq_refl).
  destruct (default JNull (dict_get (lit "content") members)) as [| | |enc| |] eqn:Hc;
    try done.
  destruct (Hbad enc eq_refl) as [Hz|Hbig].
  - by rewrite (proj2 (Z.eqb_eq _ _) Hz).
  - rewrite (proj2 (Z.gtb_gt _ _)) by lia. by rewrite orb_true_r.
Qed.

Lemma bad_plaintext_reply now nonce ws members st st1 enc :
  dict_get (lit "type") members = Some (JStr (lit "chat_message")) →
  rate_limit_ok now ws st = Ok true st1 →
  default JNull (dict_get (lit "content") members) = JStr enc →
  (0 < len enc ≤ MAX_ENCRYPTED_LEN)%Z →
  (∀ dec, decrypt enc = Some dec → len dec = 0 ∨ MAX_PLAINTEXT_LEN < len dec)%Z →
  on_message now nonce ws (Json (JObj members)) st
  = (_ ← send ws (Error msg_bad_message); mret Continue) st1.
Proof.
  intros Htype Hrate Hc Hlen Hbad.
  rewrite (on_message_chat now nonce ws members st st1 Htype Hrate).
  rewrite (bind_ok (py_get (JObj members) (lit "content")) _ st1
             (default JNull (dict_get (lit "content") members)) st1 eq_refl).
  rewrite Hc. rewrite (proj2 (Z.eqb_neq _ _)) by lia.
  destruct (Z.gtb_spec (len enc) MAX_ENCRYPTED_LEN); [lia|]. simpl.
  unfold decrypt_message. destruct (decrypt enc) as [dec|] eqn:Hdec; [|done].
  destruct (Hbad dec eq_refl) as [Hz|Hbig].
  - by rewrite (proj2 (Z.eqb_eq _ _) Hz).
  - rewrite (proj2 (Z.gtb_gt _ _)) by lia. by rewrite orb_true_r.
Qed.

Lemma chat_relayed now nonce ws members st st1 enc dec :
  dict_get (lit "type") members = Some (JStr (lit "chat_message")) →
  rate_limit_ok now ws st = Ok true st1 →
  default JNull (dict_get (lit "content") members) = JStr enc →
  (0 < len enc ≤ MAX_ENCRYPTED_LEN)%Z →
  decrypt enc = Some dec →
  (0 < len dec ≤ MAX_PLAINTEXT_LEN)%Z →
  ∃ st',
    broadcast_message now
      (ChatMessage (default (lit "?") (dict_get ws (client_names st)))
                   (encrypt nonce dec) now)
      (Some ws) true st1 = Ok tt st' ∧
    handle_message now nonce ws (Json (JObj members)) st = Ok Continue st'.
Proof.
  intros Htype Hrate Hc Hlen Hdec Hdlen.
  destruct (rate_limit_ok_frame _ _ _ _ _ Hrate) as (_ & Hnames & _).
  destruct (broadcast_message_spec now
              (ChatMessage (default (lit "?") (dict_get ws (client_names st)))
                           (encrypt nonce dec) now)
              (Some ws) true st1) as (st' & Hrun & _).
  exists st'. split; [done|].
  unfold handle_message, guarded.
  rewrite (on_message_chat now nonce ws members st st1 Htype Hrate).
  unfold mbind at 1, M_bind at 1. unfold py_get. simpl. rewrite Hc.
  rewrite (proj2 (Z.eqb_neq _ _)) by lia.
  destruct (Z.gtb_spec (len enc) MAX_ENCRYPTED_LEN); [lia|]. simpl.
  unfold decrypt_message. rewrite Hdec.
  rewrite (proj2 (Z.eqb_neq _ _)) by lia.
  destruct (Z.gtb_spec (len dec) MAX_PLAINTEXT_LEN); [lia|]. simpl.
  unfold mbind at 1, M_bind at 1. unfold gets. rewrite Hnames.
  unfold encrypt_message. by rewrite (bind_ok _ _ _ _ _ Hrun).
Qed.

Section RoundTrip.

(** The cipher's round trip: what [encrypt] produced under the key,
    [decrypt] opens again. *)
Hypothesis decrypt_encrypt :
  ∀ nonce plaintext, decrypt (encrypt nonce plaintext) = Some plaintext.

(** C7. A chat message that passes validation is relayed as a fresh
    encryption, under the server's own nonce, of the plaintext the sender
    encrypted: every registered connection, the sender included, is tried
    with that one event, every chat event the turn sends decrypts to the
    sender's plaintext, and the ciphertext is [encrypt nonce plaintext]
    whatever nonce the sender used for the one submitted. *)
Theorem relayed_chat_decrypts now nonce ws members st st1 nonce0 plaintext :
  dict_get (lit "type") members = Some (JStr (lit "chat_message")) →
  dict_get (lit "content") members = Some (JStr (encrypt nonce0 plaintext)) →
  (0 < len (encrypt nonce0 plaintext) ≤ MAX_ENCRYPTED_LEN)%Z →
  (0 < len plaintext ≤ MAX_PLAINTEXT_LEN)%Z →
  rate_limit_ok now ws st = Ok true st1 →
  let username := default (lit "?") (dict_get ws (client_names st)) in
  let relayed := ChatMessage username (encrypt nonce plaintext) now in
  let tried :=
    attempts relayed (λ _, false) (elements (clients st)) (List.length (sent st)) in
  ∃ st' later,
    handle_message now nonce ws (Json (JObj members)) st = Ok Continue st' ∧
    sent st' = sent st ++ tried ++ later ∧
    map target tried = elements (clients st) ∧
    Forall (λ a, event a = relayed) tried ∧
    Forall (λ a, is_user_left (event a) = true) later ∧
    (∀ a u c t, a ∈ tried ++ later → event a = ChatMessage u c t →
       decrypt c = Some plaintext).
Proof using decrypt_encrypt.
  intros Htype Hcontent Hlen Hplen Hrate username relayed tried.
  destruct (rate_limit_ok_frame _ _ _ _ _ Hrate) as (Hclients & Hnames & Hsent).
  destruct (chat_relayed now nonce ws members st st1
              (encrypt nonce0 plaintext) plaintext) as (st' & Hcast & Hrun);
    [done|done|by rewrite Hcontent|done|apply decrypt_encrypt|done|].
  destruct (broadcast_message_spec now relayed (Some ws) true st1)
    as (st'' & Hcast' & Hclean).
  fold username relayed in Hcast. rewrite Hcast in Hcast'. injection Hcast' as <-.
  cbv beta zeta in Hclean. rewrite Hclients, Hsent in Hclean.
  change (attempts relayed _ (elements (clients st)) (List.length (sent st))) with tried in Hclean.
  assert (Hsteps : rtc (cleanup_step (λ _, True)) (emit tried st1) st').
  { eapply for_each_unregister_steps; [done|done|exact Hclean]. }
  destruct (steps_sent _ _ _ Hsteps) as (later & Hlog & Hlater).
  simpl in Hlog. rewrite Hsent, <- app_assoc in Hlog.
  assert (Htargets : map target tried = elements (clients st)).
  { unfold tried. rewrite attempts_targets. apply filter_all. }
  pose proof (attempts_events relayed (λ _, false) (elements (clients st))
                (List.length (sent st))) as Hevents.
  fold tried in Hevents.
  assert (Hlater' : Forall (λ a, is_user_left (event a) = true) later).
  { eapply Forall_impl; [exact Hlater|]. by intros a [_ ?]. }
  exists st', later. repeat split; try done.
  intros a u c t [Ha|Ha]%elem_of_app Hev.
  - rewrite Forall_forall in Hevents. rewrite (Hevents a Ha) in Hev.
    injection Hev as <- <- <-. apply decrypt_encrypt.
  - rewrite Forall_forall in Hlater'. apply Hlater' in Ha.
    rewrite Hev in Ha. done.
Qed.

End RoundTrip.

(** ** Dictionaries *)

Lemma dict_get_set_eq {V} (k : conn) (v : V) d : dict_get k (dict_set k v d) = Some v.
Proof.
  induction d as [|[k' v'] d IH]; simpl; [by rewrite decide_True|].
  destruct (decide (k = k')) as [->|Hne]; simpl.
  - by rewrite decide_True.
  - by rewrite decide_False.
Qed.

Lemma dict_get_set_ne {V} (k k' : conn) (v : V) d :
  k ≠ k' → dict_get k (dict_set k' v d) = dict_get k d.
Proof.
  intros Hne. induction d as [|[k'' v''] d IH]; simpl.
  - by rewrite decide_False.
  - destruct (decide (k' = k'')) as [->|Hne']; simpl.
    + by rewrite !decide_False.
    + by rewrite IH.
Qed.

Lemma dict_get_pop_ne {V} (k k' : conn) (d : list (conn * V)) :
  k ≠ k' → dict_get k (dict_pop k' d) = dict_get k d.
Proof.
  intros Hne. induction d as [|[k'' v''] d IH]; simpl; [done|].
  destruct (decide (k' = k'')) as [->|Hne']; simpl.
  - by rewrite decide_False.
  - by rewrite IH.
Qed.

Lemma dict_get_None {V} (k : conn) (d : list (conn * V)) :
  dict_get k d = None ↔ k ∉ dict_keys d.
Proof.
  set_aside.
  induction d as [|[k' v'] d IH]; simpl.
  - split; [intros _; apply not_elem_of_nil|done].
  - rewrite not_elem_of_cons. destruct (decide (k = k')) as [->|Hne].
    + split; [done|]. by intros [? _].
    + rewrite IH. tauto.
Qed.

Lemma dict_set_fresh {V} (k : conn) (v : V) d :
  dict_get k d = None → dict_set k v d = d ++ [(k, v)].
Proof.
  induction d as [|[k' v'] d IH]; simpl; [done|].
  destruct (decide (k = k')); [done|]. intros H. by rewrite IH.
Qed.

Lemma dict_keys_pop {V} (k : conn) (d : list (conn * V)) :
  NoDup (dict_keys d) →
  NoDup (dict_keys (dict_pop k d)) ∧
  ∀ c, c ∈ dict_keys (dict_pop k d) ↔ c ∈ dict_keys d ∧ c ≠ k.
Proof.
  set_aside.
  induction d as [|[k' v'] d IH]; simpl.
  - intros _. split; [constructor|]. intros c. split; [by intros ?%not_elem_of_nil|by intros [?%not_elem_of_nil _]].
  - intros [Hk' Hd]%NoDup_cons. destruct (IH Hd) as [IH1 IH2].
    destruct (decide (k = k')) as [->|Hne]; simpl.
    + split; [done|]. intros c. rewrite elem_of_cons. split.
      * intros Hc. split; [by right|]. by intros ->.
      * intros [[->|Hc] Hne]; done.
    + split.
      * apply NoDup_cons. split; [|done]. rewrite IH2. tauto.
      * intros c. rewrite !elem_of_cons, IH2. split.
        -- intros [->|[??]]; [split; [by left|done]|split; [by right|done]].
        -- intros [[->|Hc] Hck]; [by left|right; done].
Qed.

Lemma dict_keys_set {V} (k : conn) (v : V) (d : list (conn * V)) :
  NoDup (dict_keys d) →
  NoDup (dict_keys (dict_set k v d)) ∧
  ∀ c, c ∈ dict_keys (dict_set k v d) ↔ c = k ∨ c ∈ dict_keys d.
Proof.
  set_aside.
  induction d as [|[k' v'] d IH]; simpl.
  - intros _. split; [apply NoDup_singleton|]. intros c.
    rewrite list_elem_of_singleton. split; [by left|]. by intros [?|?%not_elem_of_nil].
  - intros [Hk' Hd]%NoDup_cons. destruct (IH Hd) as [IH1 IH2].
    destruct (decide (k = k')) as [->|Hne]; simpl.
    + split; [by apply NoDup_cons|]. intros c. rewrite elem_of_cons. tauto.
    + split.
      * apply NoDup_cons. split; [|done]. rewrite IH2. intros [?|?]; congruence.
      * intros c. rewrite !elem_of_cons, IH2. tauto.
Qed.

(** ** What cleanup keeps *)

Lemma steps_names may_go st st' c :
  rtc (cleanup_step may_go) st st' → c ∈ clients st' →
  dict_get c (client_names st') = dict_get c (client_names st).
Proof.
  induction 1 as [|st st1 st' Hstep Hrest IH]; [done|].
  intros Hc. rewrite IH by done.
  destruct Hstep as [st d Hd _|]; simpl; [|done].
  apply dict_get_pop_ne. intros ->.
  apply (steps_clients may_go) in Hrest. simpl in Hrest. set_solver.
Qed.

(** ** Registration *)

Lemma attempts_ext message skip skip' cs n :
  (∀ c, skip c = skip' c) →
  attempts message skip cs n = attempts message skip' cs n.
Proof.
  intros Hext. revert n. induction cs as [|c cs IH]; intros n; simpl; [done|].
  rewrite Hext. destruct (skip' c); by rewrite IH.
Qed.

Lemma call_sanitize_username_arg raw arg st :
  username_argument raw = Some arg →
  call_sanitize_username raw st = Ok (sanitize_username isalnum_wide arg) st.
Proof.
  unfold call_sanitize_username, username_argument.
  destruct (truthy raw); simpl.
  - destruct raw; intros Harg; try discriminate Harg.
    by injection Harg as <-.
  - by intros [= <-].
Qed.

Lemma username_argument_str s :
  ∃ arg, username_argument (JStr s) = Some arg ∧
         sanitize_username isalnum_wide arg
         = sanitize_username isalnum_wide (Some s).
Proof.
  destruct s as [|ch s].
  - by exists None.
  - by exists (Some (ch :: s)).
Qed.

(** The registration code once the first frame has shown itself a
    registration with a name the sanitizer takes and the key has gone
    out. *)
Lemma registration_unfold now ws members arg st :
  dict_get (lit "type") members = Some (JStr (lit "register")) →
  username_argument (default JNull (dict_get (lit "username") members))
  = Some arg →
  send_ok (List.length (sent st)) ws = true →
  let name := sanitize_username isalnum_wide arg in
  registration now ws (Json (JObj members)) st =
  (_ ← broadcast_message now (UserJoined name now (msg_joined name)) None false;
   users ← gets (λ st, dict_values (client_names st));
   _ ← send ws (UserList users);
   mret Continue) (log ws EncryptionKey true (enroll now ws name st)).
Proof.
  intros Htype Hname Hok name. unfold registration.
  rewrite (bind_ok (py_get (JObj members) (lit "type")) _ st
             (default JNull (dict_get (lit "type") members)) st eq_refl).
  rewrite Htype. cbn [from_option id]. rewrite is_str_refl. cbv beta iota delta [negb].
  rewrite (bind_ok (py_get (JObj members) (lit "username")) _ st
             (default JNull (dict_get (lit "username") members)) st eq_refl).
  rewrite (bind_ok _ _ _ _ _ (call_sanitize_username_arg _ arg st Hname)).
  fold name. unfold register_client.
  unfold mbind at 1, M_bind at 1. unfold mbind at 1, M_bind at 1.
  unfold modify. unfold mbind at 1, M_bind at 1.
  rewrite send_delivered by done. reflexivity.
Qed.

(** ** The sanitizer *)

Lemma lstrip_spec s :
  ∃ pre, s = pre ++ lstrip s ∧ Forall (λ ch, isspace ch = true) pre ∧
         ∀ ch rest, lstrip s = ch :: rest → isspace ch = false.
Proof.
  induction s as [|ch s (pre & Heq & Hpre & Hhead)]; simpl.
  - exists []. repeat split; [constructor|done].
  - destruct (isspace ch) eqn:Hch.
    + exists (ch :: pre). repeat split; [simpl; congruence|by constructor|done].
    + exists []. repeat split; [constructor|]. by intros ? ? [= <- _].
Qed.

(** [strip] removes a run of whitespace at each end and leaves what is
    between, which neither starts nor ends with whitespace. *)
Lemma strip_spec s :
  ∃ pre post,
    s = pre ++ strip s ++ post ∧
    Forall (λ ch, isspace ch = true) pre ∧
    Forall (λ ch, isspace ch = true) post ∧
    (∀ ch rest, strip s = ch :: rest → isspace ch = false) ∧
    (∀ ch rest, strip s = rest ++ [ch] → isspace ch = false).
Proof.
  destruct (lstrip_spec s) as (pre & Heq & Hpre & Hhead).
  destruct (lstrip_spec (rev (lstrip s))) as (post & Heq' & Hpost & Hlast).
  unfold strip, rstrip.
  assert (Hmid : lstrip s = rev (lstrip (rev (lstrip s))) ++ rev post).
  { rewrite <- rev_app_distr, <- Heq'. by rewrite rev_involutive. }
  exists pre, (rev post). repeat split.
  - by rewrite <- Hmid.
  - done.
  - apply Forall_forall. intros ch Hch. rewrite Forall_forall in Hpost.
    apply Hpost. apply list_elem_of_In. apply list_elem_of_In in Hch.
    by apply in_rev.
  - intros ch rest Hstrip. apply (Hhead ch (rest ++ rev post)).
    by rewrite Hmid, Hstrip.
  - intros ch rest Hstrip. apply (Hlast ch (rev rest)).
    apply (f_equal (@rev N)) in Hstrip.
    rewrite rev_involutive, rev_app_distr in Hstrip. exact Hstrip.
Qed.

Lemma filter_allowed_all s :
  Forall (λ ch, allowed isalnum_wide ch = true) (List.filter (allowed isalnum_wide) s).
Proof.
  set_aside.
  apply Forall_forall. intros ch Hch.
  apply list_elem_of_In, filter_In in Hch. tauto.
Qed.

Lemma filter_fixed {A} (p : A → bool) l :
  Forall (λ x, p x = true) l → List.filter p l = l.
Proof.
  induction 1 as [|x l Hx _ IH]; simpl; [done|]. by rewrite Hx, IH.
Qed.

Lemma Anonimo_allowed : Forall (λ ch, allowed isalnum_wide ch = true) Anonimo.
Proof. repeat constructor. Qed.

Lemma sanitize_username_spec_eq s :
  sanitize_username isalnum_wide (Some s) = sanitize_spec s.
Proof.
  unfold sanitize_username, sanitize_spec.
  destruct s as [|ch s]; [done|].
  destruct (List.filter (allowed isalnum_wide) (strip (ch :: s))) as [|c f]; [done|].
  reflexivity.
Qed.

Lemma sanitize_username_wf name :
  let out := sanitize_username isalnum_wide name in
  (List.length out ≤ 32) ∧
  Forall (λ ch, allowed isalnum_wide ch = true) out ∧
  out ≠ [].
Proof.
  assert (Hdef : (List.length Anonimo ≤ 32) ∧
                 Forall (λ ch, allowed isalnum_wide ch = true) Anonimo ∧ Anonimo ≠ []).
  { split; [simpl; lia|]. split; [apply Anonimo_allowed|done]. }
  destruct name as [s|]; [|exact Hdef].
  cbv zeta. rewrite sanitize_username_spec_eq. unfold sanitize_spec.
  destruct (take 32 (List.filter (allowed isalnum_wide) (strip s))) as [|c kept] eqn:Hk;
    [exact Hdef|].
  rewrite <- Hk. split; [|split].
  - rewrite length_take. lia.
  - apply Forall_take, filter_allowed_all.
  - by rewrite Hk.
Qed.

Lemma sanitize_username_fixed s :
  let name := sanitize_username isalnum_wide (Some s) in
  strip name = name →
  sanitize_username isalnum_wide (Some name) = name.
Proof.
  intros name Hstrip.
  destruct (sanitize_username_wf (Some s)) as (Hlen & Hall & Hne).
  fold name in Hlen, Hall, Hne.
  unfold sanitize_username at 1.
  destruct name as [|ch rest] eqn:Hname; [done|].
  rewrite Hstrip. rewrite (filter_fixed _ _ Hall).
  apply take_ge. lia.
Qed.

Lemma skip_nobody client :
  negb false && bool_decide (Some client = @None conn) = false.
Proof. done. Qed.

Lemma failures_none l :
  Forall (λ a, delivered a = true) l → failures l = [].
Proof.
  unfold failures. induction 1 as [|a l Ha _ IH]; simpl; [done|].
  by rewrite Ha.
Qed.

(** A registration whose own sends go through: the key, the [user_joined]
    attempts over the whole client set, the cleanup of the clients that
    failed, and the user list last. *)
Lemma registration_log now ws members arg st :
  dict_get (lit "type") members = Some (JStr (lit "register")) →
  username_argument (default JNull (dict_get (lit "username") members))
  = Some arg →
  (∀ n, send_ok n ws = true) →
  let name := sanitize_username isalnum_wide arg in
  let announce := UserJoined name now (msg_joined name) in
  let tried :=
    attempts announce (λ _, false) (elements ({[ws]} ∪ clients st))
             (S (List.length (sent st))) in
  ∃ st' later,
    handle_first now ws (Json (JObj members)) st = Ok Continue st' ∧
    ws ∈ clients st' ∧
    dict_get ws (client_names st') = Some name ∧
    sent st' = sent st ++ [mkAttempt ws EncryptionKey true] ++ tried ++ later
                 ++ [mkAttempt ws (UserList (dict_values (client_names st'))) true] ∧
    Forall (λ a, is_user_left (event a) = true) later ∧
    (failures tried = [] →
       later = [] ∧ clients st' = {[ws]} ∪ clients st ∧
       client_names st' = dict_set ws name (client_names st)).
Proof.
  set_aside.
  intros Htype Hname Hok name announce tried.
  set (st1 := log ws EncryptionKey true (enroll now ws name st)).
  destruct (broadcast_message_spec now announce None false st1)
    as (st2 & Hcast & Hclean).
  cbv zeta in Hclean.
  rewrite (attempts_ext announce _ (λ _, false)) in Hclean by apply skip_nobody.
  assert (Hlen1 : List.length (sent st1) = S (List.length (sent st))).
  { simpl. rewrite length_app. simpl. lia. }
  rewrite Hlen1 in Hclean.
  change (attempts announce _ (elements (clients st1)) _) with tried in Hclean.
  assert (Hsteps : rtc (cleanup_step (λ c, ∃ n, send_ok n c = false))
                       (emit tried st1) st2).
  { eapply for_each_unregister_steps; [eauto| |exact Hclean].
    intros c Hc. by eapply failures_may_go. }
  assert (Hws : ws ∈ clients st2).
  { eapply steps_kept; [exact Hsteps|simpl; set_solver|].
    intros [n Hn]. by rewrite Hok in Hn. }
  destruct (steps_sent _ _ _ Hsteps) as (later & Hsent & Hlater).
  exists (log ws (UserList (dict_values (client_names st2))) true st2), later.
  split; [|split; [done|split; [|split; [|split]]]].
  - unfold handle_first, guarded.
    rewrite (registration_unfold now ws members arg st Htype Hname (Hok _)).
    fold name announce st1. rewrite (bind_ok _ _ _ _ _ Hcast).
    unfold mbind at 1, M_bind at 1. unfold gets.
    unfold mbind, M_bind. by rewrite send_delivered by apply Hok.
  - simpl. rewrite (steps_names _ _ _ ws Hsteps Hws). simpl.
    apply dict_get_set_eq.
  - simpl. rewrite Hsent. simpl. by rewrite <- !app_assoc.
  - eapply Forall_impl; [exact Hlater|]. by intros a [_ ?].
  - intros Hnone. rewrite Hnone in Hclean. simpl in Hclean.
    injection Hclean as Heq. rewrite <- Heq in Hsent |- *.
    split; [|done].
    rewrite <- (app_nil_r (sent (emit tried st1))) in Hsent at 1.
    by apply app_inv_head in Hsent.
Qed.

Lemma consistent_absent ws st :
  consistent st → ws ∉ clients st → dict_get ws (client_names st) = None.
Proof.
  intros [_ Hdom] Hout. apply dict_get_None. intros Hin. apply Hout.
  rewrite <- Hdom. by apply elem_of_list_to_set.
Qed.

(** C1 (amended). A registration of a new connection, with every send to it
    and to the registered clients going through, logs exactly: the key to
    the new connection, then [user_joined] with the sanitized name, one
    delivery per target and among the targets every other registered
    connection, and last the user list to the new connection, naming the
    clients registered before in their order and the newcomer at the end. *)
Theorem registration_order now ws members arg st :
  dict_get (lit "type") members = Some (JStr (lit "register")) →
  username_argument (default JNull (dict_get (lit "username") members))
  = Some arg →
  ws ∉ clients st →
  consistent st →
  (∀ n c, c = ws ∨ c ∈ clients st → send_ok n c = true) →
  let name := sanitize_username isalnum_wide arg in
  let announce := UserJoined name now (msg_joined name) in
  let users := dict_values (client_names st) ++ [name] in
  ∃ st' joined,
    handle_first now ws (Json (JObj members)) st = Ok Continue st' ∧
    sent st' = sent st ++ [mkAttempt ws EncryptionKey true] ++ joined
                 ++ [mkAttempt ws (UserList users) true] ∧
    Forall (λ a, event a = announce ∧ delivered a = true) joined ∧
    NoDup (map target joined) ∧
    (∀ c, c ≠ ws → (c ∈ map target joined ↔ c ∈ clients st)) ∧
    clients st' = {[ws]} ∪ clients st ∧
    client_names st' = client_names st ++ [(ws, name)].
Proof.
  set_aside.
  intros Htype Hname Hnew Hcons Hok name announce users.
  destruct (registration_log now ws members arg st Htype Hname)
    as (st' & later & Hrun & _ & _ & Hsent & _ & Hclean); [by auto|].
  fold name announce in Hsent, Hclean.
  set (tried := attempts announce (λ _, false) (elements ({[ws]} ∪ clients st))
                  (S (List.length (sent st)))) in *.
  assert (Htargets : map target tried = elements ({[ws]} ∪ clients st)).
  { unfold tried. rewrite attempts_targets. apply filter_all. }
  assert (Hdelivered : Forall (λ a, event a = announce ∧ delivered a = true) tried).
  { apply Forall_forall. intros a Ha. split.
    - pose proof (attempts_events announce (λ _, false)
                    (elements ({[ws]} ∪ clients st)) (S (List.length (sent st)))) as Hev.
      rewrite Forall_forall in Hev. by apply Hev.
    - pose proof Ha as Ha'. apply list_elem_of_lookup in Ha' as [i Hi].
      rewrite (attempts_outcome _ _ _ _ _ _ Hi). apply Hok.
      assert (Hin : target a ∈ elements ({[ws]} ∪ clients st)).
      { rewrite <- Htargets. apply list_elem_of_fmap. eauto. }
      apply elem_of_elements in Hin. set_solver. }
  destruct Hclean as (-> & Hclients & Hnames).
  { apply failures_none. eapply Forall_impl; [exact Hdelivered|]. by intros a [_ ?]. }
  rewrite (dict_set_fresh ws name _ (consistent_absent ws st Hcons Hnew)) in Hnames.
  exists st', tried. repeat split.
  - exact Hrun.
  - rewrite Hsent, Hnames. unfold dict_values, users. by rewrite map_app.
  - exact Hdelivered.
  - rewrite Htargets. apply NoDup_elements.
  - rewrite Htargets, elem_of_elements. set_solver.
  - rewrite Htargets, elem_of_elements. set_solver.
  - exact Hclients.
  - exact Hnames.
Qed.

Lemma strip_allowed name :
  Forall (λ ch, allowed isalnum_wide ch = true) name →
  Forall (λ ch, allowed isalnum_wide ch = true) (strip name) ∧
  List.length (strip name) ≤ List.length name.
Proof.
  intros Hall. destruct (strip_spec name) as (pre & post & Heq & _).
  split.
  - rewrite Heq in Hall. apply Forall_app in Hall as [_ Hall].
    by apply Forall_app in Hall as [Hall _].
  - rewrite Heq at 2. rewrite !length_app. lia.
Qed.

(** C2 (amended). Sanitizing a sanitized name gives it back exactly when
    the name has no whitespace at either end; and the name a registration
    whose own sends go through leaves in the name map is the sanitizer's
    result on the submitted username. *)
Theorem sanitized_name_stored :
  (∀ s, let name := sanitize_username isalnum_wide (Some s) in
        sanitize_username isalnum_wide (Some name) = name ↔ strip name = name) ∧
  (∀ now ws members arg st,
     dict_get (lit "type") members = Some (JStr (lit "register")) →
     username_argument (default JNull (dict_get (lit "username") members))
     = Some arg →
     (∀ n, send_ok n ws = true) →
     ∃ st',
       handle_first now ws (Json (JObj members)) st = Ok Continue st' ∧
       dict_get ws (client_names st')
       = Some (sanitize_username isalnum_wide arg)).
Proof.
  split.
  - intros s name. split; [|apply sanitize_username_fixed].
    destruct (sanitize_username_wf (Some s)) as (Hlen & Hall & Hne).
    fold name in Hlen, Hall, Hne.
    destruct (strip_allowed name Hall) as [Hall' Hlen'].
    unfold sanitize_username at 1.
    destruct name as [|ch rest] eqn:Hn; [done|]. rewrite <- Hn in *.
    rewrite (filter_fixed _ _ Hall').
    destruct (strip name) as [|c stripped] eqn:Hs.
    + intros Heq. rewrite <- Heq in Hs. vm_compute in Hs. discriminate Hs.
    + rewrite take_ge by lia. done.
  - intros now ws members arg st Htype Hname Hok.
    destruct (registration_log now ws members arg st Htype Hname Hok)
      as (st' & later & Hrun & _ & Hstored & _).
    by exists st'.
Qed.

(** [sanitize_username] on a string is the specification's pipeline: the
    whitespace at both ends goes, of the rest the letters, digits and the
    five extra characters stay, at most 32 of them, and the default name
    stands in where nothing is left (as it does for no name at all).  So
    its result has at most 32 characters, all of those classes; and that
    result is the name a registration stores and announces. *)
Lemma sanitize_username_pipeline s :
  let name := sanitize_username isalnum_wide (Some s) in
  name = sanitize_spec s ∧
  (∃ pre post,
     s = pre ++ strip s ++ post ∧
     Forall (λ ch, isspace ch = true) pre ∧
     Forall (λ ch, isspace ch = true) post ∧
     (∀ ch rest, strip s = ch :: rest → isspace ch = false) ∧
     (∀ ch rest, strip s = rest ++ [ch] → isspace ch = false)) ∧
  List.length name ≤ 32 ∧
  Forall (λ ch, isalnum isalnum_wide ch = true ∨ ch ∈ lit " _-.'") name ∧
  sanitize_username isalnum_wide None = Anonimo ∧
  (∀ now ws members st,
     dict_get (lit "type") members = Some (JStr (lit "register")) →
     dict_get (lit "username") members = Some (JStr s) →
     (∀ n, send_ok n ws = true) →
     ∃ st',
       handle_first now ws (Json (JObj members)) st = Ok Continue st' ∧
       dict_get ws (client_names st') = Some name ∧
       ∀ a u t m, a ∈ drop (List.length (sent st)) (sent st') →
                  event a = UserJoined u t m → u = name).
Proof.
  intros name.
  destruct (sanitize_username_wf (Some s)) as (Hlen & Hall & _).
  fold name in Hlen, Hall.
  split; [apply sanitize_username_spec_eq|].
  split; [apply strip_spec|].
  split; [exact Hlen|].
  split.
  { eapply Forall_impl; [exact Hall|]. intros ch Hch.
    unfold allowed, in_extra in Hch. apply orb_true_iff in Hch as [?|Hch]; [by left|].
    right. by apply bool_decide_eq_true in Hch. }
  split; [done|].
  intros now ws members st Htype Hname Hok.
  destruct (username_argument_str s) as (arg & Harg & Hsame).
  destruct (registration_log now ws members arg st Htype) as
    (st' & later & Hrun & _ & Hstored & Hsent & Hlater & _);
    [by rewrite Hname|done|].
  rewrite Hsame in Hstored, Hsent. fold name in Hstored, Hsent.
  exists st'. split; [done|]. split; [done|].
  intros a u t m Ha Hev. rewrite Hsent, drop_app_length in Ha.
  rewrite !elem_of_app in Ha. destruct Ha as [Ha|[Ha|[Ha|Ha]]].
  - apply list_elem_of_singleton in Ha. subst a. done.
  - pose proof (attempts_events (UserJoined name now (msg_joined name)) (λ _, false)
                  (elements ({[ws]} ∪ clients st)) (S (List.length (sent st)))) as Hevs.
    rewrite Forall_forall in Hevs. rewrite (Hevs a Ha) in Hev. by injection Hev.
  - rewrite Forall_forall in Hlater. apply Hlater in Ha. by rewrite Hev in Ha.
  - apply list_elem_of_singleton in Ha. subst a. done.
Qed.

(** C9 (where the code departs). A first frame that is JSON but not an
    object ends the handler with nothing sent at all: [data.get] raises,
    the handler's catch-all logs it, and the connection closes without the
    error event. *)
Theorem first_frame_not_object_is_silent now ws data st :
  (∀ members, data ≠ JObj members) →
  ws ∉ clients st →
  handle_first now ws (Json data) st = Ok Closed st.
Proof.
  intros Hshape Hout.
  assert (Hreg : registration now ws (Json data) st = Raise AttributeError st).
  { destruct data; try reflexivity. by destruct (Hshape members). }
  unfold handle_first, guarded. rewrite Hreg.
  by rewrite (bind_ok _ _ _ _ _ (unregister_client_absent now ws st Hout)).
Qed.

(** ** Invariants of the whole process *)

Lemma hoare_ret {A} (P : Server → Prop) (a : A) Q E :
  (∀ st, P st → Q a st) → hoare P (mret a) Q E.
Proof. intros H st Hst. by apply H. Qed.

Lemma hoare_raise {A} (P : Server → Prop) e (Q : A → Server → Prop) E :
  (∀ st, P st → E st) → hoare P (raise e) Q E.
Proof. intros H st Hst. by apply H. Qed.

Lemma hoare_gets {A} (P : Server → Prop) (g : Server → A) Q E :
  (∀ st, P st → Q (g st) st) → hoare P (gets g) Q E.
Proof. intros H st Hst. by apply H. Qed.

Lemma hoare_bind {A B} (P : Server → Prop) (m : M A) (f : A → M B) R Q E :
  hoare P m R E → (∀ a, hoare (R a) (f a) Q E) → hoare P (m ≫= f) Q E.
Proof.
  intros Hm Hf st Hst. specialize (Hm st Hst). unfold mbind, M_bind.
  destruct (m st) as [a st'| |]; [|done..]. by apply Hf.
Qed.

Lemma hoare_weaken {A} (P P' : Server → Prop) (m : M A) Q Q' E E' :
  hoare P' m Q' E' →
  (∀ st, P st → P' st) → (∀ a st, Q' a st → Q a st) → (∀ st, E' st → E st) →
  hoare P m Q E.
Proof.
  intros Hm HP HQ HE st Hst. specialize (Hm st (HP st Hst)).
  destruct (m st); auto.
Qed.

Lemma dict_values_pop {V} (k : conn) (d : list (conn * V)) v :
  v ∈ dict_values (dict_pop k d) → v ∈ dict_values d.
Proof.
  set_aside.
  induction d as [|[k' x] d IH]; simpl; [done|].
  destruct (decide (k = k')); simpl; rewrite !elem_of_cons; tauto.
Qed.

Lemma dict_values_set {V} (k : conn) (x : V) (d : list (conn * V)) v :
  v ∈ dict_values (dict_set k x d) → v = x ∨ v ∈ dict_values d.
Proof.
  set_aside.
  induction d as [|[k' x'] d IH]; simpl.
  - rewrite list_elem_of_singleton. by left.
  - destruct (decide (k = k')); simpl; rewrite !elem_of_cons; tauto.
Qed.

Lemma dict_get_value {V} (k : conn) (d : list (conn * V)) v :
  dict_get k d = Some v → v ∈ dict_values d.
Proof.
  set_aside.
  induction d as [|[k' x] d IH]; simpl; [done|].
  destruct (decide (k = k')).
  - intros [= ->]. apply list_elem_of_here.
  - intros H. apply list_elem_of_further. by apply IH.
Qed.

Lemma sound_emit live l st :
  sound live st → Forall (λ a, event_ok (event a)) l → sound live (emit l st).
Proof.
  intros (Hc & Hn & Hs & Hl) Hall.
  split; [done|split; [done|split; [|done]]].
  simpl. by apply Forall_app_2.
Qed.

Lemma sound_log live c ev ok st :
  sound live st → event_ok ev → sound live (log c ev ok st).
Proof.
  intros Hst Hev. rewrite log_emit. apply sound_emit; [done|]. by constructor.
Qed.

Lemma sound_forget live c st : sound live st → sound live (forget c st).
Proof.
  intros ([Hnd Hdom] & Hn & Hs & Hl).
  destruct (dict_keys_pop c (client_names st) Hnd) as [Hnd' Hkeys].
  split; [|split; [|split]]; simpl.
  - split; [done|]. simpl. apply set_eq. intros x.
    rewrite elem_of_list_to_set, Hkeys, elem_of_difference, <- Hdom,
      elem_of_list_to_set, elem_of_singleton. done.
  - apply Forall_forall. intros v Hv. rewrite Forall_forall in Hn.
    by apply Hn, (dict_values_pop c).
  - done.
  - etrans; [|exact Hl]. apply subseteq_difference_l. done.
Qed.

Lemma sound_set_bucket live ws b st :
  sound live st → sound live (set_bucket ws b st).
Proof. by intros (Hc & Hn & Hs & Hl). Qed.

Lemma sound_enroll live now ws name st :
  sound live st → well_formed name →
  sound ({[ws]} ∪ live) (enroll now ws name st).
Proof.
  intros ([Hnd Hdom] & Hn & Hs & Hl) Hname.
  destruct (dict_keys_set ws name (client_names st) Hnd) as [Hnd' Hkeys].
  split; [|split; [|split]]; simpl.
  - split; [done|]. simpl. apply set_eq. intros x.
    rewrite elem_of_list_to_set, Hkeys, elem_of_union, <- Hdom,
      elem_of_list_to_set, elem_of_singleton. done.
  - apply Forall_forall. intros v Hv. rewrite Forall_forall in Hn.
    apply dict_values_set in Hv as [->|Hv]; [done|by apply Hn].
  - done.
  - by apply union_mono_l.
Qed.

Lemma sound_live live live' st :
  sound live st → clients st ⊆ live' → sound live' st.
Proof. by intros (Hc & Hn & Hs & _) Hl. Qed.

Lemma well_formed_unknown : well_formed (lit "Usuario desconocido").
Proof. set_aside. split; [simpl; lia|]. repeat constructor. Qed.

Lemma sound_name live ws st :
  sound live st →
  well_formed (default (lit "Usuario desconocido") (dict_get ws (client_names st))).
Proof.
  intros (_ & Hn & _). destruct (dict_get ws (client_names st)) as [name|] eqn:Hget.
  - rewrite Forall_forall in Hn. by apply Hn, (dict_get_value ws).
  - apply well_formed_unknown.
Qed.

Lemma for_each_keeps {A} (P : Server → Prop) (body : A → M unit) l :
  (∀ x st st', P st → body x st = Ok tt st' → P st') →
  ∀ st st', P st → for_each body l st = Ok tt st' → P st'.
Proof.
  intros Hbody. induction l as [|x l IH]; intros st st' Hst; simpl.
  - by intros [= <-].
  - unfold mbind, M_bind. destruct (body x st) as [[] st1| |] eqn:Hx; try done.
    apply IH. by eapply Hbody.
Qed.

Lemma unregister_fuel_sound live fuel now :
  ∀ ws st st', sound live st →
    unregister_client_fuel fuel now ws st = Ok tt st' → sound live st'.
Proof.
  induction fuel as [|fuel IH]; intros ws st st' Hst; simpl; [done|].
  case_decide as Hin; [|by intros [= <-]].
  rewrite broadcast_with_unfold. cbv zeta.
  apply (for_each_keeps (sound live)); [exact IH|].
  apply sound_emit; [by apply sound_forget|].
  eapply Forall_impl; [apply attempts_events|].
  intros a ->. simpl. by apply (sound_name live).
Qed.

Lemma hoare_unregister live now ws :
  hoare (sound live) (unregister_client now ws)
        (λ _ st, sound live st ∧ ws ∉ clients st) (λ _, False).
Proof.
  intros st Hst. unfold unregister_client.
  destruct (unregister_total (fuel_for st) now ws st) as [st' Hrun];
    [unfold fuel_for; lia|].
  rewrite Hrun. split.
  - by eapply unregister_fuel_sound.
  - by eapply unregister_gone.
Qed.

Lemma hoare_broadcast live now message exclude echo :
  hoare (λ st, sound live st ∧ event_ok message)
        (broadcast_message now message exclude echo)
        (λ _, sound live) (λ _, False).
Proof.
  intros st [Hst Hev].
  destruct (broadcast_message_spec now message exclude echo st) as (st' & -> & Hclean).
  revert Hclean. apply (for_each_keeps (sound live)).
  - intros c s s'. apply unregister_fuel_sound.
  - apply sound_emit; [done|].
    eapply Forall_impl; [apply attempts_events|]. by intros a ->.
Qed.

Lemma hoare_send live c ev :
  hoare (λ st, sound live st ∧ event_ok ev) (send c ev)
        (λ _, sound live) (sound live).
Proof.
  intros st [Hst Hev]. unfold send, mbind, M_bind, transmit.
  destruct (send_ok _ c); simpl; by apply sound_log.
Qed.

Lemma hoare_send_error live c text (Q : unit → Server → Prop) :
  (∀ u st, sound live st → Q u st) →
  hoare (sound live) (send c (Error text)) Q (sound live).
Proof.
  intros HQ. eapply hoare_weaken; [apply (hoare_send live c (Error text))|..]; auto.
  by intros st Hst.
Qed.

Lemma hoare_rate_limit live now ws :
  hoare (sound live) (rate_limit_ok now ws) (λ _, sound live) (sound live).
Proof.
  intros st Hst. unfold rate_limit_ok.
  destruct (rate_bucket st !! ws) as [b|]; [|by apply sound_set_bucket].
  destruct (_ >? _)%Z; [by apply sound_set_bucket|].
  destruct (_ >=? _)%Z; [done|by apply sound_set_bucket].
Qed.

Lemma hoare_py_get live data key :
  hoare (sound live) (py_get data key) (λ _, sound live) (sound live).
Proof. intros st Hst. by destruct data. Qed.

Lemma hoare_reply live c text :
  hoare (sound live) (_ ← send c (Error text); mret Continue)
        (λ _, sound live) (sound live).
Proof.
  apply (hoare_bind _ _ _ (λ _, sound live)).
  - apply hoare_send_error. auto.
  - intros _. by apply hoare_ret.
Qed.

Lemma hoare_call_sanitize live v :
  hoare (sound live) (call_sanitize_username v)
        (λ username st, sound live st ∧ well_formed username) (sound live).
Proof.
  intros st Hst. unfold call_sanitize_username.
  destruct (negb (truthy v)).
  - split; [done|]. destruct (sanitize_username_wf None) as (? & ? & _). by split.
  - destruct v; try done.
    split; [done|]. destruct (sanitize_username_wf (Some s)) as (? & ? & _). by split.
Qed.

Lemma hoare_register_client live now ws username :
  ws ∈ live →
  hoare (λ st, sound live st ∧ well_formed username)
        (register_client now ws username) (λ _, sound live) (sound live).
Proof.
  intros Hws. unfold register_client.
  apply (hoare_bind _ _ _ (λ _ st, sound live st ∧ well_formed username)).
  { intros st [Hst Hname]. split; [|done].
    eapply sound_live; [by apply sound_enroll|].
    simpl. destruct Hst as (_ & _ & _ & Hl).
    apply union_least; [by apply singleton_subseteq_l|done]. }
  intros _.
  apply (hoare_bind _ _ _ (λ _ st, sound live st ∧ well_formed username)).
  { intros st [Hst Hname]. unfold send, mbind, M_bind, transmit.
    destruct (send_ok _ ws); simpl; [split; [|done]|]; by apply sound_log. }
  intros _.
  eapply hoare_weaken; [apply (hoare_broadcast live)| | |].
  - by intros st [Hst Hname].
  - auto.
  - done.
Qed.

Lemma hoare_registration live now ws first :
  ws ∈ live →
  hoare (sound live) (registration now ws first) (λ _, sound live) (sound live).
Proof.
  intros Hws. unfold registration. destruct first as [| | |data].
  - by apply hoare_raise.
  - apply (hoare_bind _ _ _ (λ _, sound live)).
    + apply hoare_send_error. auto.
    + intros _. by apply hoare_ret.
  - by apply hoare_raise.
  - apply (hoare_bind _ _ _ (λ _, sound live)); [apply hoare_py_get|].
    intros ty. destruct (negb (is_str ty (lit "register"))).
    { apply (hoare_bind _ _ _ (λ _, sound live)).
      - apply hoare_send_error. auto.
      - intros _. by apply hoare_ret. }
    apply (hoare_bind _ _ _ (λ _, sound live)); [apply hoare_py_get|].
    intros raw.
    apply (hoare_bind _ _ _ (λ username st, sound live st ∧ well_formed username));
      [apply hoare_call_sanitize|].
    intros username.
    apply (hoare_bind _ _ _ (λ _, sound live)); [by apply hoare_register_client|].
    intros _.
    apply (hoare_bind _ _ _ (λ users st, sound live st ∧ event_ok (UserList users))).
    { apply hoare_gets. intros st Hst. split; [done|]. simpl. by destruct Hst as (_ & ? & _). }
    intros users.
    apply (hoare_bind _ _ _ (λ _, sound live)); [apply hoare_send|].
    intros _. by apply hoare_ret.
Qed.

Lemma hoare_relay live now nonce ws dec :
  hoare (sound live)
    (username ← gets (λ st, default (lit "?") (dict_get ws (client_names st)));
     _ ← broadcast_message now
           (ChatMessage username (encrypt_message nonce dec) now) (Some ws) true;
     mret Continue)
    (λ _, sound live) (sound live).
Proof.
  apply (hoare_bind _ _ _
           (λ username st, sound live st ∧
              event_ok (ChatMessage username (encrypt_message nonce dec) now))).
  { apply hoare_gets. intros st Hst. split; [done|]. simpl.
    destruct (dict_get ws (client_names st)) as [name|] eqn:Hget; [left|by right].
    destruct Hst as (_ & Hn & _). rewrite Forall_forall in Hn.
    by apply Hn, (dict_get_value ws). }
  intros username.
  apply (hoare_bind _ _ _ (λ _, sound live)).
  - eapply hoare_weaken; [apply (hoare_broadcast live)| | |]; [auto|auto|done].
  - intros _. by apply hoare_ret.
Qed.

Lemma hoare_on_message live now nonce ws message :
  hoare (sound live) (on_message now nonce ws message)
        (λ _, sound live) (sound live).
Proof.
  unfold on_message. destruct message as [| | |data].
  - by apply hoare_ret.
  - apply (hoare_bind _ _ _ (λ _, sound live)); [apply hoare_rate_limit|].
    intros [|]; simpl; apply hoare_reply.
  - apply (hoare_bind _ _ _ (λ _, sound live)); [apply hoare_rate_limit|].
    intros [|]; simpl; [by apply hoare_raise|apply hoare_reply].
  - apply (hoare_bind _ _ _ (λ _, sound live)); [apply hoare_rate_limit|].
    intros [|]; simpl; [|apply hoare_reply].
    apply (hoare_bind _ _ _ (λ _, sound live)); [apply hoare_py_get|].
    intros mtype. destruct (is_str mtype (lit "chat_message")); [|apply hoare_reply].
    apply (hoare_bind _ _ _ (λ _, sound live)); [apply hoare_py_get|].
    intros enc. destruct enc as [| | |enc| |]; try apply hoare_reply.
    destruct (_ || _); [apply hoare_reply|].
    destruct (decrypt_message enc) as [dec|]; [|apply hoare_reply].
    destruct (_ || _); [apply hoare_reply|].
    apply hoare_relay.
Qed.

Lemma hoare_guarded (P : Server → Prop) live now ws body :
  hoare P body (λ _, sound live) (sound live) →
  hoare P (guarded now ws body)
        (λ flow st, sound live st ∧ (flow = Closed → ws ∉ clients st))
        (λ _, False).
Proof.
  intros Hbody st Hst. specialize (Hbody st Hst). unfold guarded.
  destruct (body st) as [[|] st'|e st'|]; [done| | |done];
    pose proof (hoare_unregister live now ws st' Hbody) as Hun;
    unfold mbind, M_bind;
    destruct (unregister_client now ws st') as [[] st''| |]; try done;
    simpl; split; [tauto|intros _; tauto|tauto|intros _; tauto].
Qed.

(** A handler step with no other handler in between always returns, in a
    sound state; if it ends the handler, the connection is out of the
    client set. *)
Lemma handle_first_sound live now ws first st :
  sound live st →
  ∃ flow st',
    handle_first now ws first st = Ok flow st' ∧
    sound ({[ws]} ∪ live) st' ∧
    (flow = Closed → ws ∉ clients st').
Proof.
  intros Hst.
  assert (Hst' : sound ({[ws]} ∪ live) st).
  { eapply sound_live; [exact Hst|]. destruct Hst as (_ & _ & _ & Hl).
    etrans; [exact Hl|]. apply union_subseteq_r. }
  assert (Hws : ws ∈ {[ws]} ∪ live) by (by apply elem_of_union_l, elem_of_singleton).
  pose proof (hoare_guarded _ _ now ws _
                (hoare_registration ({[ws]} ∪ live) now ws first Hws) st Hst') as H.
  unfold handle_first. destruct (guarded _ _ _ st) as [flow st''| |]; [|done..].
  by exists flow, st''.
Qed.

Lemma handle_message_sound live now nonce ws message st :
  sound live st →
  ∃ flow st',
    handle_message now nonce ws message st = Ok flow st' ∧
    sound live st' ∧
    (flow = Closed → ws ∉ clients st').
Proof.
  intros Hst.
  pose proof (hoare_guarded _ _ now ws _
                (hoare_on_message live now nonce ws message) st Hst) as H.
  unfold handle_message. destruct (guarded _ _ _ st) as [flow st''| |]; [|done..].
  by exists flow, st''.
Qed.

Lemma settle_ok ws w flow st' :
  world_ok w →
  sound ({[ws]} ∪ looping w) st' →
  (flow = Closed → ws ∉ clients st') →
  ∃ w', settle ws w (Ok flow st') = Some w' ∧ world_ok w'.
Proof.
  set_aside.
  intros [Hw Hacc] Hst' Hclosed. destruct flow; simpl; eexists; (split; [done|]).
  - split; simpl; [done|]. by apply union_mono_l.
  - split; simpl.
    + eapply sound_live; [exact Hst'|]. destruct Hst' as (_ & _ & _ & Hl).
      specialize (Hclosed eq_refl). intros c Hc.
      apply elem_of_difference. split.
      * specialize (Hl c Hc). apply elem_of_union in Hl as [->%elem_of_singleton|]; done.
      * intros ->%elem_of_singleton. done.
    + intros c [Hc _]%elem_of_difference. apply elem_of_union_r, Hacc, Hc.
Qed.

Lemma deliver_ok i w w' :
  world_ok w → deliver i w = Some w' → world_ok w'.
Proof.
  intros Hw. pose proof Hw as [Hst Hacc].
  destruct i as [ws now first|ws now nonce message]; simpl.
  - case_decide as Hseen; [done|].
    destruct (handle_first_sound (looping w) now ws first (server w) Hst)
      as (flow & st' & -> & Hst' & Hclosed).
    destruct (settle_ok ws w flow st' Hw Hst' Hclosed) as (w'' & -> & Hw'').
    by intros [= <-].
  - case_decide as Hloop; [|done].
    destruct (handle_message_sound (looping w) now nonce ws message (server w) Hst)
      as (flow & st' & -> & Hst' & Hclosed).
    assert (Hst'' : sound ({[ws]} ∪ looping w) st').
    { eapply sound_live; [exact Hst'|]. destruct Hst' as (_ & _ & _ & Hl).
      etrans; [exact Hl|]. apply union_subseteq_r. }
    destruct (settle_ok ws w flow st' Hw Hst'' Hclosed) as (w'' & -> & Hw'').
    by intros [= <-].
Qed.

Lemma deliver_total i w :
  world_ok w →
  match i with
  | Arrives ws _ _ => ws ∉ accepted w
  | Speaks ws _ _ _ => ws ∈ looping w
  end →
  ∃ w', deliver i w = Some w'.
Proof.
  intros Hw. pose proof Hw as [Hst Hacc].
  destruct i as [ws now first|ws now nonce message]; simpl; intros Hadm.
  - rewrite decide_False by done.
    destruct (handle_first_sound (looping w) now ws first (server w) Hst)
      as (flow & st' & -> & Hst' & Hclosed).
    destruct (settle_ok ws w flow st' Hw Hst' Hclosed) as (w'' & -> & _). eauto.
  - rewrite decide_True by done.
    destruct (handle_message_sound (looping w) now nonce ws message (server w) Hst)
      as (flow & st' & -> & Hst' & Hclosed).
    assert (Hst'' : sound ({[ws]} ∪ looping w) st').
    { eapply sound_live; [exact Hst'|]. destruct Hst' as (_ & _ & _ & Hl).
      etrans; [exact Hl|]. apply union_subseteq_r. }
    destruct (settle_ok ws w flow st' Hw Hst'' Hclosed) as (w'' & -> & _). eauto.
Qed.

Lemma run_ok inputs : ∀ w w', world_ok w → run inputs w = Some w' → world_ok w'.
Proof.
  induction inputs as [|i inputs IH]; intros w w' Hw; simpl.
  - by intros [= <-].
  - destruct (deliver i w) as [w1|] eqn:Hi; [|done].
    apply IH. by eapply deliver_ok.
Qed.

Lemma genesis_ok : world_ok genesis.
Proof.
  set_aside.
  split; [|done]. split; [|split; [|split]]; simpl; try done.
  split; [constructor|done].
Qed.

(** C6 (as amended).  [sanitize_username] on a string is the
    specification's pipeline: the whitespace at both ends goes, of the rest
    the letters, digits and the five extra characters stay, at most 32 of
    them, and the default name stands in where nothing is left (as it does
    for no name at all).  So its result has at most 32 characters, all of
    those classes, and it is the name a registration stores and announces.
    Whatever frames arrive, every name in the registry and every name in a
    [user_joined], [user_left] or [user_list] event ever sent is such a
    result; the name in a relayed [chat_message] is one too, or else the
    placeholder "?" that the relay puts for a sender without a name in
    the registry. *)
Theorem sanitize_username_contract s :
  let name := sanitize_username isalnum_wide (Some s) in
  name = sanitize_spec s ∧
  (∃ pre post,
     s = pre ++ strip s ++ post ∧
     Forall (λ ch, isspace ch = true) pre ∧
     Forall (λ ch, isspace ch = true) post ∧
     (∀ ch rest, strip s = ch :: rest → isspace ch = false) ∧
     (∀ ch rest, strip s = rest ++ [ch] → isspace ch = false)) ∧
  List.length name ≤ 32 ∧
  Forall (λ ch, isalnum isalnum_wide ch = true ∨ ch ∈ lit " _-.'") name ∧
  sanitize_username isalnum_wide None = Anonimo ∧
  (∀ now ws members st,
     dict_get (lit "type") members = Some (JStr (lit "register")) →
     dict_get (lit "username") members = Some (JStr s) →
     (∀ n, send_ok n ws = true) →
     ∃ st',
       handle_first now ws (Json (JObj members)) st = Ok Continue st' ∧
       dict_get ws (client_names st') = Some name ∧
       ∀ a u t m, a ∈ drop (List.length (sent st)) (sent st') →
                  event a = UserJoined u t m → u = name) ∧
  (∀ inputs w,
     run inputs genesis = Some w →
     Forall (λ stored,
               List.length stored ≤ 32 ∧
               Forall (λ ch, allowed isalnum_wide ch = true) stored)
            (dict_values (client_names (server w))) ∧
     Forall (λ a,
               match event a with
               | UserJoined username _ _ | UserLeft username _ _ =>
                   well_formed username
               | UserList users => Forall well_formed users
               | ChatMessage username _ _ =>
                   well_formed username ∨ username = lit "?"
               | EncryptionKey | Error _ => True
               end)
            (sent (server w))).
Proof.
  intros name.
  destruct (sanitize_username_pipeline s) as (Hspec & Hstrip & Hlen & Hall & Hnone & Hreg).
  do 6 (split; [done|]).
  intros inputs w Hrun.
  destruct (run_ok inputs genesis w genesis_ok Hrun) as [(_ & Hnames & Hsent & _) _].
  split; [exact Hnames|exact Hsent].
Qed.

(** X1. Cleanup is idempotent: once [unregister_client] has run for a
    connection, running it again changes nothing and sends nothing. *)
Theorem unregister_client_idempotent now now' ws st st' :
  unregister_client now ws st = Ok tt st' →
  unregister_client now' ws st' = Ok tt st'.
Proof.
  intros Hrun. apply unregister_client_absent.
  unfold unregister_client in Hrun. by eapply unregister_gone.
Qed.

(** X2. The first frames that are refused, on a connection not
    registered.  For one on which [json.loads] raises [JSONDecodeError],
    and for a JSON object of another type than "register", one error event
    is tried on the connection and is all that is sent; the handler ends,
    and the registry is as it was.  One on which [json.loads] raises
    another exception is not answered at all: the handler ends with
    nothing sent. *)
Theorem first_frame_rejected now ws st :
  ws ∉ clients st →
  let ok := send_ok (List.length (sent st)) ws in
  handle_first now ws BadJson st
  = Ok Closed (log ws (Error msg_bad_registration) ok st) ∧
  (∀ members,
     is_str (default JNull (dict_get (lit "type") members)) (lit "register")
     = false →
     handle_first now ws (Json (JObj members)) st
     = Ok Closed (log ws (Error msg_register_first) ok st)) ∧
  handle_first now ws Unloadable st = Ok Closed st.
Proof.
  intros Hout ok.
  assert (Hun : ∀ text, unregister_client now ws (log ws (Error text) ok st)
                        = Ok tt (log ws (Error text) ok st)).
  { intros text. by apply unregister_client_absent. }
  assert (Hreply : ∀ text,
            guarded now ws (_ ← send ws (Error text); mret Closed) st
            = Ok Closed (log ws (Error text) ok st)).
  { intros text. unfold guarded, send, transmit, mbind, M_bind. fold ok.
    destruct ok; simpl; fold (unregister_client now ws (log ws (Error text) true st));
      fold (unregister_client now ws (log ws (Error text) false st));
      by rewrite Hun. }
  split; [apply Hreply|]. split.
  - intros members Htype. unfold handle_first, registration.
    rewrite <- (Hreply msg_register_first). unfold guarded.
    rewrite (bind_ok (py_get (JObj members) (lit "type")) _ st
               (default JNull (dict_get (lit "type") members)) st eq_refl).
    by rewrite Htype.
  - unfold handle_first, guarded, registration, raise.
    by rewrite (bind_ok _ _ _ _ _ (unregister_client_absent now ws st Hout)).
Qed.

(** X3. Whatever frames arrive on whatever connections, and whichever
    sends fail: the name map has exactly the connections of the client
    set, once each; every registered connection has its handler waiting in
    the message loop; every stored name is a sanitized name; and so is
    every name in a [user_joined], [user_left] or [user_list] event ever
    sent, while a relayed [chat_message] carries such a name or the
    placeholder "?". *)
Theorem registry_sound_always inputs w :
  run inputs genesis = Some w →
  consistent (server w) ∧
  clients (server w) ⊆ looping w ∧
  Forall well_formed (dict_values (client_names (server w))) ∧
  Forall (λ a, event_ok (event a)) (sent (server w)).
Proof.
  intros Hrun.
  destruct (run_ok inputs genesis w genesis_ok Hrun) as [(Hc & Hn & Hs & Hl) _].
  done.
Qed.

(** ** More on the sanitizer *)

Lemma filter_sublist {A} (p : A → bool) (l : list A) : sublist (List.filter p l) l.
Proof.
  induction l as [|x l IH]; simpl; [constructor|].
  destruct (p x); by constructor.
Qed.

Lemma strip_sublist s : sublist (strip s) s.
Proof.
  destruct (strip_spec s) as (pre & post & Heq & _).
  rewrite Heq at 2. apply sublist_inserts_l, sublist_inserts_r. done.
Qed.

(** X5. The sanitizer gives no empty name and invents nothing: its result
    is the default name, or characters of the submitted name in their order. *)
Theorem sanitize_username_subsequence name :
  let out := sanitize_username isalnum_wide name in
  out ≠ [] ∧
  (out = Anonimo ∨ ∃ s, name = Some s ∧ sublist out s).
Proof.
  intros out. split; [apply sanitize_username_wf|].
  subst out. destruct name as [s|]; [|by left].
  destruct s as [|ch s]; [by left|].
  unfold sanitize_username.
  destruct (List.filter (allowed isalnum_wide) (strip (ch :: s))) as [|c kept] eqn:Hf.
  - by left.
  - right. exists (ch :: s). split; [done|].
    rewrite <- Hf. etrans; [apply sublist_take|].
    etrans; [apply filter_sublist|]. apply strip_sublist.
Qed.

Lemma strip_idemp s : strip (strip s) = strip s.
Proof.
  destruct (strip_spec (strip s)) as (pre & post & Heq & Hpre & Hpost & _).
  destruct (strip_spec s) as (_ & _ & _ & _ & _ & Hhead & Hlast).
  destruct pre as [|ch pre].
  - destruct post as [|ch post] using rev_ind.
    + simpl in Heq. by rewrite app_nil_r in Heq.
    + clear IHpost. rewrite app_assoc in Heq. simpl in Heq.
      rewrite app_assoc in Heq.
      apply Hlast in Heq. rewrite Forall_forall in Hpost.
      rewrite Hpost in Heq; [done|]. apply elem_of_app. right. apply list_elem_of_here.
  - simpl in Heq. apply Hhead in Heq.
    apply Forall_cons in Hpre as [Hch _]. congruence.
Qed.

(** X6. The names the sanitizer leaves as they are: the non-empty names of
    at most 32 allowed characters with no whitespace at either end. *)
Theorem sanitize_username_fixed_points s :
  sanitize_username isalnum_wide (Some s) = s ↔
  s ≠ [] ∧ List.length s ≤ 32 ∧
  Forall (λ ch, allowed isalnum_wide ch = true) s ∧ strip s = s.
Proof.
  split.
  - intros Hfix.
    destruct (sanitize_username_wf (Some s)) as (Hlen & Hall & Hne).
    cbv zeta in Hlen, Hall, Hne. rewrite Hfix in Hlen, Hall, Hne.
    split; [done|]. split; [done|]. split; [done|].
    destruct (strip_allowed s Hall) as [Hall' Hlen'].
    unfold sanitize_username in Hfix.
    destruct s as [|ch rest] eqn:Hs; [done|]. rewrite <- Hs in *.
    rewrite (filter_fixed _ _ Hall') in Hfix.
    destruct (strip s) as [|c stripped] eqn:Hstrip.
    + rewrite <- Hfix in Hstrip. vm_compute in Hstrip. discriminate Hstrip.
    + rewrite take_ge in Hfix by lia. done.
  - intros (Hne & Hlen & Hall & Hstrip).
    unfold sanitize_username. destruct s as [|ch rest] eqn:Hs; [done|].
    rewrite <- Hs in *. rewrite Hstrip, (filter_fixed _ _ Hall).
    rewrite Hs. rewrite <- Hs. apply take_ge. lia.
Qed.
(** ** More on registration and cleanup *)

(** What [unregister_client] does for a registered connection, in the
    terms of the send log. *)
Lemma unregister_registered now ws st :
  ws ∈ clients st →
  let name := default (lit "Usuario desconocido") (dict_get ws (client_names st)) in
  let notice := UserLeft name now (msg_left name) in
  let tried :=
    attempts notice (λ _, false) (elements (clients st ∖ {[ws]}))
             (List.length (sent st)) in
  ∃ st' later,
    unregister_client now ws st = Ok tt st' ∧
    sent st' = sent st ++ tried ++ later ∧
    Forall (λ a, target a ∈ clients st ∖ {[ws]} ∧ is_user_left (event a) = true) later ∧
    rtc (cleanup_step (λ _, True)) (forget ws st) st'.
Proof.
  intros Hin name notice tried.
  destruct (unregister_total (fuel_for st) now ws st) as [st' Hrun];
    [unfold fuel_for; lia|].
  assert (Hclean : for_each (unregister_client_fuel (size (clients st)) now)
                     (failures tried) (emit tried (forget ws st)) = Ok tt st').
  { revert Hrun. unfold fuel_for. simpl. case_decide; [|done].
    by rewrite broadcast_with_unfold. }
  assert (Hsteps : rtc (cleanup_step (λ _, True)) (emit tried (forget ws st)) st').
  { eapply for_each_unregister_steps; [done|done|exact Hclean]. }
  destruct (steps_sent _ _ _ Hsteps) as (later & Hsent & Hlater).
  simpl in Hsent, Hlater.
  exists st', later. split; [exact Hrun|]. split; [by rewrite Hsent, app_assoc|].
  split; [exact Hlater|].
  eapply rtc_trans; [|exact Hsteps].
  apply (attempts_steps (λ _, True) notice (λ _, false) _ (forget ws st) eq_refl).
  intros c Hc. by apply elem_of_elements in Hc.
Qed.

(** The registration code when the key cannot be sent: the connection is
    enrolled already and the exception leaves [register_client]. *)
Lemma registration_key_lost now ws members arg st :
  dict_get (lit "type") members = Some (JStr (lit "register")) →
  username_argument (default JNull (dict_get (lit "username") members))
  = Some arg →
  send_ok (List.length (sent st)) ws = false →
  registration now ws (Json (JObj members)) st =
  Raise ConnectionClosed
    (log ws EncryptionKey false
       (enroll now ws (sanitize_username isalnum_wide arg) st)).
Proof.
  intros Htype Hname Hok. unfold registration.
  rewrite (bind_ok (py_get (JObj members) (lit "type")) _ st
             (default JNull (dict_get (lit "type") members)) st eq_refl).
  rewrite Htype. cbn [from_option id]. rewrite is_str_refl. cbv beta iota delta [negb].
  rewrite (bind_ok (py_get (JObj members) (lit "username")) _ st
             (default JNull (dict_get (lit "username") members)) st eq_refl).
  rewrite (bind_ok _ _ _ _ _ (call_sanitize_username_arg _ arg st Hname)).
  unfold register_client, modify, send, transmit, mbind, M_bind. simpl.
  by rewrite Hok.
Qed.


(** ** More on the message loop *)

(** What admitting a message does to the sender's bucket. *)
Lemma rate_limit_admits now ws st st1 :
  rate_limit_ok now ws st = Ok true st1 →
  ∃ b1, st1 = set_bucket ws b1 st ∧
    (b1 = mkBucket 1 now ∨
     ∃ b, rate_bucket st !! ws = Some b ∧ (count b < RATE_MAX_MSGS)%Z ∧
          b1 = mkBucket (count b + 1) (window_start b)).
Proof.
  unfold rate_limit_ok. destruct (rate_bucket st !! ws) as [b|] eqn:Hb.
  - destruct (_ >? _)%Z.
    + intros [= <-]. eexists. split; [done|by left].
    + destruct (Z.geb_spec (count b) RATE_MAX_MSGS); [done|].
      intros [= <-]. eexists. split; [done|]. right. exists b.
      split; [done|]. split; [lia|done].
  - intros [= <-]. eexists. split; [done|by left].
Qed.

(** A turn of the message loop whose body raises: the handler ends, and
    its cleanup unregisters the connection; what is sent after the body are
    the [user_left] notices to the others. *)
Lemma loop_raise_disconnects now ws body st e st1 :
  body st = Raise e st1 →
  ∃ st' later,
    guarded now ws body st = Ok Closed st' ∧
    unregister_client now ws st1 = Ok tt st' ∧
    sent st' = sent st1 ++ later ∧
    Forall (λ a, is_user_left (event a) = true ∧ target a ≠ ws) later ∧
    ws ∉ clients st'.
Proof.
  intros Hbody.
  assert (Hturn : ∀ st', unregister_client now ws st1 = Ok tt st' →
                         guarded now ws body st = Ok Closed st').
  { intros st' Hrun. unfold guarded. rewrite Hbody.
    by rewrite (bind_ok _ _ _ _ _ Hrun). }
  destruct (decide (ws ∈ clients st1)) as [Hin|Hout].
  - destruct (unregister_registered now ws st1 Hin)
      as (st' & later & Hrun & Hlog & Hlater & Hsteps).
    match type of Hlog with
    | _ = _ ++ ?t ++ _ => set (tried := t) in *
    end.
    exists st', (tried ++ later).
    split; [by apply Hturn|]. split; [done|]. split; [done|].
    split.
    + apply Forall_app. split.
      * apply Forall_forall. intros a Ha. split.
        -- pose proof (attempts_events _ (λ _, false) _ _ : Forall _ tried) as Hev.
           rewrite Forall_forall in Hev. by rewrite (Hev a Ha).
        -- assert (Hta : target a ∈ map target tried)
             by (apply list_elem_of_fmap; eauto).
           unfold tried in Hta. rewrite attempts_targets, filter_all in Hta.
           apply elem_of_elements, elem_of_difference in Hta as [_ Hne].
           intros Heq. apply Hne. by apply elem_of_singleton.
      * eapply Forall_impl; [exact Hlater|]. intros a [Hta Hev]. split; [done|].
        apply elem_of_difference in Hta as [_ Hne].
        intros Heq. apply Hne. by apply elem_of_singleton.
    + unfold unregister_client in Hrun. by eapply unregister_gone.
  - exists st1, []. rewrite app_nil_r.
    pose proof (unregister_client_absent now ws st1 Hout) as Hrun.
    split; [by apply Hturn|]. done.
Qed.

(** X9. The other frames of the message loop that are not relayed, once
    the limiter has admitted them.  A frame on which [json.loads] raises
    [JSONDecodeError] is answered "invalid JSON", and a JSON object whose
    type is not "chat_message" (or that has none) is answered "unsupported
    type": one error event to the sender, nothing relayed, and the handler
    stays in its loop if the event goes through.  A frame on which
    [json.loads] raises another exception is not answered: the handler
    ends, its cleanup unregisters the sender, and all that is sent are the
    [user_left] notices to the others.  The frame has used a slot of the
    sender's window all the same: the limiter counted it before the frame
    was looked at. *)
Theorem other_frames_refused now nonce ws st st1 :
  rate_limit_ok now ws st = Ok true st1 →
  rejection ws msg_bad_json st1 (handle_message now nonce ws BadJson st) ∧
  (∀ members,
     is_str (default JNull (dict_get (lit "type") members)) (lit "chat_message")
     = false →
     rejection ws msg_unsupported st1
       (handle_message now nonce ws (Json (JObj members)) st)) ∧
  (∃ st' later,
     handle_message now nonce ws Unloadable st = Ok Closed st' ∧
     unregister_client now ws st1 = Ok tt st' ∧
     sent st' = sent st ++ later ∧
     Forall (λ a, is_user_left (event a) = true ∧ target a ≠ ws) later ∧
     ws ∉ clients st') ∧
  ∃ b1, rate_bucket st1 !! ws = Some b1 ∧
    (b1 = mkBucket 1 now ∨
     ∃ b, rate_bucket st !! ws = Some b ∧
          b1 = mkBucket (count b + 1) (window_start b)).
Proof.
  intros Hrate. split; [|split; [|split]].
  - apply guarded_reply. unfold on_message.
    by rewrite (bind_ok _ _ _ _ _ Hrate).
  - intros members Htype. apply guarded_reply. unfold on_message.
    rewrite (bind_ok _ _ _ _ _ Hrate). cbv beta iota delta [negb].
    rewrite (bind_ok (py_get (JObj members) (lit "type")) _ st1
               (default JNull (dict_get (lit "type") members)) st1 eq_refl).
    by rewrite Htype.
  - destruct (rate_limit_ok_frame _ _ _ _ _ Hrate) as (_ & _ & Hsent).
    rewrite <- Hsent. apply (loop_raise_disconnects _ _ _ _ LoadsError).
    unfold on_message. by rewrite (bind_ok _ _ _ _ _ Hrate).
  - destruct (rate_limit_admits now ws st st1 Hrate) as (b1 & -> & Hb1).
    exists b1. split; [simpl; apply lookup_insert_eq|].
    destruct Hb1 as [->|(b & Hb & _ & ->)]; [by left|right; by exists b].
Qed.

(** X10. A frame in the message loop that is JSON but no object, once the
    limiter has admitted it: [data.get] raises, the handler ends, and its
    cleanup unregisters the connection.  The sender is sent nothing, no
    error event either; what is sent are the [user_left] notices to the
    others. *)
Theorem loop_frame_not_object_disconnects now nonce ws data st st1 :
  (∀ members, data ≠ JObj members) →
  rate_limit_ok now ws st = Ok true st1 →
  ∃ st' later,
    handle_message now nonce ws (Json data) st = Ok Closed st' ∧
    unregister_client now ws st1 = Ok tt st' ∧
    sent st' = sent st ++ later ∧
    Forall (λ a, is_user_left (event a) = true ∧ target a ≠ ws) later ∧
    ws ∉ clients st'.
Proof.
  intros Hdata Hrate.
  destruct (rate_limit_ok_frame _ _ _ _ _ Hrate) as (_ & _ & Hsent).
  assert (Hbody : on_message now nonce ws (Json data) st = Raise AttributeError st1).
  { unfold on_message. rewrite (bind_ok _ _ _ _ _ Hrate). cbv beta iota delta [negb].
    destruct data; try done. by destruct (Hdata members). }
  assert (Hturn : ∀ st', unregister_client now ws st1 = Ok tt st' →
                         handle_message now nonce ws (Json data) st = Ok Closed st').
  { intros st' Hrun. unfold handle_message, guarded. rewrite Hbody.
    by rewrite (bind_ok _ _ _ _ _ Hrun). }
  destruct (decide (ws ∈ clients st1)) as [Hin|Hout].
  - destruct (unregister_registered now ws st1 Hin)
      as (st' & later & Hrun & Hlog & Hlater & Hsteps).
    match type of Hlog with
    | _ = _ ++ ?t ++ _ => set (tried := t) in *
    end.
    exists st', (tried ++ later).
    split; [by apply Hturn|]. split; [done|]. split; [by rewrite Hlog, Hsent|].
    split.
    + apply Forall_app. split.
      * apply Forall_forall. intros a Ha. split.
        -- pose proof (attempts_events _ (λ _, false) _ _ : Forall _ tried) as Hev.
           rewrite Forall_forall in Hev. by rewrite (Hev a Ha).
        -- assert (Hta : target a ∈ map target tried)
             by (apply list_elem_of_fmap; eauto).
           unfold tried in Hta. rewrite attempts_targets, filter_all in Hta.
           apply elem_of_elements, elem_of_difference in Hta as [_ Hne].
           intros Heq. apply Hne. by apply elem_of_singleton.
      * eapply Forall_impl; [exact Hlater|]. intros a [Hta Hev]. split; [done|].
        apply elem_of_difference in Hta as [_ Hne].
        intros Heq. apply Hne. by apply elem_of_singleton.
    + unfold unregister_client in Hrun. by eapply unregister_gone.
  - exists st1, []. rewrite app_nil_r.
    pose proof (unregister_client_absent now ws st1 Hout) as Hrun.
    split; [by apply Hturn|]. done.
Qed.

(** ** The limiter over time *)

Lemma verdicts_cons ws now times st ok st1 :
  rate_limit_ok now ws st = Ok ok st1 →
  (verdicts ws (now :: times) st).1 = ok :: (verdicts ws times st1).1.
Proof.
  intros Hrate. simpl. rewrite Hrate. by destruct (verdicts ws times st1).
Qed.

Lemma rate_limit_fresh now ws st :
  rate_bucket st !! ws = None →
  rate_limit_ok now ws st = Ok true (set_bucket ws (mkBucket 1 now) st).
Proof. intros Hb. unfold rate_limit_ok. by rewrite Hb. Qed.

Lemma rate_limit_returns now ws st :
  ∃ ok st1, rate_limit_ok now ws st = Ok ok st1.
Proof. unfold rate_limit_ok. repeat case_match; eauto. Qed.

Lemma admitted_late lo hi ws times : ∀ st,
  Forall (λ t, hi < t)%Z times →
  admitted_between lo hi times (verdicts ws times st).1 = 0.
Proof.
  induction times as [|now times IH]; intros st Hlate; [done|].
  apply Forall_cons in Hlate as [Hnow Hlate]. simpl.
  destruct (rate_limit_ok now ws st) as [ok st1| |]; [|done..].
  specialize (IH st1 Hlate). destruct (verdicts ws times st1) as [oks st2].
  simpl in *. rewrite IH.
  destruct (Z.leb_spec now hi); [lia|]. by rewrite andb_false_r.
Qed.

(** Within the window of the bucket, no more is admitted than the bucket
    has room for. *)
Lemma admitted_one_window lo hi ws times : ∀ st c s,
  StronglySorted Z.le times →
  rate_bucket st !! ws = Some (mkBucket c s) →
  (hi - s ≤ RATE_WINDOW)%Z →
  admitted_between lo hi times (verdicts ws times st).1
  ≤ Z.to_nat (RATE_MAX_MSGS - c).
Proof.
  induction times as [|now times IH]; intros st c s Hsorted Hb Hhi; [simpl; lia|].
  apply StronglySorted_inv in Hsorted as [Hsorted Hnow].
  destruct (Z.leb_spec now hi) as [Hle|Hgt].
  - pose proof (rate_limit_inside now ws st _ Hb) as Hrate. simpl in Hrate.
    specialize (Hrate ltac:(lia)). case_bool_decide as Hc.
    + rewrite (verdicts_cons _ _ _ _ _ _ Hrate). simpl.
      specialize (IH (set_bucket ws (mkBucket (c + 1) s) st) (c + 1)%Z s Hsorted).
      simpl in IH. rewrite lookup_insert_eq in IH. specialize (IH eq_refl Hhi).
      unfold RATE_MAX_MSGS in *.
      destruct (_ && _); simpl; lia.
    + rewrite (verdicts_cons _ _ _ _ _ _ Hrate). simpl.
      apply (IH st c s Hsorted Hb Hhi).
  - rewrite admitted_late; [lia|].
    constructor; [done|]. eapply Forall_impl; [exact Hnow|]. simpl. lia.
Qed.

(** From the start of the interval on: what the current window has room
    for, and one window more. *)
Lemma admitted_from_start lo hi ws times : ∀ st,
  StronglySorted Z.le times →
  Forall (λ t, lo ≤ t)%Z times →
  (hi - lo ≤ RATE_WINDOW)%Z →
  admitted_between lo hi times (verdicts ws times st).1
  ≤ from_option (λ b, Z.to_nat (RATE_MAX_MSGS - count b)) 0 (rate_bucket st !! ws)
    + Z.to_nat RATE_MAX_MSGS.
Proof.
  induction times as [|now times IH]; intros st Hsorted Hlo Hlen; [simpl; lia|].
  pose proof Hsorted as Hall.
  apply StronglySorted_inv in Hsorted as [Hsorted Hnow].
  apply Forall_cons in Hlo as [Hlonow Hlo].
  assert (Hreset : rate_limit_ok now ws st
                   = Ok true (set_bucket ws (mkBucket 1 now) st) →
            admitted_between lo hi (now :: times) (verdicts ws (now :: times) st).1
            ≤ Z.to_nat RATE_MAX_MSGS).
  { intros Hrate. rewrite (verdicts_cons _ _ _ _ _ _ Hrate). simpl.
    pose proof (admitted_one_window lo hi ws times
                  (set_bucket ws (mkBucket 1 now) st) 1 now Hsorted) as Hone.
    simpl in Hone. rewrite lookup_insert_eq in Hone.
    destruct (Z.leb_spec now hi) as [Hle|Hgt].
    - specialize (Hone eq_refl ltac:(lia)). unfold RATE_MAX_MSGS in *.
      destruct (_ && _); simpl; lia.
    - rewrite andb_false_r. simpl. rewrite admitted_late; [lia|].
      eapply Forall_impl; [exact Hnow|]. simpl. lia. }
  destruct (rate_bucket st !! ws) as [[c s]|] eqn:Hb; cbn [from_option count].
  - destruct (Z.leb_spec (now - s) RATE_WINDOW) as [Hin|Hout].
    + pose proof (rate_limit_inside now ws st _ Hb) as Hrate. simpl in Hrate.
      specialize (Hrate Hin). case_bool_decide as Hc.
      * rewrite (verdicts_cons _ _ _ _ _ _ Hrate). simpl.
        specialize (IH (set_bucket ws (mkBucket (c + 1) s) st) Hsorted Hlo Hlen).
        simpl in IH. rewrite lookup_insert_eq in IH. simpl in IH.
        unfold RATE_MAX_MSGS in *. destruct (_ && _); simpl; lia.
      * rewrite (verdicts_cons _ _ _ _ _ _ Hrate). simpl.
        specialize (IH st Hsorted Hlo Hlen). rewrite Hb in IH. simpl in IH. lia.
    + pose proof (rate_limit_elapsed now ws st _ Hb) as Hrate. simpl in Hrate.
      specialize (Hreset (Hrate ltac:(lia))). lia.
  - specialize (Hreset (rate_limit_fresh now ws st Hb)). lia.
Qed.

(** X12. The limiter's windows are fixed, not sliding: asked about one
    connection time after time, with a clock that does not go back and a
    count that does not start below zero, it admits in any stretch of time
    no longer than [RATE_WINDOW] at most twice [RATE_MAX_MSGS] messages
    (the end of one window and the start of the next), whatever the times
    of the calls. *)
Theorem rate_limiter_burst_bound ws times lo hi : ∀ st,
  StronglySorted Z.le times →
  (∀ b, rate_bucket st !! ws = Some b → 0 ≤ count b)%Z →
  (hi - lo ≤ RATE_WINDOW)%Z →
  admitted_between lo hi times (verdicts ws times st).1
  ≤ 2 * Z.to_nat RATE_MAX_MSGS.
Proof.
  induction times as [|now times IH]; intros st Hsorted Hcount Hlen; [simpl; lia|].
  destruct (Z.leb_spec lo now) as [Hle|Hlt].
  - etrans; [apply admitted_from_start; [done| |done]|].
    + apply StronglySorted_inv in Hsorted as [_ Hnow].
      constructor; [done|]. eapply Forall_impl; [exact Hnow|]. simpl. lia.
    + unfold RATE_MAX_MSGS.
      destruct (rate_bucket st !! ws) as [b|] eqn:Hb; cbn [from_option]; [|lia].
      specialize (Hcount b eq_refl). lia.
  - apply StronglySorted_inv in Hsorted as [Hsorted _].
    destruct (rate_limit_returns now ws st) as (ok & st1 & Hrate).
    rewrite (verdicts_cons _ _ _ _ _ _ Hrate). simpl.
    destruct (Z.leb_spec lo now); [lia|]. rewrite andb_false_r. simpl.
    apply IH; [done| |done].
    intros b Hb. destruct ok.
    + destruct (rate_limit_admits now ws st st1 Hrate) as (b1 & -> & Hb1).
      simpl in Hb. rewrite lookup_insert_eq in Hb. injection Hb as <-.
      destruct Hb1 as [->|(b0 & Hb0 & _ & ->)]; simpl; [lia|].
      specialize (Hcount b0 Hb0). lia.
    + unfold rate_limit_ok in Hrate. repeat case_match; simplify_eq.
      by apply Hcount.
Qed.
(** ** The footprint of a handler step *)

Section Footprint.

Variable ws : conn.
Variable registering : bool.
Variable st0 : Server.

(** The states the handler has got to. *)
Local Abbreviation so_far := (reached ws registering st0).

Lemma reached_step st st' :
  so_far st → handler_step ws registering st st' → so_far st'.
Proof. intros Hst Hstep. by eapply rtc_r. Qed.

Lemma cleanup_handler_step st st' :
  cleanup_step (λ _, True) st st' → handler_step ws registering st st'.
Proof.
  intros [s c Hc _|s c ev Hc Hev].
  - by apply hs_forget.
  - apply hs_cast; [done|]. by destruct ev.
Qed.

Lemma reached_cleanup st st' :
  so_far st → rtc (cleanup_step (λ _, True)) st st' → so_far st'.
Proof.
  intros Hst Hsteps. induction Hsteps as [|s s1 s' Hstep _ IH]; [done|].
  apply IH. eapply reached_step; [done|]. by apply cleanup_handler_step.
Qed.

Lemma reached_attempts message skip cs : ∀ st,
  is_broadcast message = true →
  (∀ c, c ∈ cs → c ∈ clients st) →
  so_far st →
  so_far (emit (attempts message skip cs (List.length (sent st))) st).
Proof.
  induction cs as [|c cs IH]; intros st Hev Hin Hst; simpl.
  - by rewrite emit_nil.
  - destruct (skip c).
    + apply IH; [done| |done]. intros c' Hc'. apply Hin. by apply list_elem_of_further.
    + specialize (IH (log c message (send_ok (List.length (sent st)) c) st) Hev).
      rewrite log_emit, emit_emit in IH.
      replace (List.length (sent (emit [mkAttempt c message (send_ok (List.length (sent st)) c)] st)))
        with (S (List.length (sent st))) in IH
        by (simpl; rewrite length_app; simpl; lia).
      apply IH.
      * intros c' Hc'. simpl. apply Hin. by apply list_elem_of_further.
      * rewrite <- log_emit. eapply reached_step; [done|].
        apply hs_cast; [|done]. apply Hin, list_elem_of_here.
Qed.

Lemma reached_unregister now c :
  hoare so_far (unregister_client now c) (λ _, so_far) (λ _, False).
Proof.
  intros st Hst. unfold unregister_client.
  destruct (unregister_total (fuel_for st) now c st) as [st' Hrun];
    [unfold fuel_for; lia|].
  rewrite Hrun. eapply reached_cleanup; [done|].
  by eapply (unregister_steps (λ _, True)).
Qed.

Lemma reached_broadcast now message exclude echo :
  is_broadcast message = true →
  hoare so_far (broadcast_message now message exclude echo)
        (λ _, so_far) (λ _, False).
Proof.
  intros Hev st Hst.
  destruct (broadcast_message_spec now message exclude echo st) as (st' & -> & Hclean).
  cbv zeta in Hclean.
  match type of Hclean with
  | for_each _ _ (emit (attempts ?m ?sk ?cs _) ?s) = _ =>
      pose proof (reached_attempts m sk cs s Hev) as Hsend
  end.
  eapply reached_cleanup.
  - apply Hsend; [|exact Hst].
    intros c Hc. by apply elem_of_elements in Hc.
  - eapply for_each_unregister_steps; [done|done|exact Hclean].
Qed.

Lemma reached_error text :
  hoare so_far (send ws (Error text)) (λ _, so_far) so_far.
Proof.
  intros st Hst. unfold send, mbind, M_bind, transmit.
  pose proof (reached_step _ _ Hst (hs_error ws registering st text)) as Hlog.
  by destruct (send_ok _ ws).
Qed.

Lemma reached_greet ev :
  registering = true → is_greeting ev = true →
  hoare so_far (send ws ev) (λ _, so_far) so_far.
Proof.
  intros Hreg Hev st Hst. unfold send, mbind, M_bind, transmit.
  pose proof (reached_step _ _ Hst (hs_greet ws registering st ev Hreg Hev)) as Hlog.
  by destruct (send_ok _ ws).
Qed.

Lemma reached_reply text (flow : Flow) :
  hoare so_far (_ ← send ws (Error text); mret flow)
        (λ _, so_far) so_far.
Proof.
  apply (hoare_bind _ _ _ (λ _, so_far)); [apply reached_error|].
  intros _. by apply hoare_ret.
Qed.

Lemma reached_guarded (P : Server → Prop) now body :
  hoare P body (λ _, so_far) so_far →
  hoare P (guarded now ws body) (λ _, so_far) (λ _, False).
Proof.
  intros Hbody st Hst. specialize (Hbody st Hst). unfold guarded.
  destruct (body st) as [[|] st'|e st'|]; [done| | |done];
    pose proof (reached_unregister now ws st' Hbody) as Hun;
    unfold mbind, M_bind;
    by destruct (unregister_client now ws st') as [[] st''| |].
Qed.

Lemma reached_register_client now username :
  registering = true →
  hoare so_far (register_client now ws username) (λ _, so_far) so_far.
Proof.
  intros Hreg. unfold register_client.
  apply (hoare_bind _ _ _ (λ _, so_far)).
  { intros st Hst. eapply reached_step; [done|]. by apply hs_enroll. }
  intros _. apply (hoare_bind _ _ _ (λ _, so_far)); [by apply reached_greet|].
  intros _. eapply hoare_weaken; [by apply reached_broadcast|auto|auto|done].
Qed.

Lemma reached_registration now first :
  registering = is_registration first →
  hoare so_far (registration now ws first) (λ _, so_far) so_far.
Proof.
  intros Hreg. unfold registration. destruct first as [| | |data].
  - by apply hoare_raise.
  - apply reached_reply.
  - by apply hoare_raise.
  - destruct data as [| | | | |members]; try (intros st Hst; exact Hst).
    simpl in Hreg.
    intros st Hst.
    rewrite (bind_ok (py_get (JObj members) (lit "type")) _ st
               (default JNull (dict_get (lit "type") members)) st eq_refl).
    revert st Hst.
    destruct (is_str _ (lit "register")); cbv beta iota delta [negb].
    + apply (hoare_bind _ _ _ (λ _, so_far)); [by intros st Hst|].
      intros raw. apply (hoare_bind _ _ _ (λ _, so_far)).
      { intros st Hst. unfold call_sanitize_username.
        destruct (negb (truthy raw)); [done|]. by destruct raw. }
      intros username.
      apply (hoare_bind _ _ _ (λ _, so_far)); [by apply reached_register_client|].
      intros _. apply (hoare_bind _ _ _ (λ _, so_far)); [by apply hoare_gets|].
      intros users.
      apply (hoare_bind _ _ _ (λ _, so_far)); [by apply reached_greet|].
      intros _. by apply hoare_ret.
    + apply reached_reply.
Qed.

Lemma reached_on_message now nonce message :
  registering = false →
  hoare so_far (on_message now nonce ws message) (λ _, so_far) so_far.
Proof.
  intros Hreg. unfold on_message.
  assert (Hlimit : hoare so_far (rate_limit_ok now ws) (λ _, so_far) so_far).
  { intros st Hst. destruct (rate_limit_returns now ws st) as (ok & st1 & Hrate).
    rewrite Hrate. eapply reached_step; [done|]. by eapply hs_limit. }
  assert (Hget : ∀ data key, hoare so_far (py_get data key) (λ _, so_far) so_far).
  { intros data key st Hst. by destruct data. }
  destruct message as [| | |data].
  - by apply hoare_ret.
  - apply (hoare_bind _ _ _ (λ _, so_far)); [exact Hlimit|].
    intros [|]; simpl; apply reached_reply.
  - apply (hoare_bind _ _ _ (λ _, so_far)); [exact Hlimit|].
    intros [|]; simpl; [by apply hoare_raise|apply reached_reply].
  - apply (hoare_bind _ _ _ (λ _, so_far)); [exact Hlimit|].
    intros [|]; simpl; [|apply reached_reply].
    apply (hoare_bind _ _ _ (λ _, so_far)); [apply Hget|].
    intros mtype. destruct (is_str mtype (lit "chat_message")); [|apply reached_reply].
    apply (hoare_bind _ _ _ (λ _, so_far)); [apply Hget|].
    intros enc. destruct enc as [| | |enc| |]; try apply reached_reply.
    destruct (_ || _); [apply reached_reply|].
    destruct (decrypt_message enc) as [dec|]; [|apply reached_reply].
    destruct (_ || _); [apply reached_reply|].
    apply (hoare_bind _ _ _ (λ _, so_far)); [by apply hoare_gets|].
    intros username. apply (hoare_bind _ _ _ (λ _, so_far)).
    + eapply hoare_weaken; [by apply reached_broadcast|auto|auto|done].
    + intros _. by apply hoare_ret.
Qed.

End Footprint.
Lemma handle_first_reached now ws first st :
  ∃ flow st',
    handle_first now ws first st = Ok flow st' ∧
    reached ws (is_registration first) st st'.
Proof.
  pose proof (reached_guarded ws (is_registration first) st _ now _
                (reached_registration ws _ st now first eq_refl) st (rtc_refl _ _)) as H.
  unfold handle_first. destruct (guarded _ _ _ st) as [flow st'| |]; [|done..].
  by exists flow, st'.
Qed.

Lemma handle_message_reached now nonce ws message st :
  ∃ flow st',
    handle_message now nonce ws message st = Ok flow st' ∧
    reached ws false st st'.
Proof.
  pose proof (reached_guarded ws false st _ now _
                (reached_on_message ws false st now nonce message eq_refl) st (rtc_refl _ _)) as H.
  unfold handle_message. destruct (guarded _ _ _ st) as [flow st'| |]; [|done..].
  by exists flow, st'.
Qed.

Lemma deliver_reached i w w' :
  deliver i w = Some w' →
  reached (stepper i).1 (stepper i).2 (server w) (server w').
Proof.
  destruct i as [ws now first|ws now nonce message]; simpl.
  - case_decide; [done|].
    destruct (handle_first_reached now ws first (server w))
      as (flow & st' & -> & Hreach).
    destruct flow; simpl; by intros [= <-].
  - case_decide; [|done].
    destruct (handle_message_reached now nonce ws message (server w))
      as (flow & st' & -> & Hreach).
    destruct flow; simpl; by intros [= <-].
Qed.

(** ** The buckets *)

Lemma handler_step_metered ws registering st st' :
  handler_step ws registering st st' → metered st → metered st'.
Proof.
  set_aside.
  intros Hstep [Hhas Hcount].
  destruct Hstep as [st now ok st' _ Hrate|st now name _|st ev _ _|st text|st c ev _ _|st c _];
    try done.
  - destruct ok.
    + destruct (rate_limit_admits now ws st st' Hrate) as (b1 & -> & Hb1). split.
      * intros c Hc. simpl. destruct (decide (ws = c)) as [->|Hne].
        -- rewrite lookup_insert_eq. eauto.
        -- rewrite lookup_insert_ne by done. by apply Hhas.
      * intros c b. simpl. destruct (decide (ws = c)) as [->|Hne].
        -- rewrite lookup_insert_eq. intros [= <-].
           destruct Hb1 as [->|(b0 & Hb0 & Hroom & ->)]; simpl;
             [unfold RATE_MAX_MSGS; lia|].
           specialize (Hcount c b0 Hb0). lia.
        -- rewrite lookup_insert_ne by done. apply Hcount.
    + assert (st' = st) as ->; [|done].
      revert Hrate. unfold rate_limit_ok. repeat case_match; by intros [= <-].
  - split; simpl.
    + intros c Hc. destruct (decide (ws = c)) as [->|Hne].
      * rewrite lookup_insert_eq. eauto.
      * rewrite lookup_insert_ne by done. apply Hhas.
        apply elem_of_union in Hc as [->%elem_of_singleton|]; done.
    + intros c b. destruct (decide (ws = c)) as [->|Hne].
      * rewrite lookup_insert_eq. intros [= <-]. simpl. unfold RATE_MAX_MSGS. lia.
      * rewrite lookup_insert_ne by done. apply Hcount.
  - split; simpl.
    + intros c' [Hc' Hne]%elem_of_difference.
      rewrite lookup_delete_ne; [by apply Hhas|].
      intros ->. apply Hne. by apply elem_of_singleton.
    + intros c' b. destruct (decide (c = c')) as [->|Hne].
      * by rewrite lookup_delete_eq.
      * rewrite lookup_delete_ne by done. apply Hcount.
Qed.

Lemma reached_metered ws registering st st' :
  reached ws registering st st' → metered st → metered st'.
Proof.
  induction 1 as [|s s1 s' Hstep _ IH]; [done|].
  intros Hs. apply IH. by eapply handler_step_metered.
Qed.

Lemma run_metered inputs : ∀ w w',
  metered (server w) → run inputs w = Some w' → metered (server w').
Proof.
  induction inputs as [|i inputs IH]; intros w w' Hw; simpl.
  - by intros [= <-].
  - destruct (deliver i w) as [w1|] eqn:Hi; [|done].
    apply IH. eapply reached_metered; [|done]. by apply deliver_reached.
Qed.

(** X14. The part of the registry invariant that does hold for the rate
    buckets, after any frames on any connections and whichever sends fail:
    every registered connection has a bucket, and no bucket ever counts
    below zero or above [RATE_MAX_MSGS]. *)
Theorem buckets_always_metered inputs w :
  run inputs genesis = Some w →
  (∀ c, c ∈ clients (server w) → is_Some (rate_bucket (server w) !! c)) ∧
  (∀ c b, rate_bucket (server w) !! c = Some b →
     0 ≤ count b ≤ RATE_MAX_MSGS)%Z.
Proof.
  intros Hrun. apply (run_metered inputs genesis w); [|done].
  split; simpl; [by intros c ?%not_elem_of_empty|].
  intros c b. by rewrite lookup_empty.
Qed.

(** ** Who is sent what *)

Lemma discreet_mono known known' st :
  discreet known st → known ⊆ known' → discreet known' st.
Proof.
  set_aside.
  intros [Hc Hs] Hsub. split; [by etrans|].
  eapply Forall_impl; [exact Hs|]. intros a [?|?]; [by left|right; by apply Hsub].
Qed.

Lemma discreet_log known c ev ok st :
  discreet known st → is_error ev = true ∨ c ∈ known →
  discreet known (log c ev ok st).
Proof.
  intros [Hc Hs] Hev. split; [done|]. simpl.
  apply Forall_app. split; [done|]. by constructor.
Qed.

Lemma handler_step_discreet known ws registering st st' :
  handler_step ws registering st st' →
  (registering = true → ws ∈ known) →
  discreet known st → discreet known st'.
Proof.
  intros Hstep Hws Hst. pose proof Hst as [Hc Hs].
  destruct Hstep as [st now ok st' _ Hrate|st now name Hreg|st ev Hreg _|st text
                    |st c ev Hin _|st c _].
  - destruct (rate_limit_ok_frame _ _ _ _ _ Hrate) as (Hcl & _ & Hsent).
    split; [by rewrite Hcl|by rewrite Hsent].
  - split; [|done]. simpl. apply union_least; [|done].
    apply singleton_subseteq_l. by apply Hws.
  - apply discreet_log; [done|]. right. by apply Hws.
  - apply discreet_log; [done|]. by left.
  - apply discreet_log; [done|]. right. by apply Hc.
  - split; [|done]. simpl. etrans; [|exact Hc]. apply subseteq_difference_l. done.
Qed.

Lemma reached_discreet known ws registering st st' :
  reached ws registering st st' →
  (registering = true → ws ∈ known) →
  discreet known st → discreet known st'.
Proof.
  induction 1 as [|s s1 s' Hstep _ IH]; [done|].
  intros Hws Hs. apply IH; [done|]. by eapply handler_step_discreet.
Qed.

Lemma registrants_cons i inputs :
  registrants (i :: inputs)
  = from_option singleton ∅ (registrant i) ∪ registrants inputs.
Proof.
  set_aside.
  unfold registrants. simpl. destruct (registrant i); simpl; [done|].
  by rewrite union_empty_l_L.
Qed.

Lemma run_discreet inputs : ∀ known w w',
  discreet known (server w) → run inputs w = Some w' →
  discreet (known ∪ registrants inputs) (server w').
Proof.
  induction inputs as [|i inputs IH]; intros known w w' Hw; simpl.
  - intros [= <-]. eapply discreet_mono; [done|]. apply union_subseteq_l.
  - destruct (deliver i w) as [w1|] eqn:Hi; [|done].
    intros Hrun. rewrite registrants_cons, assoc_L by apply _.
    apply (IH _ w1 w'); [|done].
    eapply reached_discreet; [by apply deliver_reached| |].
    + destruct i as [ws now first|ws now nonce message]; simpl; [|done].
      intros ->. apply elem_of_union_r. by apply elem_of_singleton.
    + eapply discreet_mono; [done|]. apply union_subseteq_l.
Qed.

(** X15. Who is sent what, after any frames on any connections: only a
    connection whose first frame was a registration is ever in the client
    set, and everything the server has sent that is no error event (the
    key, user lists, arrivals, departures and chat messages) went to such
    a connection. *)
Theorem traffic_only_to_registrants inputs w :
  run inputs genesis = Some w →
  clients (server w) ⊆ registrants inputs ∧
  ∀ a, a ∈ sent (server w) → is_error (event a) = false →
       target a ∈ registrants inputs.
Proof.
  intros Hrun.
  destruct (run_discreet inputs ∅ genesis w) as [Hc Hs]; [by split|done|].
  rewrite union_empty_l_L in Hc, Hs. split; [done|].
  intros a Ha Hev. rewrite Forall_forall in Hs.
  destruct (Hs a Ha) as [Herr|?]; [congruence|done].
Qed.
(** ** The client's name at the server *)

Lemma typed_username_sanitized typed :
  sanitize_username isalnum_wide (Some (typed_username typed))
  = sanitize_username isalnum_wide (Some typed).
Proof.
  unfold typed_username, strip_or.
  destruct (strip typed) as [|ch answer] eqn:Hstrip.
  - destruct typed as [|c typed]; [reflexivity|].
    unfold sanitize_username at 2. rewrite Hstrip. reflexivity.
  - destruct typed as [|c typed]; [done|].
    unfold sanitize_username. by rewrite <- Hstrip, strip_idemp.
Qed.

(** X19. The client's [main] trims the typed name and puts the default in
    for a blank one before [connect] sends it; the server sanitizes what
    arrives.  The two compose to the server's sanitizer alone: the name
    registered is the one the server would have stored for the line as it
    was typed. *)
Theorem typed_username_as_stored typed now ws st :
  (∀ n, send_ok n ws = true) →
  ∃ st',
    handle_first now ws (register_frame (typed_username typed)) st
    = Ok Continue st' ∧
    dict_get ws (client_names st')
    = Some (sanitize_username isalnum_wide (Some typed)).
Proof.
  intros Hok.
  destruct (username_argument_str (typed_username typed)) as (arg & Harg & Hsame).
  destruct (registration_log now ws
              [(lit "type", JStr (lit "register"));
               (lit "username", JStr (typed_username typed))] arg st)
    as (st' & later & Hrun & _ & Hstored & _); [done|exact Harg|done|].
  exists st'. split; [exact Hrun|].
  by rewrite Hstored, Hsame, typed_username_sanitized.
Qed.


(** ** From one keyboard to another screen *)

(** The log of a turn that relays a chat message. *)
Lemma chat_relay_log now nonce ws members st st1 enc dec :
  dict_get (lit "type") members = Some (JStr (lit "chat_message")) →
  rate_limit_ok now ws st = Ok true st1 →
  default JNull (dict_get (lit "content") members) = JStr enc →
  (0 < len enc ≤ MAX_ENCRYPTED_LEN)%Z →
  decrypt enc = Some dec →
  (0 < len dec ≤ MAX_PLAINTEXT_LEN)%Z →
  let relayed :=
    ChatMessage (default (lit "?") (dict_get ws (client_names st)))
                (encrypt nonce dec) now in
  let tried :=
    attempts relayed (λ _, false) (elements (clients st)) (List.length (sent st)) in
  ∃ st' later,
    handle_message now nonce ws (Json (JObj members)) st = Ok Continue st' ∧
    sent st' = sent st ++ tried ++ later ∧
    Forall (λ a, is_user_left (event a) = true) later.
Proof.
  intros Htype Hrate Hcontent Hlen Hdec Hdlen relayed tried.
  destruct (rate_limit_ok_frame _ _ _ _ _ Hrate) as (Hclients & Hnames & Hsent).
  destruct (chat_relayed now nonce ws members st st1 enc dec)
    as (st' & Hcast & Hrun); [done..|].
  destruct (broadcast_message_spec now relayed (Some ws) true st1)
    as (st'' & Hcast' & Hclean).
  fold relayed in Hcast. rewrite Hcast in Hcast'. injection Hcast' as <-.
  cbv beta zeta in Hclean. rewrite Hclients, Hsent in Hclean.
  change (attempts relayed _ (elements (clients st)) (List.length (sent st)))
    with tried in Hclean.
  assert (Hsteps : rtc (cleanup_step (λ _, True)) (emit tried st1) st').
  { eapply for_each_unregister_steps; [done|done|exact Hclean]. }
  destruct (steps_sent _ _ _ Hsteps) as (later & Hlog & Hlater).
  simpl in Hlog. rewrite Hsent, <- app_assoc in Hlog.
  exists st', later. split; [done|]. split; [done|].
  eapply Forall_impl; [exact Hlater|]. by intros a [_ ?].
Qed.

Section EndToEnd.

(** The cipher's round trip, and the client's side of the wire. *)
Hypothesis decrypt_encrypt :
  ∀ nonce plaintext, decrypt (encrypt nonce plaintext) = Some plaintext.

Variable fernet : json → option Client.Cipher.
Variable clock : pystr → option pystr.
Variable lower : pystr → pystr.
Variable posting_ok : nat → bool.
Variable key_b64 : pystr.
Variable isoformat : Z → pystr.


End EndToEnd.


(** * The handlers among each other *)

Lemma bind_ext {A B} (m m' : M A) (f f' : A → M B) st :
  m st = m' st → (∀ a s, f a s = f' a s) → (m ≫= f) st = (m' ≫= f') st.
Proof.
  intros Hm Hf. unfold mbind, M_bind. rewrite Hm. by destruct (m' st).
Qed.

Lemma for_each_ext {A} (body body' : A → M unit) l :
  (∀ x s, body x s = body' x s) →
  ∀ st, for_each body l st = for_each body' l st.
Proof.
  intros Hbody. induction l as [|x l IH]; intros st; simpl; [done|].
  apply bind_ext; [apply Hbody|]. intros _ s. apply IH.
Qed.

Lemma for_each_raises {A} (body : A → M unit) (P : Exn → Prop) l :
  (∀ x st e st', body x st = Raise e st' → P e) →
  ∀ st e st', for_each body l st = Raise e st' → P e.
Proof.
  intros Hbody. induction l as [|x l IH]; intros st e st'; simpl; [done|].
  unfold mbind, M_bind. destruct (body x st) as [[] s| |] eqn:Hx; [apply IH| |done].
  intros [= <- <-]. by eapply Hbody.
Qed.

Section Interleaving.

Variable meanwhile : nat → Server → Server.
Variable resumed : nat → gset conn → list conn → list conn.

(** The loop as far as nobody interferes: over a first part [pre] of what
    the iterator has to yield it does what [send_each] does. *)
Lemma send_each_live_prefix message skip used seen rest steps L N : ∀ pre disc st,
  size (clients st) = used →
  clients st = seen →
  (∀ n s, L ≤ n < N → meanwhile n s = s) →
  L ≤ List.length (sent st) →
  List.length (sent st) + List.length (attempts message skip pre (List.length (sent st))) ≤ N →
  send_each_live meanwhile resumed (List.length pre + steps) message skip
    used seen (pre ++ rest) disc st
  = send_each_live meanwhile resumed steps message skip used seen rest
      (disc ++ failures (attempts message skip pre (List.length (sent st))))
      (emit (attempts message skip pre (List.length (sent st))) st).
Proof.
  induction pre as [|c pre IH]; intros disc st Hused Hseen Hquiet HL HN.
  - simpl. unfold failures. simpl. by rewrite app_nil_r, emit_nil.
  - cbn [List.length Nat.add app send_each_live].
    rewrite decide_True by done. rewrite decide_True by done.
    cbn [attempts] in *. destruct (skip c) eqn:Hskip.
    + rewrite Hseen. by apply IH.
    + cbn [List.length] in HN.
      unfold mbind, M_bind, transmit_live.
      rewrite Hquiet by lia.
      assert (Hlen : List.length (sent (log c message (send_ok (List.length (sent st)) c) st))
                     = S (List.length (sent st))).
      { simpl. rewrite length_app. simpl. lia. }
      rewrite Hseen.
      destruct (send_ok (List.length (sent st)) c) eqn:Hok;
        (rewrite IH; [|done|done|done|rewrite Hlen; lia|rewrite Hlen; lia]);
        rewrite Hlen, log_emit, emit_emit; unfold failures; simpl; rewrite ?Hok; simpl.
      * reflexivity.
      * by rewrite <- app_assoc.
Qed.

Lemma attempts_length message skip cs n :
  List.length (attempts message skip cs n)
  = List.length (List.filter (λ c, negb (skip c)) cs).
Proof. by rewrite <- (attempts_targets message skip cs n), length_map. Qed.

Lemma send_each_live_quiet message skip cs disc st :
  quiet meanwhile →
  send_each_live meanwhile resumed (S (List.length cs)) message skip
    (size (clients st)) (clients st) cs disc st
  = send_each message skip cs disc st.
Proof.
  intros Hquiet.
  pose proof (send_each_live_prefix message skip (size (clients st)) (clients st) [] 1
                (List.length (sent st))
                (List.length (sent st)
                 + List.length (attempts message skip cs (List.length (sent st))))
                cs disc st eq_refl eq_refl) as Hpre.
  rewrite app_nil_r, Nat.add_1_r in Hpre.
  rewrite Hpre; [|by intros n s _|done|done].
  rewrite send_each_spec. simpl.
  rewrite decide_True by done. by rewrite decide_True by done.
Qed.

(** The loop when the set has another size after an awaited send. *)
Lemma send_each_live_changed message skip used seen c rest disc steps st :
  size (clients st) = used →
  clients st = seen →
  skip c = false →
  let n := List.length (sent st) in
  let st1 := meanwhile n (log c message (send_ok n c) st) in
  size (clients st1) ≠ used →
  send_each_live meanwhile resumed (S (S steps)) message skip used seen
    (c :: rest) disc st
  = Raise RuntimeError st1.
Proof.
  intros Hused Hseen Hskip n st1 Hsize.
  cbn [send_each_live].
  rewrite decide_True by done. rewrite decide_True by done. rewrite Hskip.
  unfold mbind, M_bind, transmit_live. fold n. fold st1.
  destruct (send_ok n c); by rewrite decide_False by done.
Qed.

Lemma send_each_live_raises message skip used steps : ∀ seen todo disc st e st',
  send_each_live meanwhile resumed steps message skip used seen todo disc st
  = Raise e st' →
  e = RuntimeError.
Proof.
  induction steps as [|steps IH]; intros seen todo disc st e st'; [done|].
  cbn [send_each_live]. case_decide; [|by intros [= <- _]].
  destruct (if decide (clients st = seen) then todo else _) as [|c todo']; [done|].
  destruct (skip c); [apply IH|].
  unfold mbind, M_bind, transmit_live. destruct (send_ok _ c); apply IH.
Qed.

Lemma broadcast_with_live_quiet cleanup cleanup' message exclude echo st :
  quiet meanwhile →
  (∀ c s, cleanup' c s = cleanup c s) →
  broadcast_with_live meanwhile resumed cleanup' message exclude echo st
  = broadcast_with cleanup message exclude echo st.
Proof.
  intros Hquiet Hclean. unfold broadcast_with_live, broadcast_with.
  case_decide; [done|].
  apply bind_ext; [apply (send_each_live_quiet _ _ _ _ _ Hquiet)|].
  intros disconnected s. by apply for_each_ext.
Qed.

Lemma unregister_client_live_fuel_quiet fuel now :
  quiet meanwhile →
  ∀ ws st, unregister_client_live_fuel meanwhile resumed fuel now ws st
           = unregister_client_fuel fuel now ws st.
Proof.
  intros Hquiet. induction fuel as [|fuel IH]; intros ws st; simpl; [done|].
  case_decide; [|done]. by apply broadcast_with_live_quiet.
Qed.

Lemma unregister_client_live_quiet now ws st :
  quiet meanwhile →
  unregister_client_live meanwhile resumed now ws st = unregister_client now ws st.
Proof. intros Hquiet. by apply unregister_client_live_fuel_quiet. Qed.

Lemma broadcast_message_live_quiet now message exclude echo st :
  quiet meanwhile →
  broadcast_message_live meanwhile resumed now message exclude echo st
  = broadcast_message now message exclude echo st.
Proof.
  intros Hquiet. apply broadcast_with_live_quiet; [done|].
  by apply unregister_client_live_fuel_quiet.
Qed.

Lemma send_live_quiet c ev st :
  quiet meanwhile → send_live meanwhile c ev st = send c ev st.
Proof.
  intros Hquiet. unfold send_live, send, mbind, M_bind, transmit_live, transmit.
  by rewrite Hquiet.
Qed.

Lemma reply_live_quiet c text (flow : Flow) st :
  quiet meanwhile →
  (_ ← send_live meanwhile c (Error text); mret flow) st
  = (_ ← send c (Error text); mret flow) st.
Proof. intros Hquiet. apply bind_ext; [by apply send_live_quiet|done]. Qed.

Lemma register_client_live_quiet now ws name st :
  quiet meanwhile →
  register_client_live meanwhile resumed now ws name st
  = register_client now ws name st.
Proof.
  intros Hquiet. unfold register_client_live, register_client.
  apply bind_ext; [done|]. intros _ s.
  apply bind_ext; [by apply send_live_quiet|]. intros _ s'.
  by apply broadcast_message_live_quiet.
Qed.

Lemma registration_live_quiet now ws first st :
  quiet meanwhile →
  registration_live meanwhile resumed now ws first st
  = registration now ws first st.
Proof.
  intros Hquiet. unfold registration_live, registration.
  destruct first as [| | |data]; [done|by apply reply_live_quiet|done|].
  apply bind_ext; [done|]. intros ty s.
  destruct (negb _); [by apply reply_live_quiet|].
  apply bind_ext; [done|]. intros raw s1.
  apply bind_ext; [done|]. intros username s2.
  apply bind_ext; [by apply register_client_live_quiet|]. intros _ s3.
  apply bind_ext; [done|]. intros users s4.
  apply bind_ext; [by apply send_live_quiet|done].
Qed.

Lemma on_message_live_quiet now nonce ws message st :
  quiet meanwhile →
  on_message_live meanwhile resumed now nonce ws message st
  = on_message now nonce ws message st.
Proof.
  intros Hquiet. unfold on_message_live, on_message.
  destruct message as [| | |data]; [done|..];
    (apply bind_ext; [done|]); intros ok s;
    (destruct (negb ok); [by apply reply_live_quiet|]).
  - by apply reply_live_quiet.
  - done.
  - apply bind_ext; [done|]. intros mtype s1.
    destruct (is_str mtype _); [|by apply reply_live_quiet].
    apply bind_ext; [done|]. intros enc s2.
    destruct enc as [| | |enc| |]; try by apply reply_live_quiet.
    destruct (_ || _); [by apply reply_live_quiet|].
    destruct (decrypt_message enc) as [dec|]; [|by apply reply_live_quiet].
    destruct (_ || _); [by apply reply_live_quiet|].
    apply bind_ext; [done|]. intros username s3.
    apply bind_ext; [by apply broadcast_message_live_quiet|done].
Qed.

Lemma guarded_live_quiet now ws body body' st :
  quiet meanwhile →
  body' st = body st →
  guarded_live meanwhile resumed now ws body' st = guarded now ws body st.
Proof.
  intros Hquiet Hbody. unfold guarded_live, guarded. rewrite Hbody.
  destruct (body st) as [[|] s|e s|]; try done;
    (apply bind_ext; [by apply unregister_client_live_quiet|done]).
Qed.

(** With nobody else running, the handlers are the ones of the first
    part. *)
Lemma handle_first_live_quiet now ws first st :
  quiet meanwhile →
  handle_first_live meanwhile resumed now ws first st = handle_first now ws first st.
Proof.
  intros Hquiet. apply guarded_live_quiet; [done|].
  by apply registration_live_quiet.
Qed.

Lemma handle_message_live_quiet now nonce ws message st :
  quiet meanwhile →
  handle_message_live meanwhile resumed now nonce ws message st
  = handle_message now nonce ws message st.
Proof.
  intros Hquiet. apply guarded_live_quiet; [done|].
  by apply on_message_live_quiet.
Qed.

(** The broadcast in which the set has another size after the send to [c]
    came back, nothing having happened before: the exception leaves
    [broadcast_message] with the clients after [c] not tried and nobody
    cleaned up. *)
Lemma broadcast_with_live_disturbed cleanup message exclude echo st pre c rest :
  let skip := λ client, negb echo && bool_decide (Some client = exclude) in
  elements (clients st) = pre ++ c :: rest →
  skip c = false →
  let tried := attempts message skip pre (List.length (sent st)) in
  let n := List.length (sent st) + List.length tried in
  (∀ k s, List.length (sent st) ≤ k < n → meanwhile k s = s) →
  let st1 := meanwhile n (log c message (send_ok n c) (emit tried st)) in
  size (clients st1) ≠ size (clients st) →
  broadcast_with_live meanwhile resumed cleanup message exclude echo st
  = Raise RuntimeError st1.
Proof.
  intros skip Hcs Hskip tried n Hquiet st1 Hsize.
  unfold broadcast_with_live.
  rewrite decide_False.
  2:{ intros Hempty. rewrite Hempty, elements_empty in Hcs. by destruct pre. }
  assert (Hlen : S (size (clients st)) = List.length pre + S (S (List.length rest))).
  { unfold size, set_size. simpl. rewrite Hcs, length_app. simpl. lia. }
  unfold mbind, M_bind. rewrite Hlen, Hcs. fold skip.
  rewrite (send_each_live_prefix message skip (size (clients st)) (clients st)
             (c :: rest) (S (S (List.length rest))) (List.length (sent st)) n pre [] st
             eq_refl eq_refl Hquiet)
    by done.
  rewrite (send_each_live_changed message skip (size (clients st)) (clients st)
             c rest _ (List.length rest) (emit tried st) eq_refl eq_refl Hskip).
  - simpl. rewrite length_app. done.
  - simpl. rewrite length_app. exact Hsize.
Qed.

Lemma unregister_client_live_fuel_raises fuel now : ∀ ws st e st',
  unregister_client_live_fuel meanwhile resumed fuel now ws st = Raise e st' →
  e = RuntimeError.
Proof.
  induction fuel as [|fuel IH]; intros ws st e st'; simpl; [done|].
  case_decide; [|done]. unfold broadcast_with_live. case_decide; [done|].
  unfold mbind, M_bind.
  destruct (send_each_live _ _ _ _ _ _ _ _ _ _) as [disc s|e' s|] eqn:Hloop; [| |done].
  - apply (for_each_raises _ (λ e, e = RuntimeError)). intros x s0 e0 s1. apply IH.
  - intros [= <- _]. by eapply send_each_live_raises.
Qed.

(** Whatever the body raises is caught; what leaves a handler is the
    [RuntimeError] of a broadcast loop in its cleanup. *)
Lemma guarded_live_raises now ws body st e st' :
  guarded_live meanwhile resumed now ws body st = Raise e st' →
  e = RuntimeError.
Proof.
  unfold guarded_live.
  assert (Hun : ∀ s, (_ ← unregister_client_live meanwhile resumed now ws; mret Closed) s
                     = Raise e st' → e = RuntimeError).
  { intros s. unfold mbind, M_bind.
    destruct (unregister_client_live _ _ now ws s) as [[] s'|e' s'|] eqn:Hrun; [done| |done].
    intros [= <- _]. by eapply unregister_client_live_fuel_raises. }
  destruct (body st) as [[|] s|e' s|]; [done|apply Hun|apply Hun|done].
Qed.

Lemma attempts_delivered message skip cs n c :
  c ∈ cs → skip c = false → (∀ k, send_ok k c = true) →
  mkAttempt c message true ∈ attempts message skip cs n.
Proof.
  intros Hc Hskip Hgood.
  assert (Hin : c ∈ map target (attempts message skip cs n)).
  { rewrite attempts_targets. apply list_elem_of_In, filter_In.
    split; [by apply list_elem_of_In|by rewrite Hskip]. }
  apply list_elem_of_fmap in Hin as (a & -> & Ha).
  pose proof (attempts_events message skip cs n) as Hev.
  rewrite Forall_forall in Hev. specialize (Hev a Ha).
  pose proof Ha as Ha'. apply list_elem_of_lookup in Ha' as [i Hi].
  apply attempts_outcome in Hi. rewrite Hgood in Hi.
  destruct a as [c ev ok]. simpl in *. by subst.
Qed.

Lemma unregister_client_departure now ws body st st1 :
  ends body st st1 →
  ws ∈ clients st1 →
  departure now ws st1 (guarded now ws body st).
Proof.
  intros Hends Hin.
  destruct (unregister_client_outcome now ws st1 Hin)
    as (st' & later & Hrun & Hsent & Htargets & Hev & Hout & Hnot & Hiff & Hgone).
  exists st', later.
  split.
  { unfold guarded. destruct Hends as [->|[e ->]];
      by rewrite (bind_ok _ _ _ _ _ Hrun). }
  split; [exact Hsent|]. split; [exact Htargets|]. split; [exact Hev|].
  split; [exact Hout|].
  split.
  { intros c Hc Hgood. apply attempts_delivered; [by apply elem_of_elements|done|done]. }
  split; [exact Hnot|]. split; [exact Hiff|exact Hgone].
Qed.

(** C8 (where the code departs).  With no other handler running during the
    awaited sends, a broadcast does what the specification says: it tries
    every client it does not skip, once and in the set's order, whatever
    happens to the others; the clients whose attempt failed are collected
    and go through [unregister_client] after the loop; none of them is
    registered afterwards, and a client whose sends never fail stays
    registered and, unless skipped, has the message.  But the loop runs
    over the client set itself: if the set has another size when the send
    to some client [c] comes back (another handler has registered or
    unregistered a connection in the meantime), the iterator raises
    [RuntimeError] outside the loop's [try]; the clients after [c] are
    never tried, the failures collected so far are not cleaned up, and the
    exception leaves [broadcast_message]. *)
Theorem broadcast_isolates_failures now message exclude echo st :
  let skip := λ client, negb echo && bool_decide (Some client = exclude) in
  (quiet meanwhile →
   let tried :=
     attempts message skip (elements (clients st)) (List.length (sent st)) in
   ∃ st' cleanup_log,
     broadcast_message_live meanwhile resumed now message exclude echo st
     = Ok tt st' ∧
     map target tried = List.filter (λ c, negb (skip c)) (elements (clients st)) ∧
     Forall (λ a, event a = message) tried ∧
     (∀ i a, tried !! i = Some a →
        delivered a = send_ok (List.length (sent st) + i) (target a)) ∧
     sent st' = sent st ++ tried ++ cleanup_log ∧
     Forall (λ a, is_user_left (event a) = true) cleanup_log ∧
     for_each (unregister_client_live_fuel meanwhile resumed (fuel_for st) now)
       (failures tried) (emit tried st)
     = Ok tt st' ∧
     (∀ c, c ∈ failures tried → c ∉ clients st') ∧
     (∀ c, c ∈ clients st → (∀ n, send_ok n c = true) →
        c ∈ clients st' ∧ (skip c = false → mkAttempt c message true ∈ tried))) ∧
  (∀ pre c rest,
     elements (clients st) = pre ++ c :: rest →
     skip c = false →
     let tried := attempts message skip pre (List.length (sent st)) in
     let n := List.length (sent st) + List.length tried in
     (∀ k s, List.length (sent st) ≤ k < n → meanwhile k s = s) →
     let st1 := meanwhile n (log c message (send_ok n c) (emit tried st)) in
     size (clients st1) ≠ size (clients st) →
     broadcast_message_live meanwhile resumed now message exclude echo st
     = Raise RuntimeError st1).
Proof.
  intros skip. split.
  - intros Hquiet tried.
    destruct (broadcast_message_outcome now message exclude echo st)
      as (st' & cleanup_log & Hrun & Htargets & Hev & Hout & Hsent & Hlog & Hclean
          & Hgone & Hkept).
    exists st', cleanup_log.
    split; [by rewrite broadcast_message_live_quiet|].
    split; [exact Htargets|]. split; [exact Hev|]. split; [exact Hout|].
    split; [exact Hsent|]. split; [exact Hlog|].
    split; [|split; [exact Hgone|exact Hkept]].
    rewrite <- Hclean. apply for_each_ext. intros c s.
    by apply unregister_client_live_fuel_quiet.
  - intros pre c rest Hcs Hskip tried n Hquiet st1 Hsize.
    unfold broadcast_message_live.
    by apply (broadcast_with_live_disturbed _ message exclude echo st pre c rest).
Qed.


(** The cleanup of a handler in which the set has another size after the
    first notice came back. *)
Lemma guarded_live_disturbed now ws body st st0 c rest :
  ends body st st0 →
  ws ∈ clients st0 →
  elements (clients st0 ∖ {[ws]}) = c :: rest →
  let name :=
    default (lit "Usuario desconocido") (dict_get ws (client_names st0)) in
  let n := List.length (sent st0) in
  let st1 :=
    meanwhile n
      (log c (UserLeft name now (msg_left name)) (send_ok n c) (forget ws st0)) in
  size (clients st1) ≠ size (clients st0 ∖ {[ws]}) →
  guarded_live meanwhile resumed now ws body st = Raise RuntimeError st1.
Proof.
  intros Hends Hin Hcs name n st1 Hsize.
  assert (Hrun : unregister_client_live meanwhile resumed now ws st0
                 = Raise RuntimeError st1).
  { unfold unregister_client_live, fuel_for. cbn [unregister_client_live_fuel].
    rewrite decide_True by done.
    rewrite (broadcast_with_live_disturbed _ _ None true (forget ws st0) [] c rest);
      [|exact Hcs|done|simpl; intros k s; lia|].
    - simpl. by rewrite Nat.add_0_r, emit_nil.
    - simpl. rewrite Nat.add_0_r, emit_nil. exact Hsize. }
  unfold guarded_live.
  destruct Hends as [->|[e ->]]; unfold mbind, M_bind; by rewrite Hrun.
Qed.


End Interleaving.



(** ** The footprint of a handler step among the others *)

Lemma partial_bind {A B} (P : Server → Prop) (m : M A) (f : A → M B) R Q E :
  hoare_partial P m R E → (∀ a, hoare_partial (R a) (f a) Q E) →
  hoare_partial P (m ≫= f) Q E.
Proof.
  intros Hm Hf st Hst. specialize (Hm st Hst). unfold mbind, M_bind.
  destruct (m st) as [a st'| |]; [|done..]. by apply Hf.
Qed.

Lemma partial_for_each {A} (body : A → M unit) (Inv : Server → Prop) l :
  (∀ x, hoare_partial Inv (body x) (λ _, Inv) Inv) →
  hoare_partial Inv (for_each body l) (λ _, Inv) Inv.
Proof.
  intros Hbody. induction l as [|x l IH]; simpl; [by intros st Hst|].
  apply (partial_bind _ _ _ (λ _, Inv)); [apply Hbody|]. intros _. exact IH.
Qed.

Section LiveFootprint.

Variable meanwhile : nat → Server → Server.
Variable resumed : nat → gset conn → list conn → list conn.
Variable ws : conn.
Variable registering : bool.
Variable st0 : Server.

(** The iterator yields connections of the set only. *)
Hypothesis resumed_members : ∀ n cs todo c, c ∈ resumed n cs todo → c ∈ cs.

Local Abbreviation along := (reached_live meanwhile ws registering st0).
Local Abbreviation keeps m := (hoare_partial along m (λ _, along) along).

Lemma along_own st st' :
  along st → handler_step ws registering st st' → along st'.
Proof. intros Hst Hstep. eapply rtc_r; [exact Hst|]. by apply ls_own. Qed.

Lemma along_others st n : along st → along (meanwhile n st).
Proof. intros Hst. eapply rtc_r; [exact Hst|]. apply ls_others. Qed.

Lemma along_transmit c ev :
  (∀ st, along st →
     handler_step ws registering st
       (log c ev (send_ok (List.length (sent st)) c) st)) →
  hoare_partial along (transmit_live meanwhile c ev) (λ _, along) along.
Proof.
  intros Hstep st Hst. unfold transmit_live.
  apply along_others. eapply along_own; [exact Hst|]. by apply Hstep.
Qed.

Lemma along_send c ev :
  (∀ st, along st →
     handler_step ws registering st
       (log c ev (send_ok (List.length (sent st)) c) st)) →
  keeps (send_live meanwhile c ev).
Proof.
  intros Hstep. unfold send_live.
  apply (partial_bind _ _ _ (λ _, along)); [by apply along_transmit|].
  intros [|] st Hst; exact Hst.
Qed.

Lemma along_error text : keeps (send_live meanwhile ws (Error text)).
Proof. apply along_send. intros st _. apply hs_error. Qed.

Lemma along_greet ev :
  registering = true → is_greeting ev = true →
  keeps (send_live meanwhile ws ev).
Proof. intros Hreg Hev. apply along_send. intros st _. by apply hs_greet. Qed.

Lemma along_reply text (flow : Flow) :
  keeps (_ ← send_live meanwhile ws (Error text); mret flow).
Proof.
  apply (partial_bind _ _ _ (λ _, along)); [apply along_error|].
  intros _ st Hst. exact Hst.
Qed.

Lemma along_send_each message skip used steps : ∀ seen todo disc,
  is_broadcast message = true →
  (∀ c, c ∈ todo → c ∈ seen) →
  keeps (send_each_live meanwhile resumed steps message skip used seen todo disc).
Proof using Type resumed_members.
  induction steps as [|steps IH]; intros seen todo disc Hev Htodo st Hst; [done|].
  cbn [send_each_live]. case_decide as Hused; [|exact Hst].
  set (todo1 := if decide (clients st = seen) then todo
                else resumed (List.length (sent st)) (clients st) todo).
  assert (Hin : ∀ c, c ∈ todo1 → c ∈ clients st).
  { intros c. unfold todo1. case_decide as Hseen; [rewrite Hseen; apply Htodo|].
    apply resumed_members. }
  destruct todo1 as [|c todo']; [exact Hst|].
  assert (Hrest : ∀ c', c' ∈ todo' → c' ∈ clients st).
  { intros c' Hc'. apply Hin. by apply list_elem_of_further. }
  destruct (skip c); [by apply IH|].
  unfold mbind, M_bind, transmit_live.
  assert (Hsent : along (meanwhile (List.length (sent st))
                           (log c message (send_ok (List.length (sent st)) c) st))).
  { apply along_others. eapply along_own; [exact Hst|].
    apply hs_cast; [|done]. apply Hin, list_elem_of_here. }
  destruct (send_ok (List.length (sent st)) c); by apply IH.
Qed.

Lemma along_broadcast_with cleanup message exclude echo :
  is_broadcast message = true →
  (∀ c, keeps (cleanup c)) →
  keeps (broadcast_with_live meanwhile resumed cleanup message exclude echo).
Proof using Type resumed_members.
  intros Hev Hclean st Hst. unfold broadcast_with_live.
  case_decide; [exact Hst|].
  refine (partial_bind along _ _ (λ _, along) _ _ _ _ st Hst).
  - apply along_send_each; [done|]. intros c Hc. by apply elem_of_elements in Hc.
  - intros disconnected. by apply partial_for_each.
Qed.

Lemma along_unregister_fuel fuel now : ∀ c,
  keeps (unregister_client_live_fuel meanwhile resumed fuel now c).
Proof using Type resumed_members.
  induction fuel as [|fuel IH]; intros c st Hst; simpl; [done|].
  case_decide as Hin; [|exact Hst].
  apply along_broadcast_with; [done|exact IH|].
  eapply along_own; [exact Hst|]. by apply hs_forget.
Qed.

Lemma along_unregister now c :
  keeps (unregister_client_live meanwhile resumed now c).
Proof using Type resumed_members.
  intros st Hst. by apply along_unregister_fuel.
Qed.

Lemma along_broadcast now message exclude echo :
  is_broadcast message = true →
  keeps (broadcast_message_live meanwhile resumed now message exclude echo).
Proof using Type resumed_members.
  intros Hev st Hst. unfold broadcast_message_live.
  apply along_broadcast_with; [done| |done]. apply along_unregister_fuel.
Qed.

Lemma along_register_client now username :
  registering = true →
  keeps (register_client_live meanwhile resumed now ws username).
Proof using Type resumed_members.
  intros Hreg. unfold register_client_live.
  apply (partial_bind _ _ _ (λ _, along)).
  { intros st Hst. eapply along_own; [done|]. by apply hs_enroll. }
  intros _. apply (partial_bind _ _ _ (λ _, along)); [by apply along_greet|].
  intros _. by apply along_broadcast.
Qed.

Lemma along_registration now first :
  registering = is_registration first →
  keeps (registration_live meanwhile resumed now ws first).
Proof using Type resumed_members.
  intros Hreg. unfold registration_live. destruct first as [| | |data].
  - by intros st Hst.
  - apply along_reply.
  - by intros st Hst.
  - destruct data as [| | | | |members]; try (intros st Hst; exact Hst).
    simpl in Hreg.
    intros st Hst.
    rewrite (bind_ok (py_get (JObj members) (lit "type")) _ st
               (default JNull (dict_get (lit "type") members)) st eq_refl).
    revert st Hst.
    destruct (is_str _ (lit "register")); cbv beta iota delta [negb].
    + apply (partial_bind _ _ _ (λ _, along)); [by intros st Hst|].
      intros raw. apply (partial_bind _ _ _ (λ _, along)).
      { intros st Hst. unfold call_sanitize_username.
        destruct (negb (truthy raw)); [done|]. by destruct raw. }
      intros username.
      apply (partial_bind _ _ _ (λ _, along)); [by apply along_register_client|].
      intros _. apply (partial_bind _ _ _ (λ _, along)); [by intros st Hst|].
      intros users.
      apply (partial_bind _ _ _ (λ _, along)); [by apply along_greet|].
      intros _. by intros st Hst.
    + apply along_reply.
Qed.

Lemma along_on_message now nonce message :
  registering = false →
  keeps (on_message_live meanwhile resumed now nonce ws message).
Proof using Type resumed_members.
  intros Hreg. unfold on_message_live.
  assert (Hlimit : keeps (rate_limit_ok now ws)).
  { intros st Hst. destruct (rate_limit_returns now ws st) as (ok & st1 & Hrate).
    rewrite Hrate. eapply along_own; [done|]. by eapply hs_limit. }
  assert (Hget : ∀ data key, keeps (py_get data key)).
  { intros data key st Hst. by destruct data. }
  destruct message as [| | |data].
  - by intros st Hst.
  - apply (partial_bind _ _ _ (λ _, along)); [exact Hlimit|].
    intros [|]; simpl; apply along_reply.
  - apply (partial_bind _ _ _ (λ _, along)); [exact Hlimit|].
    intros [|]; simpl; [by intros st Hst|apply along_reply].
  - apply (partial_bind _ _ _ (λ _, along)); [exact Hlimit|].
    intros [|]; simpl; [|apply along_reply].
    apply (partial_bind _ _ _ (λ _, along)); [apply Hget|].
    intros mtype. destruct (is_str mtype (lit "chat_message")); [|apply along_reply].
    apply (partial_bind _ _ _ (λ _, along)); [apply Hget|].
    intros enc. destruct enc as [| | |enc| |]; try apply along_reply.
    destruct (_ || _); [apply along_reply|].
    destruct (decrypt_message enc) as [dec|]; [|apply along_reply].
    destruct (_ || _); [apply along_reply|].
    apply (partial_bind _ _ _ (λ _, along)); [by intros st Hst|].
    intros username. apply (partial_bind _ _ _ (λ _, along)).
    + by apply along_broadcast.
    + intros _. by intros st Hst.
Qed.

Lemma along_guarded now body :
  keeps body → keeps (guarded_live meanwhile resumed now ws body).
Proof using Type resumed_members.
  intros Hbody st Hst. specialize (Hbody st Hst). unfold guarded_live.
  destruct (body st) as [[|] st'|e st'|]; [done| | |done];
    pose proof (along_unregister now ws st' Hbody) as Hun;
    unfold mbind, M_bind;
    by destruct (unregister_client_live _ _ now ws st') as [[] st''| |].
Qed.

End LiveFootprint.



End Server.

(** * The client's command line *)

Lemma startswith_app s prefix : startswith (prefix ++ s) prefix = true.
Proof.
  induction prefix as [|p prefix IH]; simpl; [by destruct s|].
  by rewrite N.eqb_refl.
Qed.

Lemma startswith_inv s prefix :
  startswith s prefix = true → ∃ rest, s = prefix ++ rest.
Proof.
  revert s. induction prefix as [|p prefix IH]; intros s; simpl.
  - intros _. by exists s.
  - destruct s as [|ch s]; [done|].
    intros [Hch Hs]%andb_true_iff. apply N.eqb_eq in Hch as ->.
    destruct (IH s Hs) as [rest ->]. by exists rest.
Qed.

Lemma replace_from_skips old new skipped s :
  replace_from old new (List.length skipped) (skipped ++ s)
  = replace_from old new 0 s.
Proof. induction skipped as [|ch skipped IH]; [done|exact IH]. Qed.

(** An occurrence at the start is replaced, and the scan goes on behind
    it. *)
Lemma replace_at_start first old new s :
  replace ((first :: old) ++ s) (first :: old) new
  = new ++ replace s (first :: old) new.
Proof.
  unfold replace. cbn [app replace_from].
  change (first :: old ++ s) with ((first :: old) ++ s).
  rewrite startswith_app. f_equal.
  replace (List.length (first :: old) - 1) with (List.length old) by (simpl; lia).
  apply replace_from_skips.
Qed.

(** A stretch in which the first character of [old] does not occur is
    copied as it is. *)
Lemma replace_keeps first old new kept s :
  Forall (λ ch, ch ≠ first) kept →
  replace (kept ++ s) (first :: old) new = kept ++ replace s (first :: old) new.
Proof.
  unfold replace. induction 1 as [|ch kept Hch _ IH]; [done|].
  cbn [app replace_from startswith].
  rewrite (proj2 (N.eqb_neq ch first) Hch). cbn [andb]. by rewrite IH.
Qed.

Lemma replace_absent first old new s :
  contains s (first :: old) = false → replace s (first :: old) new = s.
Proof.
  unfold replace. induction s as [|ch s IH]; [done|].
  cbn [contains replace_from]. intros [Hhere Hlater]%orb_false_iff.
  rewrite Hhere. f_equal. by apply IH.
Qed.

Lemma wss_has_no_h : Forall (λ ch, ch ≠ 104%N) (lit "wss://").
Proof. repeat constructor; discriminate. Qed.

(** Whatever was typed, the URL is "wss://" and something behind it. *)
Lemma ngrok_url_scheme typed : ∃ rest, ngrok_url typed = lit "wss://" ++ rest.
Proof.
  unfold ngrok_url. cbv zeta.
  destruct (startswith (strip typed) (lit "https://")) eqn:Hhttps.
  - apply startswith_inv in Hhttps as [rest ->]. cbn [negb andb].
    change (lit "https://") with (104%N :: lit "ttps://").
    rewrite replace_at_start.
    change (lit "http://") with (104%N :: lit "ttp://").
    rewrite (replace_keeps _ _ _ _ _ wss_has_no_h). eauto.
  - cbn [negb andb].
    destruct (startswith (strip typed) (lit "wss://")) eqn:Hwss;
      cbn [negb]; [|eauto].
    apply startswith_inv in Hwss as [rest ->].
    change (lit "https://") with (104%N :: lit "ttps://").
    rewrite (replace_keeps _ _ _ _ _ wss_has_no_h).
    change (lit "http://") with (104%N :: lit "ttp://").
    rewrite (replace_keeps _ _ _ _ _ wss_has_no_h). eauto.
Qed.

(** X16. In ngrok mode the URL handed to [connect] starts with "wss://",
    whatever was typed at the prompt. *)
Theorem ngrok_url_is_wss typed :
  startswith (ngrok_url typed) (lit "wss://") = true.
Proof.
  destruct (ngrok_url_scheme typed) as [rest ->]. apply startswith_app.
Qed.

(** X17. What the ngrok prompt makes of a pasted "https://" URL: the scheme
    becomes "wss://" and the rest stays, if the rest holds no further
    "https://" or "http://". *)
Theorem ngrok_url_https_becomes_wss typed rest :
  strip typed = lit "https://" ++ rest →
  contains rest (lit "https://") = false →
  contains rest (lit "http://") = false →
  ngrok_url typed = lit "wss://" ++ rest.
Proof.
  intros Htyped Hhttps Hhttp. unfold ngrok_url. cbv zeta.
  rewrite Htyped, startswith_app. cbn [negb andb].
  revert Hhttps Hhttp.
  change (lit "https://") with (104%N :: lit "ttps://").
  change (lit "http://") with (104%N :: lit "ttp://").
  intros Hhttps Hhttp.
  rewrite replace_at_start, (replace_absent _ _ _ _ Hhttps).
  rewrite (replace_keeps _ _ _ _ _ wss_has_no_h).
  by rewrite (replace_absent _ _ _ _ Hhttp).
Qed.

(** X18. A pasted "http://" URL is not normalised: it starts with neither
    "https://" nor "wss://", so it is taken for a bare host and "wss://" is
    put in front of it, scheme and all. *)
Theorem ngrok_url_http_is_kept typed rest :
  strip typed = lit "http://" ++ rest →
  ngrok_url typed = lit "wss://http://" ++ rest.
Proof.
  intros Htyped. unfold ngrok_url. cbv zeta. rewrite Htyped.
  assert (Hhttps : startswith (lit "http://" ++ rest) (lit "https://") = false).
  { cbn. by destruct rest. }
  rewrite Hhttps. reflexivity.
Qed.

(** X25. How the client's connection is secured follows from the mode
    chosen at the first prompt alone.  In ngrok mode the URL starts with
    "wss://" whatever was typed, so [connect] always sets up TLS, and
    always with the host name check and the certificate verification
    turned off.  In local mode the URL starts with "ws://" whatever was
    typed, and [connect] sets up no TLS. *)
Theorem transport_security_by_mode :
  (∀ typed,
     Client.connect_ssl_context (ngrok_url typed)
     = Some (Client.mkSslContext false Client.CERT_NONE)) ∧
  (∀ typed_host typed_port,
     Client.connect_ssl_context (local_url typed_host typed_port) = None).
Proof.
  split.
  - intros typed. unfold Client.connect_ssl_context.
    destruct (ngrok_url_scheme typed) as [rest ->].
    by rewrite startswith_app.
  - intros typed_host typed_port. reflexivity.
Qed.

(** * The client *)

Section ClientProperties.

Set Default Proof Using "Type".

Variable fernet : json → option Client.Cipher.
Variable clock : pystr → option pystr.
Variable lower : pystr → pystr.
Variable send_ok : nat → bool.
Variable key_b64 : pystr.
Variable isoformat : Z → pystr.

Lemma as_strings_strings users :
  Client.as_strings (JArr (map JStr users)) = Some users.
Proof.
  simpl. induction users as [|u users IH]; [done|].
  simpl. by rewrite IH.
Qed.

(** X20. The client reads every event the server sends: whatever the event
    and the client's state, [handle_server_message] does not raise on the
    event's JSON object and does not take it for an unknown message; it
    installs the key, or prints the one line that belongs to the event,
    with the fields the server put there. *)
Theorem client_reads_every_event ev c :
  Client.handle_server_message fernet clock (Client.on_wire key_b64 isoformat ev) c
  = Some
      match ev with
      | EncryptionKey =>
          match fernet (JStr key_b64) with
          | Some k => Client.install k c
          | None => Client.emit_line Client.BadKeyLine c
          end
      | UserList users =>
          Client.emit_line (Client.UsersLine (Client.join (lit ", ") users)) c
      | UserJoined username _ _ =>
          Client.emit_line (Client.JoinedLine (JStr username)) c
      | UserLeft username _ _ =>
          Client.emit_line (Client.LeftLine (JStr username)) c
      | ChatMessage username content timestamp =>
          Client.emit_line
            (Client.ChatLine
               (default [] (clock (replace (isoformat timestamp) (lit "Z")
                                           (lit "+00:00"))))
               (JStr username)
               (Client.decrypt_message c (JStr content)))
            c
      | Error message => Client.emit_line (Client.ErrorLine (JStr message)) c
      end.
Proof.
  destruct ev as [|users|username timestamp message|username timestamp message
                 |username content timestamp|message]; try reflexivity.
  - unfold Client.handle_server_message, Client.on_wire.
    change (Client.get _ "type" JNull) with (JStr (lit "encryption_key")).
    change (Client.get _ "key" (JStr [])) with (JStr key_b64).
    rewrite is_str_refl. by destruct (fernet (JStr key_b64)).
  - unfold Client.handle_server_message, Client.on_wire.
    change (Client.get _ "type" JNull) with (JStr (lit "user_list")).
    change (Client.get _ "users" (JArr [])) with (JArr (map JStr users)).
    rewrite as_strings_strings. reflexivity.
Qed.

(** X22. The two methods of the client undo each other, with a cipher and
    without: a client holding a cipher whose [decrypt] opens what its
    [encrypt] produced gets its text back from [decrypt_message], and a
    client without a cipher, for which both methods hand their argument
    back, does too. *)
Theorem client_cipher_round_trip c nonce message :
  (∀ k n m, Client.cipher c = Some k →
     Client.unseal k (Client.seal k n m) = Some m) →
  Client.decrypt_message c (JStr (Client.encrypt_message c nonce message))
  = JStr message.
Proof.
  intros Hround. unfold Client.decrypt_message, Client.encrypt_message.
  destruct (Client.cipher c) as [k|]; [|done].
  by rewrite (Hround k nonce message eq_refl).
Qed.

(** X23. What leaves the client from the keyboard: a turn of the input
    loop hands to [websocket.send] at most one message, and then it is a
    chat message whose content is the typed line, blanks included, sealed
    with the cipher the client holds.  Without a cipher nothing is sent, so
    the text [encrypt_message] would return unsealed never leaves; a blank
    line is not sent, and neither is a line that ends the client. *)
Theorem typed_text_leaves_sealed nonce key c :
  let c' := Client.input_turn lower send_ok nonce key c in
  Client.cipher c' = Client.cipher c ∧
  (Client.outbox c' = Client.outbox c ∨
   ∃ k message,
     key = Client.Typed message ∧
     Client.cipher c = Some k ∧
     strip message ≠ [] ∧
     lower (strip message) ≠ lit "exit" ∧
     Client.outbox c'
     = Client.outbox c
       ++ [(Client.chat_message (Client.seal k nonce message),
            send_ok (List.length (Client.outbox c)))]).
Proof.
  intros c'. subst c'. unfold Client.input_turn.
  destruct key as [message|]; [|by split; [|left]].
  case_bool_decide as Hexit; [by split; [|left]|].
  destruct (Client.cipher c) as [k|] eqn:Hk; [|split; [done|by left]].
  destruct (strip message) as [|ch rest] eqn:Hstrip; [split; [done|by left]|].
  cbv zeta. unfold Client.encrypt_message. rewrite Hk.
  split; [by destruct (send_ok _)|].
  right. exists k, message. rewrite Hstrip.
  split; [done|]. split; [done|]. split; [done|]. split; [done|].
  by destruct (send_ok _).
Qed.

(** X24. What the listener does to the client beside printing.  It never
    sends anything.  The cipher changes only when a message of type
    "encryption_key" carries a key that makes a cipher; a key that makes
    none leaves the cipher held before in place.  The input is never
    enabled without a cipher.  And the listener goes on exactly when a
    message arrived that [handle_server_message] could handle: it stops on
    a text that is no JSON, on JSON that is no object, and on a user list
    whose users cannot be joined. *)
Theorem listener_effects r c :
  let c' := Client.listen fernet clock r c in
  Client.outbox c' = Client.outbox c ∧
  ((Client.cipher c' = Client.cipher c ∧
    Client.key_received c' = Client.key_received c) ∨
   (∃ members k,
      r = Client.Message (JObj members) ∧
      is_str (Client.get members "type" JNull) (lit "encryption_key") = true ∧
      fernet (Client.get members "key" (JStr [])) = Some k ∧
      Client.cipher c' = Some k ∧ Client.key_received c' = true)) ∧
  ((Client.key_received c = true → is_Some (Client.cipher c)) →
   Client.key_received c' = true → is_Some (Client.cipher c')) ∧
  Client.running c'
  = match r with
    | Client.Message (JObj members) =>
        if is_str (Client.get members "type" JNull) (lit "user_list")
        then match Client.as_strings (Client.get members "users" (JArr [])) with
             | Some _ => Client.running c
             | None => false
             end
        else Client.running c
    | _ => false
    end.
Proof.
  intros c'. subst c'. unfold Client.listen.
  destruct r as [| | |data]; try (by repeat split; try left).
  destruct data as [| | | | |members]; try (by repeat split; try left).
  unfold Client.handle_server_message. cbv zeta.
  set (mtype := Client.get members "type" JNull).
  destruct (is_str mtype (lit "encryption_key")) eqn:Hkey.
  { assert (Hlist : is_str mtype (lit "user_list") = false).
    { destruct mtype; try done. simpl in *.
      apply bool_decide_eq_true in Hkey as ->. done. }
    rewrite Hlist.
    destruct (fernet (Client.get members "key" (JStr []))) as [k|] eqn:Hk.
    - split; [done|]. split; [|split; [|done]].
      + right. by exists members, k.
      + intros _ _. by eexists.
    - split; [done|]. split; [by left|]. split; [|done]. by intros H.
  }
  destruct (is_str mtype (lit "chat_message")) eqn:Hchat.
  { assert (Hlist : is_str mtype (lit "user_list") = false).
    { destruct mtype; try done. simpl in *.
      apply bool_decide_eq_true in Hchat as ->. done. }
    rewrite Hlist. split; [done|]. split; [by left|]. split; [|done]. by intros H. }
  destruct (is_str mtype (lit "user_joined")) eqn:Hjoined.
  { assert (Hlist : is_str mtype (lit "user_list") = false).
    { destruct mtype; try done. simpl in *.
      apply bool_decide_eq_true in Hjoined as ->. done. }
    rewrite Hlist. split; [done|]. split; [by left|]. split; [|done]. by intros H. }
  destruct (is_str mtype (lit "user_left")) eqn:Hleft.
  { assert (Hlist : is_str mtype (lit "user_list") = false).
    { destruct mtype; try done. simpl in *.
      apply bool_decide_eq_true in Hleft as ->. done. }
    rewrite Hlist. split; [done|]. split; [by left|]. split; [|done]. by intros H. }
  destruct (is_str mtype (lit "user_list")) eqn:Hlist.
  { destruct (Client.as_strings _) as [users|];
      (split; [done|]; split; [by left|]; split; [|done]; by intros H). }
  destruct (is_str mtype (lit "error"));
    (split; [done|]; split; [by left|]; split; [|done]; by intros H).
Qed.

End ClientProperties.

(** * Concrete runs *)

(** C4. A [chat_message] the limiter admitted.  If the content is no
    string, empty, or longer than [MAX_ENCRYPTED_LEN], the turn is a
    rejection with the "invalid content" error, and it is the same turn
    under any other cipher: decryption was not consulted.  If the content
    has an admissible length but does not decrypt, or decrypts to an empty
    or too long plaintext, the turn is a rejection with the "invalid
    message" error; no exception leaves the turn.  A rejection sends the
    sender one error event and relays nothing; if the event goes through,
    the handler stays in its loop in the state the limiter left, whose
    registry and log are the ones from before the message. *)
Theorem invalid_chat_rejected encrypt decrypt send_ok now nonce ws members st st1 :
  dict_get (lit "type") members = Some (JStr (lit "chat_message")) →
  rate_limit_ok now ws st = Ok true st1 →
  let content := default JNull (dict_get (lit "content") members) in
  let turn := handle_message encrypt decrypt send_ok now nonce ws (Json (JObj members)) st in
  ((∀ enc, content = JStr enc → len enc = 0 ∨ MAX_ENCRYPTED_LEN < len enc)%Z →
     rejection send_ok ws msg_bad_content st1 turn ∧
     ∀ encrypt' decrypt',
       handle_message encrypt' decrypt' send_ok now nonce ws (Json (JObj members)) st
       = turn) ∧
  (∀ enc, content = JStr enc →
     (0 < len enc ≤ MAX_ENCRYPTED_LEN)%Z →
     (∀ dec, decrypt enc = Some dec → len dec = 0 ∨ MAX_PLAINTEXT_LEN < len dec)%Z →
     rejection send_ok ws msg_bad_message st1 turn) ∧
  clients st1 = clients st ∧ client_names st1 = client_names st ∧ sent st1 = sent st.
Proof.
  intros Htype Hrate content turn. split; [|split].
  - intros Hbad. split.
    + apply guarded_reply. by apply bad_content_reply.
    + intros encrypt' decrypt'. unfold turn, handle_message, guarded.
      by rewrite !(bad_content_reply _ _ send_ok now nonce ws members st st1).
  - intros enc Hc Hlen Hbad. apply guarded_reply. by eapply bad_plaintext_reply.
  - by eapply rate_limit_ok_frame.
Qed.

(** Ana sends an empty content, then a content that does not decrypt. *)
Lemma invalid_chat_rejected_witness :
  handle_message toy_encrypt toy_decrypt all_delivered 5 9 0
    (chat_frame (JStr [])) ana_online
  = Ok Continue
      (log 0 (Error msg_bad_content) true
         (set_bucket 0 (mkBucket 1 0) ana_online)) ∧
  handle_message toy_encrypt toy_decrypt all_delivered 5 9 0
    (chat_frame (JStr [7%N])) ana_online
  = Ok Continue
      (log 0 (Error msg_bad_message) true
         (set_bucket 0 (mkBucket 1 0) ana_online)).
Proof.
  split.
  - destruct (invalid_chat_rejected toy_encrypt toy_decrypt all_delivered 5 9 0
                [(lit "type", JStr (lit "chat_message")); (lit "content", JStr [])]
                ana_online (set_bucket 0 (mkBucket 1 0) ana_online)
                eq_refl eq_refl) as [Hsize _].
    destruct Hsize as [(flow & st' & later & _ & _ & _ & Hreached) _].
    + intros enc [= <-]. left. reflexivity.
    + apply Hreached. reflexivity.
  - destruct (invalid_chat_rejected toy_encrypt toy_decrypt all_delivered 5 9 0
                [(lit "type", JStr (lit "chat_message")); (lit "content", JStr [7%N])]
                ana_online (set_bucket 0 (mkBucket 1 0) ana_online)
                eq_refl eq_refl) as (_ & Hplain & _).
    destruct (Hplain [7%N]) as (flow & st' & later & _ & _ & _ & Hreached).
    + reflexivity.
    + vm_compute. split; [reflexivity|discriminate].
    + intros dec [= <-]. left. reflexivity.
    + apply Hreached. reflexivity.
Defined.

Lemma toy_round_trip nonce plaintext :
  toy_decrypt (toy_encrypt nonce plaintext) = Some plaintext.
Proof. reflexivity. Defined.

(** Ana sends "hola" under nonce 5; the relay sends both clients the same
    text under its own nonce 9. *)
Lemma relayed_chat_decrypts_witness :
  ∃ st',
    handle_message toy_encrypt toy_decrypt all_delivered 5 9 0
      (chat_frame (JStr (toy_encrypt 5 (lit "hola")))) ana_bob_online
    = Ok Continue st' ∧
    Forall (λ a, event a = ChatMessage (lit "Ana") (toy_encrypt 9 (lit "hola")) 5)
           (sent st') ∧
    map target (sent st') = elements (clients ana_bob_online) ∧
    toy_decrypt (toy_encrypt 9 (lit "hola")) = Some (lit "hola") ∧
    toy_encrypt 9 (lit "hola") ≠ toy_encrypt 5 (lit "hola").
Proof.
  destruct (relayed_chat_decrypts toy_encrypt toy_decrypt all_delivered
              toy_round_trip 5 9 0
              [(lit "type", JStr (lit "chat_message"));
               (lit "content", JStr (toy_encrypt 5 (lit "hola")))]
              ana_bob_online (set_bucket 0 (mkBucket 1 0) ana_bob_online)
              5%N (lit "hola"))
    as (st' & later & Hrun & Hsent & Htargets & Hevents & Hlater & Hdec).
  - reflexivity.
  - reflexivity.
  - vm_compute. split; [reflexivity|discriminate].
  - vm_compute. split; [reflexivity|discriminate].
  - reflexivity.
  - assert (Hnone : later = []).
    { revert Hrun. vm_compute. intros [= <-]. revert Hsent. vm_compute.
      intros [= <-]. reflexivity. }
    subst later. rewrite app_nil_r in Hsent. simpl in Hsent.
    exists st'. split; [exact Hrun|]. rewrite Hsent.
    split; [exact Hevents|]. split; [exact Htargets|].
    split; [reflexivity|discriminate].
Defined.

(** Bob registers while Ana is online and every send goes through. *)
Lemma registration_order_witness :
  ∃ st',
    handle_first latin1_only all_delivered 10 1
      (register_frame (lit " Bob ")) ana_online = Ok Continue st' ∧
    client_names st' = [(0, lit "Ana"); (1, lit "Bob")] ∧
    last (sent st')
    = Some (mkAttempt 1 (UserList [lit "Ana"; lit "Bob"]) true).
Proof.
  destruct (registration_order latin1_only all_delivered 10 1
              [(lit "type", JStr (lit "register"));
               (lit "username", JStr (lit " Bob "))]
              (Some (lit " Bob ")) ana_online)
    as (st' & joined & Hrun & Hsent & _ & _ & _ & _ & Hnames).
  - reflexivity.
  - reflexivity.
  - vm_compute. discriminate.
  - split; [repeat constructor; by intros ?%not_elem_of_nil|reflexivity].
  - reflexivity.
  - exists st'. split; [exact Hrun|]. split; [exact Hnames|].
    rewrite Hsent. rewrite !app_assoc. apply last_snoc.
Defined.

(** C1, as stated, fails: with Ana online and Bob registering, the user list
    is the last thing sent, after the [user_joined] that went to Ana (and
    to Bob himself), not between the key and the announcement. *)
Lemma registration_order_counterexample :
  ∃ st',
    handle_first latin1_only all_delivered 10 1
      (register_frame (lit "Bob")) ana_online = Ok Continue st' ∧
    sent st'
    = [mkAttempt 1 EncryptionKey true;
       mkAttempt 1 (UserJoined (lit "Bob") 10 (msg_joined (lit "Bob"))) true;
       mkAttempt 0 (UserJoined (lit "Bob") 10 (msg_joined (lit "Bob"))) true;
       mkAttempt 1 (UserList [lit "Ana"; lit "Bob"]) true] ∧
    ¬ specified_order 1 (sent st').
Proof.
  eexists. split; [vm_compute; reflexivity|]. split; [reflexivity|].
  intros (users & joined & Heq & _). discriminate Heq.
Qed.

(** C2, as stated, fails: the sanitized form of ["! a"] starts with the
    space the filter uncovered, and sanitizing it again trims that space. *)
Lemma sanitize_twice_counterexample :
  (∀ w, sanitize_username w (Some (lit "! a")) = lit " a") ∧
  (∀ w, sanitize_username w (Some (sanitize_username w (Some (lit "! a"))))
        = lit "a") ∧
  lit " a" ≠ lit "a".
Proof. split; [|split]; [reflexivity|reflexivity|discriminate]. Qed.

Lemma sanitized_name_stored_witness :
  sanitize_username latin1_only
    (Some (sanitize_username latin1_only (Some (lit "  Ana Mar!a  "))))
  = lit "Ana Mara" ∧
  ∃ st',
    handle_first latin1_only all_delivered 10 1
      (register_frame (lit "  Ana Mar!a  ")) ana_online = Ok Continue st' ∧
    dict_get 1 (client_names st') = Some (lit "Ana Mara").
Proof.
  destruct (sanitized_name_stored latin1_only all_delivered) as [Hfixed Hstored].
  split.
  - destruct (Hfixed (lit "  Ana Mar!a  ")) as [_ Hback].
    rewrite Hback; reflexivity.
  - apply (Hstored 10%Z 1
             [(lit "type", JStr (lit "register"));
              (lit "username", JStr (lit "  Ana Mar!a  "))]
             (Some (lit "  Ana Mar!a  ")) ana_online); reflexivity.
Defined.

Lemma sanitize_username_contract_witness :
  sanitize_username latin1_only (Some (lit "  x<y>z_0123456789012345678901234567890  "))
  = lit "xyz_0123456789012345678901234567"
  ∧ List.length (sanitize_username latin1_only
                   (Some (lit "  x<y>z_0123456789012345678901234567890  "))) ≤ 32.
Proof.
  destruct (sanitize_username_contract latin1_only toy_encrypt toy_decrypt
              all_delivered (lit "  x<y>z_0123456789012345678901234567890  "))
    as (Hspec & _ & Hlen & _).
  split; [rewrite Hspec; reflexivity|exact Hlen].
Defined.

(** The name a relayed message carries when its sender is no longer in the
    registry: Bob's connection failed under Ana's broadcast and was
    unregistered, and the next frame of his handler is relayed to Ana under
    "?", which no sanitizer result contains. *)
Lemma sanitize_username_contract_counterexample :
  ∃ w,
    run latin1_only toy_encrypt toy_decrypt (fails_from 7 1)
      [Arrives 0 0 (register_frame (lit "Ana"));
       Arrives 1 10 (register_frame (lit "Bob"));
       Speaks 0 20 9 (chat_frame (JStr (toy_encrypt 5 (lit "hola"))));
       Speaks 1 30 9 (chat_frame (JStr (toy_encrypt 5 (lit "hola"))))]
      genesis = Some w ∧
    last (sent (server w))
    = Some (mkAttempt 0 (ChatMessage (lit "?") (toy_encrypt 9 (lit "hola")) 30) true) ∧
    allowed latin1_only 63 = false ∧
    ∀ name, sanitize_username latin1_only name ≠ lit "?".
Proof.
  eexists. split; [vm_compute; reflexivity|].
  split; [vm_compute; reflexivity|]. split; [reflexivity|].
  intros name Heq.
  destruct (sanitize_username_wf latin1_only name) as (_ & Hall & _).
  rewrite Heq in Hall. apply Forall_inv in Hall. vm_compute in Hall. discriminate Hall.
Qed.


(** The first frame is the JSON text [[]]. *)
Lemma first_frame_not_object_is_silent_witness :
  handle_first latin1_only all_delivered 10 1 (Json (JArr [])) ana_online
  = Ok Closed ana_online.
Proof.
  apply (first_frame_not_object_is_silent latin1_only all_delivered 10 1
           (JArr []) ana_online).
  - intros members. discriminate.
  - vm_compute. discriminate.
Defined.

(** C5 (where the code departs). Ana and Bob register; Ana's next message
    finds Bob's connection failing, so the broadcast unregisters Bob; Bob's
    handler then takes one more frame from its queue, and the limiter gives
    him a new bucket; when his handler ends, the cleanup finds him absent
    from the client set and does nothing.  The bucket of a connection that
    is neither registered nor served any longer stays in [rate_bucket]. *)
Theorem bucket_outlives_registration :
  ∃ w,
    run latin1_only toy_encrypt toy_decrypt (fails_from 7 1)
      [Arrives 0 0 (register_frame (lit "Ana"));
       Arrives 1 10 (register_frame (lit "Bob"));
       Speaks 0 20 9 (chat_frame (JStr (toy_encrypt 5 (lit "hola"))));
       Speaks 1 30 9 (chat_frame (JStr (toy_encrypt 5 (lit "hola"))));
       Speaks 1 40 9 Dropped]
      genesis = Some w ∧
    elements (clients (server w)) = [0] ∧
    client_names (server w) = [(0, lit "Ana")] ∧
    elements (looping w) = [0] ∧
    rate_bucket (server w) !! 1 = Some (mkBucket 1 30).
Proof.
  eexists. split; [vm_compute; reflexivity|].
  repeat split; vm_compute; reflexivity.
Qed.

(** Bob's connection is cleaned up twice. *)
Lemma unregister_client_idempotent_witness :
  ∃ st',
    unregister_client all_delivered 20 1 ana_bob_online = Ok tt st' ∧
    unregister_client all_delivered 30 1 st' = Ok tt st'.
Proof.
  eexists. split; [vm_compute; reflexivity|].
  apply (unregister_client_idempotent all_delivered 20 30 1 ana_bob_online).
  vm_compute. reflexivity.
Defined.

(** A first frame that is no JSON, and one that [json.loads] does not get
    through at all. *)
Lemma first_frame_rejected_witness :
  handle_first latin1_only all_delivered 10 1 BadJson ana_online
  = Ok Closed (log 1 (Error msg_bad_registration) true ana_online) ∧
  handle_first latin1_only all_delivered 10 1 Unloadable ana_online
  = Ok Closed ana_online.
Proof.
  destruct (first_frame_rejected latin1_only all_delivered 10 1 ana_online)
    as (Hbad & _ & Hun).
  - vm_compute. discriminate.
  - split; [exact Hbad|exact Hun].
Defined.

(** The run in which Bob's connection fails under Ana's broadcast. *)
Lemma registry_sound_always_witness :
  ∃ w,
    run latin1_only toy_encrypt toy_decrypt (fails_from 7 1)
      [Arrives 0 0 (register_frame (lit "Ana"));
       Arrives 1 10 (register_frame (lit "Bob"));
       Speaks 0 20 9 (chat_frame (JStr (toy_encrypt 5 (lit "hola"))))]
      genesis = Some w ∧
    consistent (server w) ∧
    clients (server w) ⊆ looping w.
Proof.
  eexists. split; [vm_compute; reflexivity|].
  match goal with
  | |- consistent (server ?w) ∧ _ =>
      destruct (registry_sound_always latin1_only toy_encrypt toy_decrypt
                  (fails_from 7 1)
                  [Arrives 0 0 (register_frame (lit "Ana"));
                   Arrives 1 10 (register_frame (lit "Bob"));
                   Speaks 0 20 9 (chat_frame (JStr (toy_encrypt 5 (lit "hola"))))]
                  w) as (Hc & Hl & _)
  end.
  - vm_compute. reflexivity.
  - split; [exact Hc|exact Hl].
Defined.

(** A clean name goes through the sanitizer as it is. *)
Lemma sanitize_username_fixed_points_witness :
  sanitize_username latin1_only (Some (lit "Ana Mara")) = lit "Ana Mara".
Proof.
  apply (sanitize_username_fixed_points latin1_only (lit "Ana Mara")).
  split; [discriminate|]. split; [simpl; lia|].
  split; [repeat constructor|reflexivity].
Defined.



(** Ana sends a frame that is no JSON; Bob sends one that [json.loads]
    does not get through, and is gone, with Ana told. *)
Lemma other_frames_refused_witness :
  rejection all_delivered 0 msg_bad_json
    (set_bucket 0 (mkBucket 1 0) ana_online)
    (handle_message toy_encrypt toy_decrypt all_delivered 5 9 0 BadJson ana_online) ∧
  ∃ st',
    handle_message toy_encrypt toy_decrypt all_delivered 5 9 1 Unloadable
      ana_bob_online = Ok Closed st' ∧
    sent st' = [mkAttempt 0 (UserLeft (lit "Bob") 5 (msg_left (lit "Bob"))) true] ∧
    1 ∉ clients st'.
Proof.
  split.
  - destruct (other_frames_refused toy_encrypt toy_decrypt all_delivered 5 9 0
                ana_online (set_bucket 0 (mkBucket 1 0) ana_online)) as [Hbad _].
    + reflexivity.
    + exact Hbad.
  - destruct (other_frames_refused toy_encrypt toy_decrypt all_delivered 5 9 1
                ana_bob_online (set_bucket 1 (mkBucket 1 0) ana_bob_online))
      as (_ & _ & (st' & later & Hrun & Hclean & Hsent & _ & Hgone) & _).
    + reflexivity.
    + exists st'. split; [exact Hrun|]. split; [|exact Hgone].
      vm_compute in Hclean. injection Hclean as <-. reflexivity.
Defined.

(** Bob sends the JSON text [7] in the middle of the chat. *)
Lemma loop_frame_not_object_disconnects_witness :
  ∃ st' later,
    handle_message toy_encrypt toy_decrypt all_delivered 5 9 1
      (Json (JInt 7)) ana_bob_online = Ok Closed st' ∧
    sent st' = later ∧
    Forall (λ a, is_user_left (event a) = true ∧ target a ≠ 1) later ∧
    (1 ∉ clients st').
Proof.
  destruct (loop_frame_not_object_disconnects toy_encrypt toy_decrypt
              all_delivered 5 9 1 (JInt 7) ana_bob_online
              (set_bucket 1 (mkBucket 1 0) ana_bob_online))
    as (st' & later & Hrun & _ & Hsent & Hlater & Hgone).
  - intros members. discriminate.
  - reflexivity.
  - exists st', later. split; [exact Hrun|]. split; [exact Hsent|].
    split; [exact Hlater|exact Hgone].
Defined.


(** The bound is met: ten messages at the very end of the window opened at
    registration and ten more a microsecond later, when the next window
    opens, are all admitted. *)
Lemma rate_limiter_burst_bound_witness :
  admitted_between 2000000 2000001
    (repeat 2000000%Z 10 ++ repeat 2000001%Z 10)
    (verdicts 0 (repeat 2000000%Z 10 ++ repeat 2000001%Z 10) ana_online).1
  = 20 ∧
  admitted_between 2000000 2000001
    (repeat 2000000%Z 10 ++ repeat 2000001%Z 10)
    (verdicts 0 (repeat 2000000%Z 10 ++ repeat 2000001%Z 10) ana_online).1
  ≤ 2 * Z.to_nat RATE_MAX_MSGS.
Proof.
  split; [vm_compute; reflexivity|].
  apply (rate_limiter_burst_bound 0
           (repeat 2000000%Z 10 ++ repeat 2000001%Z 10) 2000000 2000001
           ana_online).
  - simpl. repeat (apply SSorted_cons; [|repeat constructor; lia]).
    apply SSorted_nil.
  - intros b. vm_compute. intros [= <-]. discriminate.
  - vm_compute. discriminate.
Defined.

(** The run in which Bob is unregistered under Ana's broadcast and then
    speaks once more. *)
Lemma buckets_always_metered_witness :
  ∃ w,
    run latin1_only toy_encrypt toy_decrypt (fails_from 7 1)
      [Arrives 0 0 (register_frame (lit "Ana"));
       Arrives 1 10 (register_frame (lit "Bob"));
       Speaks 0 20 9 (chat_frame (JStr (toy_encrypt 5 (lit "hola"))));
       Speaks 1 30 9 (chat_frame (JStr (toy_encrypt 5 (lit "hola"))))]
      genesis = Some w ∧
    (∀ c, c ∈ clients (server w) → is_Some (rate_bucket (server w) !! c)) ∧
    (∀ c b, rate_bucket (server w) !! c = Some b →
       0 ≤ count b ≤ RATE_MAX_MSGS)%Z.
Proof.
  eexists. split; [vm_compute; reflexivity|].
  match goal with
  | |- (∀ c, c ∈ clients (server ?w) → _) ∧ _ =>
      apply (buckets_always_metered latin1_only toy_encrypt toy_decrypt
               (fails_from 7 1)
               [Arrives 0 0 (register_frame (lit "Ana"));
                Arrives 1 10 (register_frame (lit "Bob"));
                Speaks 0 20 9 (chat_frame (JStr (toy_encrypt 5 (lit "hola"))));
                Speaks 1 30 9 (chat_frame (JStr (toy_encrypt 5 (lit "hola"))))]
               w)
  end.
  vm_compute. reflexivity.
Defined.

(** Ana registers; connection 1 opens with a frame that is no JSON and
    connection 2 with a chat message: nothing but error events reaches
    those two. *)
Lemma traffic_only_to_registrants_witness :
  ∃ w,
    run latin1_only toy_encrypt toy_decrypt all_delivered
      [Arrives 0 0 (register_frame (lit "Ana"));
       Arrives 1 10 BadJson;
       Arrives 2 20 (chat_frame (JStr (toy_encrypt 5 (lit "hola"))))]
      genesis = Some w ∧
    ∀ a, a ∈ sent (server w) → is_error (event a) = false → target a = 0.
Proof.
  eexists. split; [vm_compute; reflexivity|].
  match goal with
  | |- ∀ a, a ∈ sent (server ?w) → _ =>
      destruct (traffic_only_to_registrants latin1_only toy_encrypt toy_decrypt
                  all_delivered
                  [Arrives 0 0 (register_frame (lit "Ana"));
                   Arrives 1 10 BadJson;
                   Arrives 2 20 (chat_frame (JStr (toy_encrypt 5 (lit "hola"))))]
                  w) as [_ Hto]
  end.
  - vm_compute. reflexivity.
  - intros a Ha Hev. specialize (Hto a Ha Hev).
    unfold registrants in Hto. simpl in Hto.
    apply elem_of_union in Hto as [Hto|Hto].
    + by apply elem_of_singleton in Hto.
    + by apply not_elem_of_empty in Hto.
Defined.

(** A pasted https URL. *)
Lemma ngrok_url_https_becomes_wss_witness :
  ngrok_url (lit "  https://abc.ngrok.app ") = lit "wss://abc.ngrok.app".
Proof.
  apply (ngrok_url_https_becomes_wss (lit "  https://abc.ngrok.app ")
           (lit "abc.ngrok.app")); reflexivity.
Defined.

(** A pasted http URL. *)
Lemma ngrok_url_http_is_kept_witness :
  ngrok_url (lit "http://abc.ngrok.app") = lit "wss://http://abc.ngrok.app".
Proof.
  apply (ngrok_url_http_is_kept (lit "http://abc.ngrok.app")
           (lit "abc.ngrok.app")); reflexivity.
Defined.

(** A name typed with blanks around it, and a blank line for a name. *)
Lemma typed_username_as_stored_witness :
  (∃ st',
     handle_first latin1_only all_delivered 10 1
       (register_frame (typed_username (lit "  Bob "))) ana_online
     = Ok Continue st' ∧
     dict_get 1 (client_names st') = Some (lit "Bob")) ∧
  (∃ st',
     handle_first latin1_only all_delivered 10 1
       (register_frame (typed_username (lit "   "))) ana_online
     = Ok Continue st' ∧
     dict_get 1 (client_names st') = Some Anonimo).
Proof.
  split.
  - apply (typed_username_as_stored latin1_only all_delivered (lit "  Bob ") 10 1
             ana_online). reflexivity.
  - apply (typed_username_as_stored latin1_only all_delivered (lit "   ") 10 1
             ana_online). reflexivity.
Defined.


(** With the small cipher, and without any. *)
Lemma client_cipher_round_trip_witness :
  Client.decrypt_message ready_client
    (JStr (Client.encrypt_message ready_client 7 (lit "hola")))
  = JStr (lit "hola") ∧
  Client.decrypt_message (Client.mkState None false true [] [])
    (JStr (Client.encrypt_message (Client.mkState None false true [] []) 7
             (lit "hola")))
  = JStr (lit "hola").
Proof.
  split.
  - apply (client_cipher_round_trip ready_client 7 (lit "hola")).
    intros k n m [= <-]. reflexivity.
  - apply (client_cipher_round_trip (Client.mkState None false true [] []) 7
             (lit "hola")).
    intros k n m. discriminate.
Defined.

(** Eva's message goes out to three recipients, herself first.  Bob's
    connection fails: with nobody else running, Ana and Eva get the message
    and Bob is unregistered after the loop.  With all connections fine, but
    Bob's handler taking Bob out of the set while the send to Eva is
    awaited, the loop raises at its next step: Ana is never tried. *)
Lemma broadcast_isolates_failures_witness :
  (∃ st',
     broadcast_message_live (fails_from 0 1) undisturbed rest_in_set 20
       (ChatMessage (lit "Eva") (lit "x") 20) (Some 2) true three_online
     = Ok tt st' ∧
     mkAttempt 0 (ChatMessage (lit "Eva") (lit "x") 20) true ∈ sent st' ∧
     mkAttempt 2 (ChatMessage (lit "Eva") (lit "x") 20) true ∈ sent st' ∧
     (1 ∉ clients st') ∧ 0 ∈ clients st' ∧ 2 ∈ clients st') ∧
  broadcast_message_live all_delivered (leaves_during 0 1) rest_in_set 20
    (ChatMessage (lit "Eva") (lit "x") 20) (Some 2) true three_online
  = Raise RuntimeError
      (forget 1 (log 2 (ChatMessage (lit "Eva") (lit "x") 20) true three_online)).
Proof.
  split.
  - destruct (broadcast_isolates_failures (fails_from 0 1) undisturbed rest_in_set 20
                (ChatMessage (lit "Eva") (lit "x") 20) (Some 2) true three_online)
      as [Hquiet _].
    destruct Hquiet
      as (st' & cleanup_log & Hrun & _ & _ & _ & Hsent & _ & _ & Hgone & Hkept).
    { intros n st. reflexivity. }
    exists st'. split; [exact Hrun|].
    destruct (Hkept 0) as [Hin0 Hsent0]; [vm_compute; reflexivity|reflexivity|].
    destruct (Hkept 2) as [Hin2 Hsent2]; [vm_compute; reflexivity|reflexivity|].
    rewrite Hsent.
    split; [apply elem_of_app; right; apply elem_of_app; left; by apply Hsent0|].
    split; [apply elem_of_app; right; apply elem_of_app; left; by apply Hsent2|].
    split; [|split; [exact Hin0|exact Hin2]].
    apply Hgone. vm_compute. apply list_elem_of_here.
  - destruct (broadcast_isolates_failures all_delivered (leaves_during 0 1) rest_in_set 20
                (ChatMessage (lit "Eva") (lit "x") 20) (Some 2) true three_online)
      as [_ Hraise].
    apply (Hraise [] 2 [1; 0]).
    + vm_compute. reflexivity.
    + reflexivity.
    + simpl. intros k s Hk. lia.
    + vm_compute. discriminate.
Defined.




Lemma rest_in_set_members n cs todo c : c ∈ rest_in_set n cs todo → c ∈ cs.
Proof.
  unfold rest_in_set. intros Hc.
  apply list_elem_of_In, filter_In in Hc as [_ Hc].
  by apply bool_decide_eq_true in Hc.
Qed.

